(** * DatCure: the tag-indexed image gallery of [datcure.py]

    A shallow embedding of the data-handling core of the [DatCureApp]
    class (captions, tag frequencies, selection, filtering, sorting,
    relocation and directory loading), followed by the properties that the
    specification of the program states about it.

    Conventions of the embedding
    - a Python [str] is the [string] of its UTF-8 bytes, and so is the
      content of a file; [str.strip] removes the white space of Unicode,
      [str.lower] is followed on the ASCII letters, which is all that the
      test of the image suffixes depends on;
    - [self.captions] and [self.tag_frequency] are finite maps ([gmap]),
      the latter with the read-inserts-zero behaviour of
      [collections.defaultdict(int)];
    - [self.selected_images] and [self.all_tags] are finite sets ([gset]);
      Python does not fix the order in which a set is iterated, so the
      handlers that iterate over one take that order as a parameter;
    - the disk is a finite map from the paths of the files that can be
      read to their bytes, plus a set of paths that cannot be written;
      reading decodes the bytes as [errors="ignore"] does and translates
      the line ends; [os.path] follows [posixpath], and a file is written
      with the line ends of POSIX;
    - a worker of the thread pool is run in one step, so what is proved
      about loads is proved of the executions in which no handler and no
      other worker runs between the first and the last statement of a
      worker;
    - what is drawn on the screen is left out, except for the thumbnails
      that the gallery shows and the item texts of the tag list, which the
      filter handlers read back.

    The file has three parts: the primitives of Python that the program
    uses ([PyStr], [OsPath], [Disk]), the program ([DatCure], with sample
    disks in [Samples]), and the properties, grouped by component. *)

From stdpp Require Import gmap strings list fin_maps pretty sorting.
From Stdlib Require Import ZArith Ascii.

#[global] Set Warnings "-clear-no-such-hyp".

Local Open Scope Z_scope.

(** ** Python string primitives *)

Module PyStr.

(** The white space of [str.isspace], which [str.strip] removes, in
    UTF-8.  One byte: tab to carriage return, the four separators 28 to
    31, and the blank. *)
Definition is_space (c : ascii) : bool :=
  match c with
  | "009" | "010" | "011" | "012" | "013"
  | "028" | "029" | "030" | "031" | " " => true
  | _ => false
  end%char.

(** Two bytes: U+0085 and U+00A0. *)
Definition is_space2 (a b : ascii) : bool :=
  bool_decide (a = "194"%char)
  && (bool_decide (b = "133"%char) || bool_decide (b = "160"%char)).

(** Three bytes: U+1680, U+2000 to U+200A, U+2028, U+2029, U+202F, U+205F
    and U+3000. *)
Definition is_space3 (a b c : ascii) : bool :=
  (bool_decide (a = "225"%char) && bool_decide (b = "154"%char)
   && bool_decide (c = "128"%char))
  || (bool_decide (a = "226"%char) && bool_decide (b = "128"%char)
      && ((128 <=? N_of_ascii c)%N && (N_of_ascii c <=? 138)%N
          || bool_decide (c = "168"%char) || bool_decide (c = "169"%char)
          || bool_decide (c = "175"%char)))
  || (bool_decide (a = "226"%char) && bool_decide (b = "129"%char)
      && bool_decide (c = "159"%char))
  || (bool_decide (a = "227"%char) && bool_decide (b = "128"%char)
      && bool_decide (c = "128"%char)).

(** [s] is one white-space character. *)
Definition is_space_char (s : string) : bool :=
  match s with
  | String a "" => is_space a
  | String a (String b "") => is_space2 a b
  | String a (String b (String c "")) => is_space3 a b c
  | _ => false
  end.

(** [s.lstrip()]: the white-space characters that [s] starts with go. *)
Fixpoint lstrip (s : string) : string :=
  match s with
  | "" => ""
  | String a s1 =>
      if is_space a then lstrip s1
      else match s1 with
           | "" => s
           | String b s2 =>
               if is_space2 a b then lstrip s2
               else match s2 with
                    | "" => s
                    | String c s3 => if is_space3 a b c then lstrip s3 else s
                    end
           end
  end.

(** [s.rstrip()]: the white-space characters that [s] ends with go.  What
    is left of the tail comes first; a character goes when it is white
    space together with what is left behind it. *)
Fixpoint rstrip (s : string) : string :=
  match s with
  | "" => ""
  | String c s' =>
      let r := String c (rstrip s') in
      if is_space_char r then "" else r
  end.

(** [s.strip()] *)
Definition strip (s : string) : string := rstrip (lstrip s).

(** A continuation byte of UTF-8. *)
Definition continuation (c : ascii) : bool :=
  ((128 <=? N_of_ascii c) && (N_of_ascii c <? 192))%N.

(** The byte that may follow the first byte [a] of a sequence of two,
    three or four bytes: a continuation byte, in the narrower range that
    E0, ED, F0 and F4 ask for. *)
Definition second (a b : ascii) : bool :=
  continuation b
  && match N_of_ascii a with
     | 224 => 160 <=? N_of_ascii b
     | 237 => N_of_ascii b <? 160
     | 240 => 144 <=? N_of_ascii b
     | 244 => N_of_ascii b <? 144
     | _ => true
     end%N.

(** [b.decode("utf-8", errors="ignore")], read as the UTF-8 bytes of the
    text: the bytes that are no part of a well-formed sequence are
    dropped, a wrong first byte alone, a sequence that breaks off with
    the bytes that were right so far. *)
Fixpoint decode (s : string) : string :=
  match s with
  | "" => ""
  | String a s1 =>
      if (N_of_ascii a <? 128)%N then String a (decode s1)
      else if (N_of_ascii a <? 194)%N || (245 <=? N_of_ascii a)%N
      then decode s1
      else
        match s1 with
        | "" => ""
        | String b s2 =>
            if negb (second a b) then decode s1
            else if (N_of_ascii a <? 224)%N
            then String a (String b (decode s2))
            else
              match s2 with
              | "" => ""
              | String c s3 =>
                  if negb (continuation c) then decode s2
                  else if (N_of_ascii a <? 240)%N
                  then String a (String b (String c (decode s3)))
                  else
                    match s3 with
                    | "" => ""
                    | String e s4 =>
                        if negb (continuation e) then decode s3
                        else String a (String b (String c (String e
                               (decode s4))))
                    end
              end
        end
  end.

(** The translation of line ends of a file opened for reading in text
    mode: a carriage return, with the line feed that follows it if one
    does, becomes a line feed. *)
Fixpoint universal_newlines (s : string) : string :=
  match s with
  | "" => ""
  | String c s1 =>
      if bool_decide (c = "013"%char) then
        match s1 with
        | String "010"%char s2 => String "010"%char (universal_newlines s2)
        | _ => String "010"%char (universal_newlines s1)
        end
      else String c (universal_newlines s1)
  end.

(** [s.split(sep)] for a one-character separator: never the empty list. *)
Fixpoint split (sep : ascii) (s : string) : list string :=
  match s with
  | "" => [""]
  | String c s' =>
      if decide (c = sep) then "" :: split sep s'
      else match split sep s' with
           | [] => [String c ""]
           | w :: ws => String c w :: ws
           end
  end.

(** [sep.join(l)] *)
Fixpoint join (sep : string) (l : list string) : string :=
  match l with
  | [] => ""
  | [x] => x
  | x :: rest => x +:+ sep +:+ join sep rest
  end.

(** The characters that the text of a number is made of. *)
Definition digit (c : ascii) : Prop := ∃ n, pretty_N_char n = c.

Definition lower_char (c : ascii) : ascii :=
  let n := N_of_ascii c in
  if ((65 <=? n) && (n <=? 90))%N then ascii_of_N (n + 32) else c.

(** [s.lower()] on ASCII letters. *)
Fixpoint lower (s : string) : string :=
  match s with
  | "" => ""
  | String c s' => String (lower_char c) (lower s')
  end.

(** [s.startswith(p)] *)
Fixpoint startswith (p s : string) : bool :=
  match p, s with
  | "", _ => true
  | String a p', String b s' => bool_decide (a = b) && startswith p' s'
  | _, "" => false
  end.

(** [s.endswith(x)]: some tail of [s] is [x]. *)
Fixpoint endswith (x s : string) : bool :=
  bool_decide (s = x)
  || match s with
     | "" => false
     | String _ s' => endswith x s'
     end.

(** [c in s] for a character. *)
Fixpoint has_char (c : ascii) (s : string) : bool :=
  match s with
  | "" => false
  | String a s' => bool_decide (a = c) || has_char c s'
  end.

(** Split at the last occurrence of the separator [sep]: the text before
    it and the text after it, [None] when [sep] does not occur.  This is
    [s.rsplit(sep, 1)] read as a pair. *)
Fixpoint rsplit1 (sep : string) (s : string) : option (string * string) :=
  match s with
  | "" => None
  | String c s' =>
      match rsplit1 sep s' with
      | Some (a, b) => Some (String c a, b)
      | None =>
          if startswith sep s
          then Some ("", String.substring (String.length sep)
                            (String.length s - String.length sep) s)
          else None
      end
  end.

End PyStr.

(** ** [os.path], after [posixpath] *)

Module OsPath.

(** [os.path.basename(p)]: what follows the last slash. *)
Definition basename (p : string) : string :=
  match PyStr.rsplit1 "/" p with
  | Some (_, b) => b
  | None => p
  end.

Fixpoint all_dots (s : string) : bool :=
  match s with
  | "" => true
  | String c s' => bool_decide (c = "."%char) && all_dots s'
  end.

(** [os.path.splitext(p)]: the extension starts at the last dot of the
    last component, unless only dots precede it in that component. *)
Definition splitext (p : string) : string * string :=
  let '(d, b) := match PyStr.rsplit1 "/" p with
                 | Some (d, b) => (d +:+ "/", b)
                 | None => ("", p)
                 end in
  match PyStr.rsplit1 "." b with
  | Some (r, e) =>
      if all_dots r then (p, "") else (d +:+ r, "." +:+ e)
  | None => (p, "")
  end.

(** [os.path.join(a, b)] *)
Definition join (a b : string) : string :=
  if PyStr.startswith "/" b then b
  else if bool_decide (a = "") || PyStr.endswith "/" a then a +:+ b
  else a +:+ "/" +:+ b.

End OsPath.

(** ** The disk *)

Module Disk.

(** The regular files that can be read, by path, with their bytes, and
    the paths that refuse to be written (a read-only file, a directory
    without write permission). *)
Record disk := Mk {
  files : gmap string string;
  locked : gset string;
}.

(** [os.path.exists(p)] *)
Definition exists_ (d : disk) (p : string) : bool :=
  bool_decide (is_Some (files d !! p)).

(** [open(p, "r", encoding="utf-8", errors="ignore").read()]: the bytes
    of the file, decoded, with the line ends translated; [None] stands
    for the exception of a path that holds nothing that can be read. *)
Definition read (d : disk) (p : string) : option string :=
  (λ bytes, PyStr.universal_newlines (PyStr.decode bytes)) <$> files d !! p.

(** [open(p, "w").write(text)]; [None] stands for the exception. *)
Definition write (d : disk) (p text : string) : option disk :=
  if decide (p ∈ locked d) then None
  else Some (Mk (<[p := text]> (files d)) (locked d)).

(** [shutil.copy2(src, dst)] *)
Definition copy2 (d : disk) (src dst : string) : option disk :=
  match files d !! src with
  | Some text => write d dst text
  | None => None
  end.

(** [shutil.move(src, dst)] to a file path [dst]. *)
Definition move (d : disk) (src dst : string) : option disk :=
  match files d !! src with
  | Some text =>
      if decide (dst ∈ locked d) then None
      else Some (Mk (<[dst := text]> (delete src (files d))) (locked d))
  | None => None
  end.

(** A directory as the operating system shows it: the names of its files
    and its sub-directories, each list in the order the operating system
    lists them; a link to a directory; a directory that cannot be
    listed.  A link that leads back to a directory above it has no such
    tree. *)
#[warnings="-register-all"]
Inductive tree :=
  | Dir (fnames : list string) (subdirs : list (string * tree))
  | Link (target : tree)
  | Denied.

(** [os.walk(top)], top-down: the triples [(root, dirs, files)].  A
    directory that cannot be listed yields nothing, and a sub-directory
    that is a link is named in [dirs] and not walked. *)
Fixpoint walk (top : string) (t : tree)
  : list (string * list string * list string) :=
  match t with
  | Dir fnames subdirs =>
      (top, subdirs.*1, fnames)
      :: (fix walk_subdirs (l : list (string * tree)) :=
            match l with
            | [] => []
            | (name, sub) :: l' =>
                match sub with
                | Link _ => []
                | _ => walk (OsPath.join top name) sub
                end ++ walk_subdirs l'
            end) subdirs
  | Link target => walk top target
  | Denied => []
  end.

End Disk.

(** ** The application state and its handlers *)

Module DatCure.

(** The data attributes of [DatCureApp] (lines 126-136), the focused image
    (line 484), and what the widgets the handlers read or fill hold: the
    state of the "Include Subdirectories" check box, the item texts of the
    tag list, and the thumbnails in the gallery. *)
Record app := App {
  images : list string;
  captions : gmap string (list string);
  tag_frequency : gmap string Z;
  selected_images : gset string;
  all_tags : gset string;
  filtered_images : list string;
  filter_active : bool;
  filter_mode : string;
  focus_image_path : option string;
  include_subdirs : bool;
  tag_list : list string;
  gallery : list string;
}.

(** [__init__] *)
Definition init : app :=
  App [] ∅ ∅ ∅ ∅ [] false "Inclusive" None true [] [].

Definition set_images (v : list string) (a : app) : app :=
  App v (captions a) (tag_frequency a) (selected_images a) (all_tags a)
      (filtered_images a) (filter_active a) (filter_mode a)
      (focus_image_path a) (include_subdirs a) (tag_list a) (gallery a).

Definition set_captions (v : gmap string (list string)) (a : app) : app :=
  App (images a) v (tag_frequency a) (selected_images a) (all_tags a)
      (filtered_images a) (filter_active a) (filter_mode a)
      (focus_image_path a) (include_subdirs a) (tag_list a) (gallery a).

Definition set_tag_frequency (v : gmap string Z) (a : app) : app :=
  App (images a) (captions a) v (selected_images a) (all_tags a)
      (filtered_images a) (filter_active a) (filter_mode a)
      (focus_image_path a) (include_subdirs a) (tag_list a) (gallery a).

Definition set_selected_images (v : gset string) (a : app) : app :=
  App (images a) (captions a) (tag_frequency a) v (all_tags a)
      (filtered_images a) (filter_active a) (filter_mode a)
      (focus_image_path a) (include_subdirs a) (tag_list a) (gallery a).

Definition set_all_tags (v : gset string) (a : app) : app :=
  App (images a) (captions a) (tag_frequency a) (selected_images a) v
      (filtered_images a) (filter_active a) (filter_mode a)
      (focus_image_path a) (include_subdirs a) (tag_list a) (gallery a).

Definition set_filtered_images (v : list string) (a : app) : app :=
  App (images a) (captions a) (tag_frequency a) (selected_images a)
      (all_tags a) v (filter_active a) (filter_mode a)
      (focus_image_path a) (include_subdirs a) (tag_list a) (gallery a).

Definition set_filter_active (v : bool) (a : app) : app :=
  App (images a) (captions a) (tag_frequency a) (selected_images a)
      (all_tags a) (filtered_images a) v (filter_mode a)
      (focus_image_path a) (include_subdirs a) (tag_list a) (gallery a).

Definition set_filter_mode (v : string) (a : app) : app :=
  App (images a) (captions a) (tag_frequency a) (selected_images a)
      (all_tags a) (filtered_images a) (filter_active a) v
      (focus_image_path a) (include_subdirs a) (tag_list a) (gallery a).

Definition set_focus_image_path (v : option string) (a : app) : app :=
  App (images a) (captions a) (tag_frequency a) (selected_images a)
      (all_tags a) (filtered_images a) (filter_active a) (filter_mode a)
      v (include_subdirs a) (tag_list a) (gallery a).

Definition set_include_subdirs (v : bool) (a : app) : app :=
  App (images a) (captions a) (tag_frequency a) (selected_images a)
      (all_tags a) (filtered_images a) (filter_active a) (filter_mode a)
      (focus_image_path a) v (tag_list a) (gallery a).

Definition set_tag_list (v : list string) (a : app) : app :=
  App (images a) (captions a) (tag_frequency a) (selected_images a)
      (all_tags a) (filtered_images a) (filter_active a) (filter_mode a)
      (focus_image_path a) (include_subdirs a) v (gallery a).

Definition set_gallery (v : list string) (a : app) : app :=
  App (images a) (captions a) (tag_frequency a) (selected_images a)
      (all_tags a) (filtered_images a) (filter_active a) (filter_mode a)
      (focus_image_path a) (include_subdirs a) (tag_list a) v.

(** *** Python containers *)

(** [d.get(k, [])] *)
Definition get_tags (c : gmap string (list string)) (k : string) : list string :=
  default [] (c !! k).

(** [x in l] *)
Definition mem (x : string) (l : list string) : bool := bool_decide (x ∈ l).

(** [l.remove(x)]: the first occurrence goes (the callers test [x in l]
    first, so the [ValueError] of an absent [x] is not modelled). *)
Fixpoint list_remove (x : string) (l : list string) : list string :=
  match l with
  | [] => []
  | y :: l' => if decide (y = x) then l' else y :: list_remove x l'
  end.

(** Reading [d[k]] from a [defaultdict(int)]: a missing key is inserted
    with 0. *)
Definition dd_get (m : gmap string Z) (k : string) : Z * gmap string Z :=
  match m !! k with
  | Some v => (v, m)
  | None => (0, <[k := 0]> m)
  end.

(** [d[k] += 1] *)
Definition dd_incr (m : gmap string Z) (k : string) : gmap string Z :=
  let '(v, m') := dd_get m k in <[k := v + 1]> m'.

(** [sorted(s)] for a set of strings.  The result does not depend on the
    order in which the set is iterated. *)
Definition sorted_set (s : gset string) : list string :=
  merge_sort String.le (elements s).

(** *** Caption files *)

(** [os.path.splitext(image_path)[0] + ".txt"] *)
Definition caption_path (image_path : string) : string :=
  (OsPath.splitext image_path).1 +:+ ".txt".

(** The comprehension of line 869:
    [[tag.strip() for tag in text.split(",") if tag.strip()]] *)
Definition parse_tags (text : string) : list string :=
  omap (λ tag, let t := PyStr.strip tag in
               if bool_decide (t = "") then None else Some t)
       (PyStr.split "," text).

(** [save_caption_file] (lines 1074-1083): a failed write is reported on
    stderr and changes nothing. *)
Definition save_caption_file (image_path : string) (a : app)
    (d : Disk.disk) : Disk.disk :=
  let tags := get_tags (captions a) image_path in
  default d (Disk.write d (caption_path image_path) (PyStr.join ", " tags)).

(** *** The tag list and the focus window *)

(** The text of a tag-list item, [f"{tag} ({freq})"]. *)
Definition item_text (tag : string) (freq : Z) : string :=
  tag +:+ " (" +:+ pretty freq +:+ ")".

(** [item.text().rsplit(" (", 1)[0]] (lines 669-670, 693-694). *)
Definition item_tag (text : string) : string :=
  match PyStr.rsplit1 " (" text with
  | Some (tag, _) => tag
  | None => text
  end.

(** [update_tag_list] (lines 1040-1045).  The frequency is read with
    [self.tag_frequency[tag]], which inserts a missing tag. *)
Definition update_tag_list (a : app) : app :=
  let '(items, freq) :=
    foldl (λ '(items, freq) tag,
             let '(v, freq') := dd_get freq tag in
             (items ++ [item_text tag v], freq'))
          ([], tag_frequency a) (sorted_set (all_tags a)) in
  set_tag_list items (set_tag_frequency freq a).

(** [populate_gallery] (lines 897-941): the thumbnails are replaced and
    the tag list rebuilt. *)
Definition populate_gallery (imgs : list string) (a : app) : app :=
  set_gallery imgs (update_tag_list a).

(** [update_gallery] (lines 943-948) *)
Definition update_gallery (a : app) : app :=
  if filter_active a then populate_gallery (filtered_images a) a
  else populate_gallery (images a) a.

(** [update_focus_window] (lines 541-575), as far as the data goes. *)
Definition update_focus_window (image_path : string) (a : app) : app :=
  set_focus_image_path (Some image_path) a.

(** *** Handlers that iterate over a set *)

Section Handlers.

(** The order in which Python iterates over a set. *)
Variable set_iter : gset string → list string.

(** [update_focus_window(next(iter(self.selected_images)))] *)
Definition focus_first_selected (a : app) : app :=
  match set_iter (selected_images a) with
  | image_path :: _ => update_focus_window image_path a
  | [] => a
  end.

(** The body of the loop of [add_tag_to_selected] (lines 1010-1015). *)
Definition add_tag_step (new_tag : string) (w : app * Disk.disk)
    (image_path : string) : app * Disk.disk :=
  let '(a, d) := w in
  if mem new_tag (get_tags (captions a) image_path) then (a, d)
  else
    let a1 := set_captions
                (<[image_path := get_tags (captions a) image_path ++ [new_tag]]>
                   (captions a)) a in
    let a2 := set_tag_frequency (dd_incr (tag_frequency a1) new_tag) a1 in
    let a3 := set_all_tags ({[new_tag]} ∪ all_tags a2) a2 in
    (a3, save_caption_file image_path a3 d).

(** [add_tag_to_selected] (lines 1005-1019); [text] is what the input
    field holds. *)
Definition add_tag_to_selected (text : string) (a : app) (d : Disk.disk)
    : app * Disk.disk :=
  let new_tag := PyStr.strip text in
  if bool_decide (new_tag ≠ "") && bool_decide (selected_images a ≠ ∅) then
    let '(a', d') :=
      foldl (add_tag_step new_tag) (a, d) (set_iter (selected_images a)) in
    (update_tag_list (focus_first_selected a'), d')
  else (a, d).

(** The frequency update of lines 1028-1032. *)
Definition forget_tag (tag : string) (a : app) : app :=
  let '(v, freq) := dd_get (tag_frequency a) tag in
  if bool_decide (0 < v) then
    let freq1 := <[tag := v - 1]> freq in
    if bool_decide (v - 1 = 0) then
      set_all_tags (all_tags a ∖ {[tag]})
        (set_tag_frequency (delete tag freq1) a)
    else set_tag_frequency freq1 a
  else set_tag_frequency freq a.

(** The body of the loop of [remove_tag_from_selected] (lines 1026-1034). *)
Definition remove_tag_step (tag_to_remove : string) (w : app * Disk.disk)
    (image_path : string) : app * Disk.disk :=
  let '(a, d) := w in
  if mem tag_to_remove (get_tags (captions a) image_path) then
    let a1 := set_captions
                (<[image_path :=
                     list_remove tag_to_remove
                       (get_tags (captions a) image_path)]> (captions a)) a in
    let a2 := forget_tag tag_to_remove a1 in
    (a2, save_caption_file image_path a2 d)
  else (a, d).

(** [remove_tag_from_selected] (lines 1021-1038) *)
Definition remove_tag_from_selected (text : string) (a : app)
    (d : Disk.disk) : app * Disk.disk :=
  let tag_to_remove := PyStr.strip text in
  if bool_decide (tag_to_remove ≠ "") && bool_decide (selected_images a ≠ ∅)
  then
    let '(a', d') :=
      foldl (remove_tag_step tag_to_remove) (a, d)
            (set_iter (selected_images a)) in
    (update_tag_list (focus_first_selected a'), d')
  else (a, d).

(** [f"{root}_{i}{ext}"] *)
Definition numbered (root ext : string) (i : nat) : string :=
  root +:+ "_" +:+ pretty i +:+ ext.

(** The renaming loop of lines 728-732 and 778-782: the first [i], from
    the given one on, for which [numbered root ext i] is free in
    [dest_dir].  The loop tests at most [fuel] names; [dest_image_path]
    allows it one test per file on the disk, which is as many as it can
    need (see [free_name_spec]). *)
Fixpoint free_name (d : Disk.disk) (dest_dir root ext : string)
    (fuel i : nat) : string :=
  let new_name := numbered root ext i in
  match fuel with
  | O => new_name
  | S fuel' =>
      if Disk.exists_ d (OsPath.join dest_dir new_name)
      then free_name d dest_dir root ext fuel' (S i)
      else new_name
  end.

(** Lines 723-733 and 774-783: where the image goes. *)
Definition dest_image_path (d : Disk.disk) (dest_dir image_path : string)
    : string :=
  let base_name := OsPath.basename image_path in
  let dest := OsPath.join dest_dir base_name in
  if Disk.exists_ d dest then
    let '(root, ext) := OsPath.splitext base_name in
    OsPath.join dest_dir
      (free_name d dest_dir root ext (size (Disk.files d)) 1)
  else dest.

(** Lines 746-747 and 796-797: where its caption goes. *)
Definition dest_caption_path (dest_dir dest_image : string) : string :=
  let dest_base_root := (OsPath.splitext (OsPath.basename dest_image)).1 in
  OsPath.join dest_dir (dest_base_root +:+ ".txt").

(** The body of the loop of [copy_selection] (lines 723-755). *)
Definition copy_step (dest_dir : string) (d : Disk.disk)
    (image_path : string) : Disk.disk :=
  let dest := dest_image_path d dest_dir image_path in
  match Disk.copy2 d image_path dest with
  | None => d
  | Some d1 =>
      let caption_src := caption_path image_path in
      if Disk.exists_ d1 caption_src then
        default d1
          (Disk.copy2 d1 caption_src (dest_caption_path dest_dir dest))
      else d1
  end.

(** [copy_selection] (lines 712-760); [dest_dir] is what the directory
    dialog returns, the empty string when it is cancelled. *)
Definition copy_selection (dest_dir : string) (a : app) (d : Disk.disk)
    : app * Disk.disk :=
  if bool_decide (selected_images a = ∅) then (a, d)
  else if bool_decide (dest_dir = "") then (a, d)
  else (a, foldl (copy_step dest_dir) d (set_iter (selected_images a))).

(** The body of the first loop of [move_selection] (lines 774-806); the
    second component is [images_to_remove]. *)
Definition move_step (dest_dir : string) (w : Disk.disk * list string)
    (image_path : string) : Disk.disk * list string :=
  let '(d, images_to_remove) := w in
  let dest := dest_image_path d dest_dir image_path in
  match Disk.move d image_path dest with
  | None => (d, images_to_remove)
  | Some d1 =>
      let caption_src := caption_path image_path in
      let d2 :=
        if Disk.exists_ d1 caption_src then
          default d1
            (Disk.move d1 caption_src (dest_caption_path dest_dir dest))
        else d1 in
      (d2, images_to_remove ++ [image_path])
  end.

(** Lines 815-818: one occurrence of [tag] leaves the frequencies. *)
Definition dd_forget (freq : gmap string Z) (tag : string) : gmap string Z :=
  let '(v, freq0) := dd_get freq tag in
  if bool_decide (0 < v) then
    let freq1 := <[tag := v - 1]> freq0 in
    if bool_decide (v - 1 = 0) then delete tag freq1 else freq1
  else freq0.

(** The body of the second loop of [move_selection] (lines 809-818). *)
Definition drop_image (a : app) (image_path : string) : app :=
  let a1 := if mem image_path (images a)
            then set_images (list_remove image_path (images a)) a
            else a in
  match captions a1 !! image_path with
  | Some tags =>
      let a2 := set_captions (delete image_path (captions a1)) a1 in
      set_tag_frequency (foldl dd_forget (tag_frequency a2) tags) a2
  | None => a1
  end.

(** [images_to_remove] at the end of the first loop of [move_selection]:
    the selected images whose file was moved. *)
Definition images_moved (dest_dir : string) (a : app) (d : Disk.disk)
    : list string :=
  (foldl (move_step dest_dir) (d, []) (set_iter (selected_images a))).2.

(** [move_selection] (lines 762-833) *)
Definition move_selection (dest_dir : string) (a : app) (d : Disk.disk)
    : app * Disk.disk :=
  if bool_decide (selected_images a = ∅) then (a, d)
  else if bool_decide (dest_dir = "") then (a, d)
  else
    let '(d', images_to_remove) :=
      foldl (move_step dest_dir) (d, []) (set_iter (selected_images a)) in
    let a1 := foldl drop_image a images_to_remove in
    let a2 := set_all_tags (dom (tag_frequency a1)) a1 in
    let a3 := update_tag_list (set_selected_images ∅ a2) in
    let a4 := set_filtered_images [] (set_filter_active false a3) in
    (populate_gallery (images a4) a4, d').

End Handlers.

(** *** Selection *)

(** [image_clicked] (lines 958-967) *)
Definition image_clicked (image_path : string) (a : app) : app :=
  let a1 := if bool_decide (image_path ∈ selected_images a)
            then set_selected_images (selected_images a ∖ {[image_path]}) a
            else set_selected_images ({[image_path]} ∪ selected_images a) a in
  update_focus_window image_path a1.

(** The sequence the gallery displays: [self.filtered_images] while a
    filter is active, [self.images] otherwise. *)
Definition active_view (a : app) : list string :=
  if filter_active a then filtered_images a else images a.

(** [select_all_images] (lines 973-980) *)
Definition select_all_images (a : app) : app :=
  update_gallery (set_selected_images (list_to_set (active_view a)) a).

(** [deselect_all_images] (lines 982-986) *)
Definition deselect_all_images (a : app) : app :=
  update_gallery (set_selected_images ∅ a).

(** [s.symmetric_difference(t)] *)
Definition symmetric_difference (s t : gset string) : gset string :=
  (s ∖ t) ∪ (t ∖ s).

(** [invert_selection] (lines 988-996) *)
Definition invert_selection (a : app) : app :=
  let current_set : gset string := list_to_set (active_view a) in
  update_gallery
    (set_selected_images
       (symmetric_difference current_set (selected_images a)) a).

(** *** Filtering *)

(** [toggle_filter_mode] (lines 653-660) *)
Definition toggle_filter_mode (checked : bool) (a : app) : app :=
  if checked then set_filter_mode "Exclusive" a
  else set_filter_mode "Inclusive" a.

(** [any(tag in image_tags for tag in selected_tags)] *)
Definition any_tag_in (selected_tags image_tags : list string) : bool :=
  existsb (λ tag, mem tag image_tags) selected_tags.

(** [all(tag in image_tags for tag in selected_tags)] *)
Definition all_tags_in (selected_tags image_tags : list string) : bool :=
  forallb (λ tag, mem tag image_tags) selected_tags.

(** The test of lines 675-682 for one image. *)
Definition filter_keeps (mode : string) (selected_tags image_tags : list string)
    : bool :=
  if bool_decide (mode = "Inclusive") then any_tag_in selected_tags image_tags
  else all_tags_in selected_tags image_tags.

(** [filter_images] (lines 662-684); [selected_items] are the texts of the
    items selected in the tag list. *)
Definition filter_images (selected_items : list string) (a : app) : app :=
  match selected_items with
  | [] => a
  | _ =>
      let selected_tags := item_tag <$> selected_items in
      let result :=
        foldl (λ acc image_path,
                 let image_tags := get_tags (captions a) image_path in
                 if filter_keeps (filter_mode a) selected_tags image_tags
                 then acc ++ [image_path] else acc)
              [] (images a) in
      let a1 := set_filter_active true (set_filtered_images result a) in
      populate_gallery (filtered_images a1) a1
  end.

(** [ignore_tags] (lines 686-702) *)
Definition ignore_tags (selected_items : list string) (a : app) : app :=
  match selected_items with
  | [] => a
  | _ =>
      let selected_tags := item_tag <$> selected_items in
      let result :=
        foldl (λ acc image_path,
                 let image_tags := get_tags (captions a) image_path in
                 if negb (any_tag_in selected_tags image_tags)
                 then acc ++ [image_path] else acc)
              [] (images a) in
      let a1 := set_filter_active true (set_filtered_images result a) in
      populate_gallery (filtered_images a1) a1
  end.

(** [clear_filter] (lines 704-708) *)
Definition clear_filter (a : app) : app :=
  let a1 := set_filtered_images [] (set_filter_active false a) in
  populate_gallery (images a1) a1.

(** *** Sorting the tags of the focused image *)

(** The order of Python on the pairs [(number, string)] that serve as
    sort keys. *)
Definition key_le (k1 k2 : Z * string) : Prop :=
  k1.1 < k2.1 ∨ (k1.1 = k2.1 ∧ String.le k1.2 k2.2).

#[global] Instance key_le_dec : RelDecision key_le.
Proof. intros k1 k2. unfold key_le. apply _. Defined.

(** [sorted(l, key=key)] *)
Definition sorted_by (key : string → Z * string) (l : list string)
    : list string :=
  merge_sort (λ t1 t2, key_le (key t1) (key t2)) l.

(** [lambda t: (-self.tag_frequency.get(t, 0), t)] *)
Definition key_high (freq : gmap string Z) (t : string) : Z * string :=
  (- default 0 (freq !! t), t).

(** [lambda t: (self.tag_frequency.get(t, 0), t)] *)
Definition key_low (freq : gmap string Z) (t : string) : Z * string :=
  (default 0 (freq !! t), t).

(** The common shape of [sort_tags_high] and [sort_tags_low]. *)
Definition sort_tags (key : gmap string Z → string → Z * string) (a : app)
    (d : Disk.disk) : app * Disk.disk :=
  match focus_image_path a with
  | Some p =>
      if bool_decide (p ≠ "") && bool_decide (is_Some (captions a !! p)) then
        let tags := get_tags (captions a) p in
        let sorted_tags := sorted_by (key (tag_frequency a)) tags in
        let a1 := set_captions (<[p := sorted_tags]> (captions a)) a in
        (update_focus_window p a1, save_caption_file p a1 d)
      else (a, d)
  | None => (a, d)
  end.

(** [sort_tags_high] (lines 579-586) *)
Definition sort_tags_high : app → Disk.disk → app * Disk.disk :=
  sort_tags key_high.

(** [sort_tags_low] (lines 588-595) *)
Definition sort_tags_low : app → Disk.disk → app * Disk.disk :=
  sort_tags key_low.

(** *** Loading a directory *)

(** [image_extensions] (line 859) *)
Definition image_extensions : list string :=
  [".png"; ".jpg"; ".jpeg"; ".bmp"; ".gif"].

(** [file.lower().endswith(image_extensions)] (line 863) *)
Definition is_image (file : string) : bool :=
  existsb (λ ext, PyStr.endswith ext (PyStr.lower file)) image_extensions.

(** [load_images] (lines 844-855), up to the start of the worker. *)
Definition load_images (a : app) : app :=
  set_tag_frequency ∅
    (set_all_tags ∅
       (set_selected_images ∅ (set_captions ∅ (set_images [] a)))).

(** Lines 871-873: every tag of a caption file is counted. *)
Definition count_tag (a : app) (tag : string) : app :=
  set_tag_frequency (dd_incr (tag_frequency a) tag)
    (set_all_tags ({[tag]} ∪ all_tags a) a).

(** [os.path.exists(p)] for a path of the directory [root] that the
    walk is at: a file that the disk can read exists, and so does what
    the directory lists under that name, be it a sub-directory or a file
    that cannot be read.  (A link that leads nowhere is listed as well
    and does not exist; it is taken for a file that cannot be read.) *)
Definition exists_beside (d : Disk.disk) (root : string)
    (dirs files : list string) (p : string) : bool :=
  Disk.exists_ d p || bool_decide (p ∈ OsPath.join root <$> (dirs ++ files)).

(** How far a run of [load_images_thread] has come: it is in its loops,
    with the state and [loaded_images], or an [open] has raised and the
    state is left as it was then. *)
Inductive load_state :=
  | Loaded (a : app) (loaded_images : list string)
  | Failed (a : app).

(** Lines 863-875 for one file of the directory [root], whose listing is
    [dirs] and [files]. *)
Definition load_file (d : Disk.disk) (root : string)
    (dirs files : list string) (w : load_state) (file : string)
    : load_state :=
  match w with
  | Failed a => Failed a
  | Loaded a loaded_images =>
      if is_image file then
        let image_path := OsPath.join root file in
        let loaded_images := loaded_images ++ [image_path] in
        let caption := caption_path image_path in
        if exists_beside d root dirs files caption then
          match Disk.read d caption with
          | Some text =>
              let tags := parse_tags text in
              let a1 := set_captions (<[image_path := tags]> (captions a)) a in
              Loaded (foldl count_tag a1 tags) loaded_images
          | None => Failed a
          end
        else
          Loaded (set_captions (<[image_path := []]> (captions a)) a)
                 loaded_images
      else w
  end.

(** [load_images_thread] (lines 857-877), run by a worker on what
    [os.walk(dir_path)] finds; the second component is the value it
    returns, [None] when it raises, and then [self.images] is not
    assigned. *)
Definition load_images_thread (dir_path : string) (t : Disk.tree)
    (d : Disk.disk) (a : app) : app * option (list string) :=
  match foldl (λ w '(root, dirs, files),
                 foldl (load_file d root dirs files) w files)
              (Loaded a []) (Disk.walk dir_path t) with
  | Loaded a' loaded_images => (set_images loaded_images a', Some loaded_images)
  | Failed a' => (a', None)
  end.

(** *** The user's actions and the worker pool *)

(** The handlers the user can trigger, each with what the user supplies. *)
Inductive action :=
  | ImageClicked (image_path : string)
  | SelectAll
  | DeselectAll
  | InvertSelection
  | AddTag (text : string)
  | RemoveTag (text : string)
  | ToggleFilterMode (checked : bool)
  | FilterImages (selected_items : list string)
  | IgnoreTags (selected_items : list string)
  | ClearFilter
  | SortTagsHigh
  | SortTagsLow
  | CopySelection (dest_dir : string)
  | MoveSelection (dest_dir : string)
  | SetIncludeSubdirs (checked : bool).

Section Sessions.

Variable set_iter : gset string → list string.

(** One action, run to completion on the thread that owns the state. *)
Definition perform (act : action) (w : app * Disk.disk) : app * Disk.disk :=
  let '(a, d) := w in
  match act with
  | ImageClicked image_path => (image_clicked image_path a, d)
  | SelectAll => (select_all_images a, d)
  | DeselectAll => (deselect_all_images a, d)
  | InvertSelection => (invert_selection a, d)
  | AddTag text => add_tag_to_selected set_iter text a d
  | RemoveTag text => remove_tag_from_selected set_iter text a d
  | ToggleFilterMode checked => (toggle_filter_mode checked a, d)
  | FilterImages selected_items => (filter_images selected_items a, d)
  | IgnoreTags selected_items => (ignore_tags selected_items a, d)
  | ClearFilter => (clear_filter a, d)
  | SortTagsHigh => sort_tags_high a d
  | SortTagsLow => sort_tags_low a d
  | CopySelection dest_dir => copy_selection set_iter dest_dir a d
  | MoveSelection dest_dir => move_selection set_iter dest_dir a d
  | SetIncludeSubdirs checked => (set_include_subdirs checked a, d)
  end.

(** A sequence of actions. *)
Definition perform_all (acts : list action) (w : app * Disk.disk)
    : app * Disk.disk :=
  foldl (λ w act, perform act w) w acts.

(** A result on its way to [populate_gallery].  The list that a worker
    emits is the list that it has stored in [self.images], not a copy:
    as long as [self.images] is not assigned again, what [move_selection]
    removes from the one is gone from the other. *)
Inductive result :=
  | SelfImages
  | Detached (loaded_images : list string).

(** [self.images] is assigned: a result that was the same list keeps the
    old one. *)
Definition detach (imgs : list string) (r : result) : result :=
  match r with
  | SelfImages => Detached imgs
  | Detached loaded_images => r
  end.

(** The list that a result holds. *)
Definition delivered (a : app) (r : result) : list string :=
  match r with
  | SelfImages => images a
  | Detached loaded_images => loaded_images
  end.

(** The application with its thread pool: the state and the disk, the
    workers that [load_images] has started and that have not run yet
    (each with its [dir_path]), and the results that finished workers have
    emitted and that [populate_gallery] has not received yet. *)
Record session := Session {
  state : app;
  disk : Disk.disk;
  workers : list string;
  results : list result;
}.

(** What can happen next.  A worker is run in one step, from the call of
    [load_images_thread] to the emission of its result, or of the error
    that nothing is connected to (lines 83-92). *)
Inductive event :=
  | User (act : action)
  | OpenDirectory (dir_path : string)
  | WorkerRuns (i : nat) (found : Disk.tree)
  | ResultArrives.

Definition handle (e : event) (s : session) : session :=
  match e with
  | User act =>
      let '(a, d) := perform act (state s, disk s) in
      Session a d (workers s) (results s)
  | OpenDirectory dir_path =>
      Session (load_images (state s)) (disk s)
              (workers s ++ [dir_path])
              (detach (images (state s)) <$> results s)
  | WorkerRuns i found =>
      match workers s !! i with
      | Some dir_path =>
          match load_images_thread dir_path found (disk s) (state s) with
          | (a, Some loaded_images) =>
              Session a (disk s) (delete i (workers s))
                      ((detach (images (state s)) <$> results s)
                       ++ [SelfImages])
          | (a, None) =>
              Session a (disk s) (delete i (workers s)) (results s)
          end
      | None => s
      end
  | ResultArrives =>
      match results s with
      | r :: rest =>
          Session (populate_gallery (delivered (state s) r) (state s))
                  (disk s) (workers s) rest
      | [] => s
      end
  end.

Definition run (es : list event) (s : session) : session :=
  foldl (λ s e, handle e s) s es.

End Sessions.

(** The application when its window opens. *)
Definition start (d : Disk.disk) : session := Session init d [] [].

(** *** What the properties speak of *)

(** A tag that survives a round trip through a caption file: a text
    (its bytes are the UTF-8 encoding of a [str]), trimmed, not empty, and
    free of commas and of carriage returns. *)
Definition clean_tag (t : string) : Prop :=
  PyStr.decode t = t ∧ PyStr.strip t = t ∧ t ≠ ""
  ∧ PyStr.has_char "," t = false ∧ PyStr.has_char "013" t = false.

(** How often [tag] occurs in one caption. *)
Definition tag_count (tag : string) (tags : list string) : nat :=
  length (filter (λ t, t = tag) tags).

(** The occurrences of [tag] in all captions together. *)
Definition occurrences (tag : string) (c : gmap string (list string)) : nat :=
  map_fold (λ _ tags n, tag_count tag tags + n)%nat 0%nat c.

(** The number of images whose caption contains [tag]. *)
Definition images_with (tag : string) (c : gmap string (list string)) : nat :=
  size (filter (λ kv, tag ∈ kv.2) c).

(** No caption lists a tag twice. *)
Definition captions_nodup (c : gmap string (list string)) : Prop :=
  ∀ image_path tags, c !! image_path = Some tags → NoDup tags.

(** The image files a walk over [t], rooted at [dir_path], comes across,
    in the order of the walk. *)
Definition scan_images (dir_path : string) (t : Disk.tree) : list string :=
  '(root, _, files) ← Disk.walk dir_path t;
  OsPath.join root <$> filter (λ file, is_image file = true) files.

(** The caption that a load reads for an image: the tags of its caption
    file, none when there is no such file. *)
Definition read_caption (d : Disk.disk) (image_path : string) : list string :=
  match Disk.read d (caption_path image_path) with
  | Some text => parse_tags text
  | None => []
  end.

(** The caption path beside the image [file] of the directory [root]
    can be opened if it exists: it is a file that the disk can read, not
    a directory and not a file that refuses to be read. *)
Definition caption_opens (d : Disk.disk) (root : string)
    (dirs files : list string) (file : string) : Prop :=
  is_image file = true →
  exists_beside d root dirs files (caption_path (OsPath.join root file)) = true →
  Disk.exists_ d (caption_path (OsPath.join root file)) = true.

#[global] Instance caption_opens_dec d root dirs files file :
  Decision (caption_opens d root dirs files file).
Proof. unfold caption_opens. apply _. Defined.

(** The same for all the images that a walk comes across. *)
Definition captions_open (d : Disk.disk) (dir_path : string) (t : Disk.tree)
    : Prop :=
  Forall (λ '(root, dirs, files), Forall (caption_opens d root dirs files) files)
         (Disk.walk dir_path t).

#[global] Instance captions_open_dec d dir_path t :
  Decision (captions_open d dir_path t).
Proof.
  unfold captions_open. apply Forall_dec. intros [[root dirs] files]. apply _.
Defined.


(** What a load does to the state for one image file. *)
Definition load_one (d : Disk.disk) (a : app) (image_path : string) : app :=
  foldl count_tag
        (set_captions (<[image_path := read_caption d image_path]> (captions a)) a)
        (read_caption d image_path).

(** What the gallery shows and what decides it. *)
Definition view (a : app) : bool * list string * list string * list string :=
  (filter_active a, filtered_images a, images a, gallery a).

(** The actions that compute the filtered view anew or drop it. *)
Definition sets_filter (act : action) : Prop :=
  match act with
  | FilterImages _ | IgnoreTags _ | ClearFilter | MoveSelection _ => True
  | _ => False
  end.

#[global] Instance sets_filter_dec act : Decision (sets_filter act).
Proof. destruct act; apply _. Defined.

(** An event that is none of them. *)
Definition leaves_filter (e : event) : Prop :=
  match e with
  | User act => ¬ sets_filter act
  | _ => True
  end.

#[global] Instance leaves_filter_dec e : Decision (leaves_filter e).
Proof. destruct e; apply _. Defined.

(** The frequencies agree with the captions: a tag that occurs [n > 0]
    times has frequency [n], and a tag that does not occur has no entry. *)
Definition freq_agrees (a : app) : Prop :=
  ∀ tag, tag_frequency a !! tag =
         if decide (occurrences tag (captions a) = 0%nat) then None
         else Some (Z.of_nat (occurrences tag (captions a))).

(** The tag index agrees with the captions: the frequencies do, and
    [all_tags] is the set of their keys. *)
Definition index_agrees (a : app) : Prop :=
  freq_agrees a ∧ all_tags a = dom (tag_frequency a).

End DatCure.

(** ** Sample disks and states *)

Module Samples.
Import DatCure.

(** The order in which the samples iterate over a set. *)
Definition iter : gset string → list string := elements.

(** One image, selected, and no caption file yet. *)
Definition disk_one : Disk.disk :=
  Disk.Mk (list_to_map [("/d/x.png", "PNG")]) ∅.

Definition tree_one : Disk.tree := Disk.Dir ["x.png"] [].

Definition loaded_one : session :=
  run iter [OpenDirectory "/d"; WorkerRuns 0 tree_one; ResultArrives;
            User (ImageClicked "/d/x.png")]
      (start disk_one).


Definition tree_nested : Disk.tree :=
  Disk.Dir ["b.png"; "a.png"] [("sub", Disk.Dir ["c.png"] [])].


Definition tree_a : Disk.tree := Disk.Dir ["1.png"; "1.txt"] [].

(** An image whose caption file lists a tag twice. *)
Definition disk_dup : Disk.disk :=
  Disk.Mk (list_to_map [("/d/x.png", "PNG"); ("/d/x.txt", "a, a")]) ∅.

Definition tree_dup : Disk.tree := Disk.Dir ["x.png"; "x.txt"] [].

(** Two images, one with a caption file. *)
Definition disk_pets : Disk.disk :=
  Disk.Mk (list_to_map [("/d/x.png", "X"); ("/d/x.txt", "cat, dog");
                        ("/d/y.png", "Y")]) ∅.

Definition tree_pets : Disk.tree := Disk.Dir ["x.png"; "x.txt"; "y.png"] [].

Definition loaded_pets : app :=
  (load_images_thread "/d" tree_pets disk_pets (load_images init)).1.

(** One image with two tags, each carried once. *)
Definition disk_tie : Disk.disk :=
  Disk.Mk (list_to_map [("/d/x.png", "X"); ("/d/x.txt", "b, a")]) ∅.

Definition tree_tie : Disk.tree := Disk.Dir ["x.png"; "x.txt"] [].

Definition focused_tie : session :=
  run iter [OpenDirectory "/d"; WorkerRuns 0 tree_tie; ResultArrives;
            User (ImageClicked "/d/x.png")]
      (start disk_tie).


(** The catalog of [disk_pets] after [y.png] has been deleted behind the
    back of the application; both images are selected. *)
Definition disk_gone : Disk.disk :=
  Disk.Mk (list_to_map [("/d/x.png", "X"); ("/d/x.txt", "cat, dog")]) ∅.

Definition selected_pets : app :=
  select_all_images (populate_gallery (images loaded_pets) loaded_pets).

End Samples.

(** ** The widgets around the catalog

    The handlers of [DatCureApp] that do not touch the captions: the
    keyboard navigation of the focus window, the rows of the gallery with
    the "<" and ">" buttons, and the folder tree. *)

Module Widgets.
Import DatCure.

(** *** Keyboard navigation in the focus window *)

(** [l.index(x)]: the first position of [x]; [None] stands for the
    [ValueError] of an absent [x]. *)
Fixpoint index (x : string) (l : list string) : option nat :=
  match l with
  | [] => None
  | y :: l' => if decide (y = x) then Some 0%nat else S <$> index x l'
  end.

(** [l[i]] for a Python integer: a negative [i] counts from the end;
    [None] stands for the [IndexError]. *)
Definition getitem (l : list string) (i : Z) : option string :=
  if bool_decide (0 ≤ i) then l !! Z.to_nat i
  else if bool_decide (- Z.of_nat (length l) ≤ i)
       then l !! Z.to_nat (Z.of_nat (length l) + i)
       else None.

(** Lines 1060-1062: the selection in sorted order when there is one, the
    catalog otherwise. *)
Definition nav_list (a : app) : list string :=
  if bool_decide (selected_images a ≠ ∅) then sorted_set (selected_images a)
  else images a.

(** [navigate_focus_image] (lines 1058-1070).  [index] fails when nothing
    is focused or the focused image is not in the list.  The last [None]
    would be an [IndexError]; the index is always in range, so it does
    not occur. *)
Definition navigate_focus_image (direction : Z) (a : app) : app :=
  let nav_list := nav_list a in
  match nav_list with
  | [] => a
  | _ =>
      let next_index :=
        match focus_image_path a ≫= λ p, index p nav_list with
        | Some current_index =>
            (Z.of_nat current_index + direction) `mod` Z.of_nat (length nav_list)
        | None => if bool_decide (0 ≤ direction) then 0 else -1
        end in
      match getitem nav_list next_index with
      | Some image_path => update_focus_window image_path a
      | None => a
      end
  end.

(** The keys that [keyPressEvent] tells apart. *)
Inductive key := Key_Left | Key_Right | Key_Other.

(** [keyPressEvent] (lines 1049-1056) *)
Definition keyPressEvent (k : key) (a : app) : app :=
  match k with
  | Key_Left => navigate_focus_image (-1) a
  | Key_Right => navigate_focus_image 1 a
  | Key_Other => a
  end.

(** *** The rows of the gallery *)

(** The body of the loop of [populate_gallery] (lines 915-939), as far as
    the layout goes: the thumbnail joins the current row, and the row is
    closed when the count of thumbnails is a multiple of
    [images_per_row].  The state is the rows added to the scroll area so
    far, the current [row_layout], and [idx]. *)
Definition add_thumbnail (images_per_row : Z)
    (w : list (list string) * list string * nat) (image_path : string)
    : list (list string) * list string * nat :=
  let '(rows, row_layout, idx) := w in
  let row_layout := row_layout ++ [image_path] in
  if bool_decide ((Z.of_nat idx + 1) `mod` images_per_row = 0)
  then (rows ++ [row_layout], [], S idx)
  else (rows, row_layout, S idx).

(** The rows that [populate_gallery] (lines 897-941) lays out for
    [imgs]; [None] stands for the [ZeroDivisionError] of line 937. *)
Definition gallery_rows (images_per_row : Z) (imgs : list string)
    : option (list (list string)) :=
  match imgs with
  | [] => Some []
  | _ =>
      if bool_decide (images_per_row = 0) then None
      else
        let '(rows, row_layout, _) :=
          foldl (add_thumbnail images_per_row) ([], [], 0%nat) imgs in
        Some (if bool_decide (0 < length row_layout)%nat
              then rows ++ [row_layout] else rows)
  end.

(** The application state together with [self.images_per_row]. *)
Record window := Window {
  app_state : app;
  images_per_row : Z;
}.

(** [__init__] (line 136) *)
Definition init_window : window := Window init 5.

(** [change_images_per_row] (lines 950-956) *)
Definition change_images_per_row (delta : Z) (w : window) : window :=
  let new_value := images_per_row w + delta in
  if bool_decide (1 ≤ new_value)
  then Window (update_gallery (app_state w)) new_value
  else w.

(** What the window can go through: the "<" and ">" buttons, which call
    [change_images_per_row] with -1 and 1 (lines 227 and 229), and the
    actions on the catalog. *)
Inductive press :=
  | Fewer
  | More
  | Act (act : action).

Definition pressed (set_iter : gset string → list string) (p : press)
    (w : window) (d : Disk.disk) : window * Disk.disk :=
  match p with
  | Fewer => (change_images_per_row (-1) w, d)
  | More => (change_images_per_row 1 w, d)
  | Act act =>
      let '(a, d') := perform set_iter act (app_state w, d) in
      (Window a (images_per_row w), d')
  end.

(** *** The folder tree *)

(** An item of the folder tree: its text, its [Qt.UserRole] data (the
    path of the folder) and its children. *)
#[warnings="-register-all"]
Inductive folder_item :=
  FolderItem (text data : string) (children : list folder_item).

(** [add_folder_items] (lines 621-632): the children of the item of
    [parent_path], one for every entry of the sorted listing that is a
    directory, each with its own children.  [os.listdir] yields the names
    of the files and of the sub-directories; [os.path.isdir] holds of a
    sub-directory also when it is a link or cannot be listed; a link is
    listed as its target is; a directory that cannot be listed raises the
    [PermissionError] that the handler catches, and has no children. *)
Fixpoint add_folder_items (parent_path : string) (t : Disk.tree)
    : list folder_item :=
  match t with
  | Disk.Dir fnames subdirs =>
      let folders : gmap string folder_item :=
        list_to_map
          ((fix items (l : list (string * Disk.tree)) :=
              match l with
              | [] => []
              | (name, sub) :: l' =>
                  let item_path := OsPath.join parent_path name in
                  (name, FolderItem name item_path
                           (add_folder_items item_path sub))
                  :: items l'
              end) subdirs) in
      omap (λ item, folders !! item)
           (merge_sort String.le (fnames ++ subdirs.*1))
  | Disk.Link target => add_folder_items parent_path target
  | Disk.Denied => []
  end.

(** [populate_folder_tree] (lines 609-619): the top-level items of the
    tree for [self.image_dir], where [found] is what the disk holds below
    it. *)
Definition populate_folder_tree (image_dir : string) (found : Disk.tree)
    (a : app) : list folder_item :=
  if bool_decide (image_dir = "") then []
  else [FolderItem (OsPath.basename image_dir) image_dir
          (if include_subdirs a then add_folder_items image_dir found
           else [])].

(** The folders an item and its descendants stand for, the item first. *)
Fixpoint folder_paths (i : folder_item) : list string :=
  match i with
  | FolderItem _ data children =>
      data :: (fix paths (l : list folder_item) :=
                 match l with
                 | [] => []
                 | c :: l' => folder_paths c ++ paths l'
                 end) children
  end.

(** The texts of the children of every item are in ascending order. *)
Fixpoint children_sorted (i : folder_item) : Prop :=
  match i with
  | FolderItem _ _ children =>
      Sorted String.le
        ((λ c, match c with FolderItem text _ _ => text end) <$> children)
      ∧ (fix all (l : list folder_item) :=
           match l with
           | [] => True
           | c :: l' => children_sorted c ∧ all l'
           end) children
  end.

(** No directory under [t] lists a name twice. *)
Fixpoint listing_nodup (t : Disk.tree) : Prop :=
  match t with
  | Disk.Dir fnames subdirs =>
      NoDup (fnames ++ subdirs.*1)
      ∧ (fix all (l : list (string * Disk.tree)) :=
           match l with
           | [] => True
           | (_, sub) :: l' => listing_nodup sub ∧ all l'
           end) subdirs
  | Disk.Link target => listing_nodup target
  | Disk.Denied => True
  end.

(** Every directory under [t], and [t] itself, can be listed and is no
    link. *)
Fixpoint plain (t : Disk.tree) : Prop :=
  match t with
  | Disk.Dir fnames subdirs =>
      (fix all (l : list (string * Disk.tree)) :=
         match l with
         | [] => True
         | (_, sub) :: l' => plain sub ∧ all l'
         end) subdirs
  | Disk.Link target => False
  | Disk.Denied => False
  end.

End Widgets.

(** ** More sample states *)

Module MoreSamples.
Import DatCure.

(** The catalog of [Samples.disk_pets] in the gallery. *)
Definition shown_pets : app :=
  populate_gallery (images Samples.loaded_pets) Samples.loaded_pets.

(** The same after a click on [x.png], which selects and focuses it. *)
Definition clicked_pets : app := image_clicked "/d/x.png" shown_pets.

(** The same with [x.png] in the focus window and nothing selected. *)
Definition focused_pets : app := update_focus_window "/d/x.png" shown_pets.

(** The same with a filter on the tag [cat]. *)
Definition filtered_pets : session :=
  Session (filter_images ["cat (1)"] shown_pets) Samples.disk_pets [] [].

End MoreSamples.

(** ** What further properties speak of *)

Module Notions.
Import DatCure.

(** The thumbnails, the filtered images and the selection are all images
    of the catalog. *)
Definition within_catalog (a : app) : Prop :=
  (∀ p, p ∈ gallery a → p ∈ images a)
  ∧ (∀ p, p ∈ filtered_images a → p ∈ images a)
  ∧ (∀ p, p ∈ selected_images a → p ∈ images a).

(** Every click of [acts] is on a thumbnail that the gallery shows when
    the click is made. *)
Fixpoint clicks_on_gallery (set_iter : gset string → list string)
    (acts : list action) (w : app * Disk.disk) : Prop :=
  match acts with
  | [] => True
  | act :: acts' =>
      match act with
      | ImageClicked image_path => image_path ∈ gallery w.1
      | _ => True
      end
      ∧ clicks_on_gallery set_iter acts' (perform set_iter act w)
  end.

(** An event that is no action of the user: a directory is opened, a
    worker runs, or a result arrives. *)
Definition loading (e : event) : Prop :=
  match e with
  | User _ => False
  | _ => True
  end.

(** What stands beside the catalog: the filter, the focused image and
    the check box. *)
Definition beside_catalog (a : app)
    : list string * bool * string * option string * bool :=
  (filtered_images a, filter_active a, filter_mode a, focus_image_path a,
   include_subdirs a).

(** The tags that the caption files of the images [ps] hold, one for
    each time it is listed. *)
Definition listed (d : Disk.disk) (tag : string) (ps : list string) : nat :=
  sum_list_with (λ p, tag_count tag (read_caption d p)) ps.

End Notions.

(** * Properties *)

(** Closed decidable propositions are settled by evaluation. *)
Ltac by_evaluation := refine (bool_decide_unpack _ _); vm_compute; exact I.

Ltac refute_by_evaluation :=
  refine (bool_decide_unpack (¬ _) _); vm_compute; exact I.

(** ** The string and path primitives at work *)

Module PythonExamples.
Import PyStr OsPath.

Example strip_example : strip "  big dog  " = "big dog" ∧ strip "   " = "".
Proof. split; reflexivity. Qed.

Example strip_unicode_example :
  strip (String "194" (String "160" ("pet" +:+ String "226" (String "128"
           (String "131" "")))))
  = "pet"
  ∧ strip (String "227" (String "128" (String "128" ""))) = ""
  ∧ strip (String "195" (String "160" "")) = String "195" (String "160" "").
Proof. split_and!; reflexivity. Qed.

Example decode_example :
  decode ("a" +:+ String "255" ("b" +:+ String "195" (String "169" "")))
  = "ab" +:+ String "195" (String "169" "")
  ∧ decode ("a" +:+ String "226" (String "128" "b")) = "ab"
  ∧ decode ("a" +:+ String "226" (String "128" "")) = "a".
Proof. split_and!; reflexivity. Qed.

Example universal_newlines_example :
  universal_newlines ("a" +:+ String "013" (String "010" ("b" +:+
                        String "013" ("c" +:+ String "010" ""))))
  = "a" +:+ String "010" ("b" +:+ String "010" ("c" +:+ String "010" "")).
Proof. reflexivity. Qed.

Example split_example :
  split "," "a, b,,c" = ["a"; " b"; ""; "c"] ∧ split "," "" = [""].
Proof. split; reflexivity. Qed.

Example join_example :
  PyStr.join ", " ["a"; "b"; "c"] = "a, b, c" ∧ PyStr.join ", " [] = "".
Proof. split; reflexivity. Qed.

Example endswith_example :
  endswith ".png" (lower "Cat.PNG") = true ∧ endswith ".png" "png" = false
  ∧ endswith ".png" ".png" = true.
Proof. split_and!; reflexivity. Qed.

Example rsplit1_example :
  rsplit1 " (" "a (b (3)" = Some ("a (b", "3)") ∧ rsplit1 " (" "abc" = None.
Proof. split; reflexivity. Qed.

Example basename_example :
  basename "/a/b/c.png" = "c.png" ∧ basename "c.png" = "c.png"
  ∧ basename "/a/b/" = "".
Proof. split_and!; reflexivity. Qed.

Example splitext_example :
  splitext "/a/b.c/d" = ("/a/b.c/d", "") ∧ splitext ".bashrc" = (".bashrc", "")
  ∧ splitext "a.tar.gz" = ("a.tar", ".gz") ∧ splitext "..x.png" = ("..x", ".png")
  ∧ splitext "/x/cat.png" = ("/x/cat", ".png") ∧ splitext "a." = ("a", ".").
Proof. split_and!; reflexivity. Qed.

Example path_join_example :
  OsPath.join "/d" "cat.png" = "/d/cat.png" ∧ OsPath.join "/" "cat.png" = "/cat.png"
  ∧ OsPath.join "" "cat.png" = "cat.png" ∧ OsPath.join "/d" "/cat.png" = "/cat.png".
Proof. split_and!; reflexivity. Qed.

End PythonExamples.

(** ** Strings *)

Module StringFacts.
Import PyStr.

Lemma str_app_cons c (s t : string) : String c s +:+ t = String c (s +:+ t).
Proof. done. Qed.

Lemma str_app_nil_l (t : string) : "" +:+ t = t.
Proof. done. Qed.

Lemma has_char_app c s1 s2 : has_char c (s1 +:+ s2) = has_char c s1 || has_char c s2.
Proof.
  induction s1 as [|a s1 IH]; [done|].
  rewrite str_app_cons. simpl. rewrite IH. by rewrite orb_assoc.
Qed.

Lemma split_no_sep sep s : has_char sep s = false → split sep s = [s].
Proof.
  induction s as [|c s IH]; simpl; [done|].
  intros [Hc Hs]%orb_false_iff. apply bool_decide_eq_false in Hc.
  rewrite decide_False by done. by rewrite IH.
Qed.

Lemma split_app sep s1 s2 :
  has_char sep s1 = false →
  split sep (s1 +:+ String sep s2) = s1 :: split sep s2.
Proof.
  induction s1 as [|c s1 IH].
  - intros _. rewrite str_app_nil_l. simpl. by rewrite decide_True.
  - intros [Hc Hs]%orb_false_iff. apply bool_decide_eq_false in Hc.
    rewrite str_app_cons. simpl. rewrite decide_False by done. by rewrite IH.
Qed.

Lemma str_app_assoc (s1 s2 s3 : string) : (s1 +:+ s2) +:+ s3 = s1 +:+ (s2 +:+ s3).
Proof.
  induction s1 as [|c s1 IH]; [done|]. rewrite !str_app_cons. by rewrite IH.
Qed.

Lemma str_app_nil_r (s : string) : s +:+ "" = s.
Proof. induction s as [|c s IH]; [done|]. rewrite str_app_cons. by rewrite IH. Qed.

Lemma str_app_length (s1 s2 : string) :
  String.length (s1 +:+ s2) = (String.length s1 + String.length s2)%nat.
Proof.
  induction s1 as [|c s1 IH]; [done|]. rewrite str_app_cons. simpl. by rewrite IH.
Qed.


(** *** Numbers as text *)

Lemma pretty_N_go_no_char c x : ∀ s,
  ¬ digit c → has_char c s = false → has_char c (pretty_N_go x s) = false.
Proof.
  induction (N.lt_wf_0 x) as [x _ IH]; intros s Hc Hs.
  destruct (decide (x = 0)%N) as [->|Hx].
  - by rewrite pretty_N_go_0.
  - rewrite pretty_N_go_step by lia. apply IH; [apply N.div_lt; lia|done|].
    simpl. rewrite Hs, orb_false_r. apply bool_decide_eq_false.
    intros Heq. apply Hc. by eexists.
Qed.

Lemma pretty_N_no_char c (x : N) : ¬ digit c → has_char c (pretty x) = false.
Proof.
  intros Hc. unfold pretty, pretty_N. destruct (decide _).
  - simpl. rewrite orb_false_r. apply bool_decide_eq_false.
    intros Heq. apply Hc. by exists 0%N.
  - by apply pretty_N_go_no_char.
Qed.


Lemma not_digit c :
  (if Ascii.is_nat c is Some _ then False else True) → ¬ digit c.
Proof.
  intros Hc [n <-]. revert Hc. unfold pretty_N_char. by repeat case_match.
Qed.

Lemma blank_not_digit : ¬ digit " ".
Proof. by apply not_digit. Qed.



(** *** Splitting at the last occurrence of a character *)

Lemma substring_whole (s : string) : String.substring 0 (String.length s) s = s.
Proof. induction s as [|c s IH]; [done|]. simpl. by rewrite IH. Qed.

Lemma rsplit1_char_cons c b s :
  rsplit1 (String c "") (String b s)
  = match rsplit1 (String c "") s with
    | Some (r, e) => Some (String b r, e)
    | None => if bool_decide (c = b) then Some ("", s) else None
    end.
Proof.
  cbn [rsplit1]. destruct (rsplit1 _ s) as [[r e]|]; [done|].
  cbn. rewrite andb_true_r. destruct (bool_decide (c = b)); [|done].
  by rewrite Nat.sub_0_r, substring_whole.
Qed.

Lemma rsplit1_char_None c s :
  rsplit1 (String c "") s = None ↔ has_char c s = false.
Proof.
  induction s as [|b s IH]; [done|].
  rewrite rsplit1_char_cons. simpl. rewrite orb_false_iff, <- IH.
  destruct (rsplit1 _ s) as [[r e]|].
  - split; [done|]. by intros [_ ?].
  - destruct (decide (c = b)) as [->|Hne].
    + rewrite !bool_decide_eq_true_2 by done. split; [done|]. by intros [? _].
    + rewrite !bool_decide_eq_false_2 by congruence. done.
Qed.

Lemma rsplit1_char_Some c s r e :
  rsplit1 (String c "") s = Some (r, e) →
  s = r +:+ String c e ∧ has_char c e = false.
Proof.
  revert r. induction s as [|b s IH]; intros r; [done|].
  rewrite rsplit1_char_cons.
  destruct (rsplit1 _ s) as [[r' e']|] eqn:Hs.
  - intros [= <- <-]. destruct (IH r' eq_refl) as [-> He]. done.
  - destruct (bool_decide (c = b)) eqn:Hcb; [|done].
    apply bool_decide_eq_true in Hcb as ->. intros [= <- <-].
    split; [done|]. by apply rsplit1_char_None.
Qed.

Lemma rsplit1_char_intro c r e :
  has_char c e = false → rsplit1 (String c "") (r +:+ String c e) = Some (r, e).
Proof.
  intros He. induction r as [|b r IH].
  - rewrite str_app_nil_l, rsplit1_char_cons.
    rewrite (proj2 (rsplit1_char_None c e) He).
    by rewrite bool_decide_eq_true_2.
  - by rewrite str_app_cons, rsplit1_char_cons, IH.
Qed.

Lemma endswith_spec x s : endswith x s = true → ∃ pre, s = pre +:+ x.
Proof.
  induction s as [|b s IH]; simpl.
  - rewrite orb_false_r. intros ->%bool_decide_eq_true. by exists "".
  - intros [->%bool_decide_eq_true|Hs]%orb_true_iff; [by exists ""|].
    destruct (IH Hs) as [pre ->]. by exists (String b pre).
Qed.


(** *** Decoding and line ends *)

Lemma string_length_ind (P : string → Prop) :
  (∀ s, (∀ t, (String.length t < String.length s)%nat → P t) → P s) →
  ∀ s, P s.
Proof.
  intros Hstep s. remember (String.length s) as n eqn:Hn.
  revert s Hn. induction n as [n IH] using lt_wf_ind. intros s ->.
  apply Hstep. intros t Ht. by apply (IH (String.length t)).
Qed.

Ltac decode_cases :=
  repeat match goal with
         | |- context [if ?b then _ else _] => destruct b eqn:?
         | |- context [match ?s with "" => _ | String _ _ => _ end] =>
             is_var s; destruct s
         end.

Lemma decode_length s : (String.length (decode s) ≤ String.length s)%nat.
Proof.
  induction s as [s IH] using string_length_ind.
  destruct s as [|a s1]; [done|]. cbn [decode].
  decode_cases; cbn [String.length];
    repeat match goal with
           | |- context [decode ?t] =>
               lazymatch goal with
               | _ : (String.length (decode t) ≤ _)%nat |- _ => fail
               | _ => pose proof (IH t ltac:(cbn [String.length]; lia))
               end
           end; cbn [String.length] in *; lia.
Qed.

Lemma decode_app a b : decode a = a → decode (a +:+ b) = a +:+ decode b.
Proof.
  induction a as [a IH] using string_length_ind. intros Ha.
  destruct a as [|a0 a1]; [done|].
  rewrite !str_app_cons. cbn [decode] in *.
  assert (∀ t x, decode t = String x t → False) as Hskip.
  { intros t x Ht. pose proof (decode_length t) as Hl. rewrite Ht in Hl.
    cbn [String.length] in Hl. lia. }
  assert (∀ t x y, decode t = String x (String y t) → False) as Hskip2.
  { intros t x y Ht. pose proof (decode_length t) as Hl. rewrite Ht in Hl.
    cbn [String.length] in Hl. lia. }
  assert (∀ t x y z, decode t = String x (String y (String z t)) → False)
    as Hskip3.
  { intros t x y z Ht. pose proof (decode_length t) as Hl. rewrite Ht in Hl.
    cbn [String.length] in Hl. lia. }
  destruct (N_of_ascii a0 <? 128)%N.
  { injection Ha as Ha. f_equal. apply IH; [cbn; lia|done]. }
  destruct (_ || _); [by destruct (Hskip _ _ Ha)|].
  destruct a1 as [|b0 a2]; [done|]. rewrite !str_app_cons.
  destruct (negb (second a0 b0)); [by destruct (Hskip _ _ Ha)|].
  destruct (N_of_ascii a0 <? 224)%N.
  { injection Ha as Ha. do 2 f_equal. apply IH; [cbn; lia|done]. }
  destruct a2 as [|c0 a3]; [done|]. rewrite !str_app_cons.
  destruct (negb (continuation c0)); [by destruct (Hskip2 _ _ _ Ha)|].
  destruct (N_of_ascii a0 <? 240)%N.
  { injection Ha as Ha. do 3 f_equal. apply IH; [cbn; lia|done]. }
  destruct a3 as [|e0 a4]; [done|]. rewrite !str_app_cons.
  destruct (negb (continuation e0)); [by destruct (Hskip3 _ _ _ _ Ha)|].
  injection Ha as Ha. do 4 f_equal. apply IH; [cbn; lia|done].
Qed.

Lemma universal_newlines_id s :
  has_char "013" s = false → universal_newlines s = s.
Proof.
  induction s as [|c s IH]; [done|]. cbn [has_char universal_newlines].
  intros [Hc Hs]%orb_false_iff. apply bool_decide_eq_false in Hc.
  rewrite bool_decide_eq_false_2 by done. by rewrite IH.
Qed.

(** *** White space at the ends *)

Lemma lstrip_suffix s : ∃ pre, s = pre +:+ lstrip s.
Proof.
  induction s as [s IH] using string_length_ind.
  destruct s as [|a s1]; [by exists ""|]. cbn [lstrip].
  destruct (is_space a).
  { destruct (IH s1) as [pre Hpre]; [cbn; lia|].
    exists (String a pre). rewrite str_app_cons. by rewrite <- Hpre. }
  destruct s1 as [|b s2]; [by exists ""|].
  destruct (is_space2 a b).
  { destruct (IH s2) as [pre Hpre]; [cbn; lia|].
    exists (String a (String b pre)). rewrite !str_app_cons. by rewrite <- Hpre. }
  destruct s2 as [|c s3]; [by exists ""|].
  destruct (is_space3 a b c); [|by exists ""].
  destruct (IH s3) as [pre Hpre]; [cbn; lia|].
  exists (String a (String b (String c pre))). rewrite !str_app_cons.
  by rewrite <- Hpre.
Qed.

Lemma lstrip_length s : (String.length (lstrip s) ≤ String.length s)%nat.
Proof.
  destruct (lstrip_suffix s) as [pre Hpre].
  rewrite Hpre at 2. rewrite str_app_length. lia.
Qed.

(** A text that [lstrip] leaves as it is starts with no white space, and
    neither does a piece that it starts with. *)
Lemma lstrip_fixed_prefix r suf :
  lstrip (r +:+ suf) = r +:+ suf → lstrip r = r.
Proof.
  intros Hx.
  assert (∀ pre t, pre ≠ "" → lstrip t ≠ pre +:+ t) as Hshort.
  { intros pre t Hne Ht. pose proof (lstrip_length t) as Hl. rewrite Ht in Hl.
    rewrite str_app_length in Hl. destruct pre; [done|]. cbn in Hl. lia. }
  destruct r as [|a r1]; [done|]. rewrite str_app_cons in Hx.
  cbn [lstrip] in *. destruct (is_space a).
  { by destruct (Hshort (String a "") (r1 +:+ suf)). }
  destruct r1 as [|b r2]; [done|]. rewrite str_app_cons in Hx.
  destruct (is_space2 a b).
  { by destruct (Hshort (String a (String b "")) (r2 +:+ suf)). }
  destruct r2 as [|c r3]; [done|]. rewrite str_app_cons in Hx.
  destruct (is_space3 a b c); [|done].
  by destruct (Hshort (String a (String b (String c ""))) (r3 +:+ suf)).
Qed.

Lemma lstrip_idem s : lstrip (lstrip s) = lstrip s.
Proof.
  induction s as [s IH] using string_length_ind.
  destruct s as [|a s1]; [done|]. cbn [lstrip].
  destruct (is_space a) eqn:Ha; [apply IH; cbn; lia|].
  destruct s1 as [|b s2]; [cbn; by rewrite Ha|].
  destruct (is_space2 a b) eqn:Hab; [apply IH; cbn; lia|].
  destruct s2 as [|c s3]; [cbn; by rewrite Ha, Hab|].
  destruct (is_space3 a b c) eqn:Habc; [apply IH; cbn; lia|].
  cbn. by rewrite Ha, Hab, Habc.
Qed.

Lemma rstrip_prefix s : ∃ suf, s = rstrip s +:+ suf.
Proof.
  induction s as [|c s [suf IH]]; [by exists ""|]. cbn [rstrip]. cbn zeta.
  destruct (is_space_char _); [by eexists|].
  exists suf. rewrite str_app_cons. by rewrite <- IH.
Qed.

Lemma rstrip_idem s : rstrip (rstrip s) = rstrip s.
Proof.
  induction s as [|c s IH]; [done|]. cbn [rstrip]. cbn zeta.
  destruct (is_space_char (String c (rstrip s))) eqn:Hc; [done|].
  cbn [rstrip]. cbn zeta. by rewrite IH, Hc.
Qed.

Lemma strip_idem s : strip (strip s) = strip s.
Proof.
  unfold strip. destruct (rstrip_prefix (lstrip s)) as [suf Hsuf].
  rewrite (lstrip_fixed_prefix (rstrip (lstrip s)) suf).
  - apply rstrip_idem.
  - rewrite <- Hsuf. apply lstrip_idem.
Qed.

Lemma lstrip_no_char c s : has_char c s = false → has_char c (lstrip s) = false.
Proof.
  destruct (lstrip_suffix s) as [pre Hpre]. rewrite Hpre at 1.
  rewrite has_char_app. by intros [_ ?]%orb_false_iff.
Qed.

Lemma rstrip_no_char c s : has_char c s = false → has_char c (rstrip s) = false.
Proof.
  destruct (rstrip_prefix s) as [suf Hsuf]. rewrite Hsuf at 1.
  rewrite has_char_app. by intros [? _]%orb_false_iff.
Qed.

Lemma strip_no_char c s : has_char c s = false → has_char c (strip s) = false.
Proof. intros. by apply rstrip_no_char, lstrip_no_char. Qed.

(** *** Texts: the strings that decoding leaves as they are *)

Lemma is_space_ascii a : is_space a = true → (N_of_ascii a <? 128)%N = true.
Proof. by destruct a as [[] [] [] [] [] [] [] []]. Qed.

Lemma is_space_char_first a r :
  is_space_char (String a r) = true → continuation a = false.
Proof.
  destruct r as [|b [|c [|e r]]]; cbn [is_space_char]; [| | |done].
  - by destruct a as [[] [] [] [] [] [] [] []].
  - unfold is_space2. intros [->%bool_decide_eq_true _]%andb_true_iff. done.
  - unfold is_space3. rewrite !orb_true_iff, !andb_true_iff.
    intros [[[[[->%bool_decide_eq_true _] _]|[[->%bool_decide_eq_true _] _]]
            |[[->%bool_decide_eq_true _] _]]|[[->%bool_decide_eq_true _] _]]; done.
Qed.

Lemma decode_space_char w s :
  is_space_char w = true → decode (w +:+ s) = w +:+ decode s.
Proof.
  destruct w as [|a [|b [|c [|e r]]]]; cbn [is_space_char]; [done| | | |done].
  - intros Ha%is_space_ascii. rewrite str_app_cons, str_app_nil_l.
    cbn [decode]. by rewrite Ha.
  - unfold is_space2.
    intros [->%bool_decide_eq_true [->%bool_decide_eq_true| ->%bool_decide_eq_true]%orb_true_iff]%andb_true_iff.
    + done.
    + done.
  - unfold is_space3. rewrite !orb_true_iff, !andb_true_iff.
    intros [[[[[->%bool_decide_eq_true ->%bool_decide_eq_true] ->%bool_decide_eq_true]
              |[[->%bool_decide_eq_true ->%bool_decide_eq_true] Hc]]
            |[[->%bool_decide_eq_true ->%bool_decide_eq_true] ->%bool_decide_eq_true]]
           |[[->%bool_decide_eq_true ->%bool_decide_eq_true] ->%bool_decide_eq_true]];
      try done.
    rewrite !str_app_cons. cbn [decode].
    change (N_of_ascii "226" <? 128)%N with false.
    change ((N_of_ascii "226" <? 194)%N || (245 <=? N_of_ascii "226")%N) with false.
    change (N_of_ascii "226" <? 224)%N with false.
    change (N_of_ascii "226" <? 240)%N with true.
    change (negb (second "226" "128")) with false. cbn match.
    assert (continuation c = true) as ->; [|done].
    unfold continuation.
    rewrite !orb_true_iff, andb_true_iff in Hc.
    destruct Hc as [[[[H1 H2]| ->%bool_decide_eq_true]| ->%bool_decide_eq_true]
                   | ->%bool_decide_eq_true]; [|done..].
    apply N.leb_le in H1, H2. apply andb_true_iff.
    split; [by apply N.leb_le|apply N.ltb_lt; lia].
Qed.

Lemma decode_skip t pre : pre ≠ "" → decode t ≠ pre +:+ t.
Proof.
  intros Hne Ht. pose proof (decode_length t) as Hl. rewrite Ht in Hl.
  rewrite str_app_length in Hl. destruct pre; [done|]. cbn in Hl. lia.
Qed.

Lemma decode_app_inv a c b :
  decode (a +:+ String c b) = a +:+ String c b → continuation c = false →
  decode a = a.
Proof.
  intros Ha Hc. induction a as [a IH] using string_length_ind.
  destruct a as [|a0 a1]; [done|].
  rewrite !str_app_cons in Ha. cbn [decode] in *.
  destruct (N_of_ascii a0 <? 128)%N.
  { injection Ha as Ha. f_equal. apply IH; [cbn; lia|done]. }
  destruct (_ || _); [by destruct (decode_skip _ (String a0 "") ltac:(done) Ha)|].
  destruct a1 as [|b0 a2].
  { rewrite str_app_nil_l in Ha. unfold second in Ha. rewrite Hc in Ha.
    by destruct (decode_skip _ (String a0 "") ltac:(done) Ha). }
  rewrite !str_app_cons in Ha.
  destruct (negb (second a0 b0));
    [by destruct (decode_skip _ (String a0 "") ltac:(done) Ha)|].
  destruct (N_of_ascii a0 <? 224)%N.
  { injection Ha as Ha. do 2 f_equal. apply IH; [cbn; lia|done]. }
  destruct a2 as [|c0 a3].
  { rewrite str_app_nil_l in Ha. rewrite Hc in Ha.
    by destruct (decode_skip _ (String a0 (String b0 "")) ltac:(done) Ha). }
  rewrite !str_app_cons in Ha.
  destruct (negb (continuation c0));
    [by destruct (decode_skip _ (String a0 (String b0 "")) ltac:(done) Ha)|].
  destruct (N_of_ascii a0 <? 240)%N.
  { injection Ha as Ha. do 3 f_equal. apply IH; [cbn; lia|done]. }
  destruct a3 as [|e0 a4].
  { rewrite str_app_nil_l in Ha. rewrite Hc in Ha.
    by destruct (decode_skip _ (String a0 (String b0 (String c0 "")))
                   ltac:(done) Ha). }
  rewrite !str_app_cons in Ha.
  destruct (negb (continuation e0));
    [by destruct (decode_skip _ (String a0 (String b0 (String c0 "")))
                    ltac:(done) Ha)|].
  injection Ha as Ha. do 4 f_equal. apply IH; [cbn; lia|done].
Qed.

Lemma decode_idem s : decode (decode s) = decode s.
Proof.
  induction s as [s IH] using string_length_ind.
  destruct s as [|a s1]; [done|]. cbn [decode].
  destruct (N_of_ascii a <? 128)%N eqn:E1.
  { cbn [decode]. rewrite E1. f_equal. apply IH. cbn; lia. }
  destruct (_ || _) eqn:E2; [apply IH; cbn; lia|].
  destruct s1 as [|b s2]; [done|].
  destruct (negb (second a b)) eqn:E3; [apply IH; cbn; lia|].
  destruct (N_of_ascii a <? 224)%N eqn:E4.
  { cbn [decode]. rewrite E1, E2, E3, E4. do 2 f_equal. apply IH. cbn; lia. }
  destruct s2 as [|c s3]; [done|].
  destruct (negb (continuation c)) eqn:E5; [apply IH; cbn; lia|].
  destruct (N_of_ascii a <? 240)%N eqn:E6.
  { cbn [decode]. rewrite E1, E2, E3, E4, E5, E6. do 3 f_equal.
    apply IH. cbn; lia. }
  destruct s3 as [|e s4]; [done|].
  destruct (negb (continuation e)) eqn:E7; [apply IH; cbn; lia|].
  cbn [decode]. rewrite E1, E2, E3, E4, E5, E6, E7. do 4 f_equal.
  apply IH. cbn; lia.
Qed.

Lemma continuation_not_cr c : continuation c = true → c ≠ "013"%char.
Proof. by intros Hc ->. Qed.

Lemma second_continuation a b : negb (second a b) = false → continuation b = true.
Proof. unfold second. by intros [? _]%negb_false_iff%andb_true_iff. Qed.

Lemma universal_newlines_cons c s :
  c ≠ "013"%char → universal_newlines (String c s) = String c (universal_newlines s).
Proof. intros Hc. cbn. by rewrite bool_decide_eq_false_2. Qed.

Lemma universal_newlines_text s :
  decode s = s → decode (universal_newlines s) = universal_newlines s.
Proof.
  induction s as [s IH] using string_length_ind. intros Hs.
  destruct s as [|a s1]; [done|]. cbn [decode] in Hs.
  destruct (N_of_ascii a <? 128)%N eqn:E1.
  { injection Hs as Hs. cbn [universal_newlines]. case_bool_decide as Ha.
    - assert (decode (String "010" (universal_newlines s1))
              = String "010" (universal_newlines s1)) as Hgen.
      { cbn [decode]. change (N_of_ascii "010" <? 128)%N with true.
        f_equal. apply IH; [cbn; lia|done]. }
      destruct s1 as [|b s2].
      + done.
      + destruct (decide (b = "010"%char)) as [->|Hb].
        * cbn [decode] in Hs. change (N_of_ascii "010" <? 128)%N with true in Hs.
          injection Hs as Hs.
          cbn [decode]. change (N_of_ascii "010" <? 128)%N with true.
          f_equal. apply IH; [cbn; lia|done].
        * replace (match String b s2 with
                   | String "010"%char s3 => String "010" (universal_newlines s3)
                   | _ => String "010" (universal_newlines (String b s2))
                   end) with (String "010" (universal_newlines (String b s2)));
            [done|].
          by destruct b as [[] [] [] [] [] [] [] []].
    - cbn [decode]. rewrite E1. f_equal. apply IH; [cbn; lia|done]. }
  destruct (_ || _) eqn:E2;
    [by destruct (decode_skip _ (String a "") ltac:(done) Hs)|].
  assert (a ≠ "013"%char) as Ha by (by intros ->).
  destruct s1 as [|b s2]; [done|].
  destruct (negb (second a b)) eqn:E3;
    [by destruct (decode_skip _ (String a "") ltac:(done) Hs)|].
  pose proof (continuation_not_cr _ (second_continuation _ _ E3)) as Hb.
  rewrite !universal_newlines_cons by done.
  destruct (N_of_ascii a <? 224)%N eqn:E4.
  { injection Hs as Hs. cbn [decode]. rewrite E1, E2, E3, E4. do 2 f_equal.
    apply IH; [cbn; lia|done]. }
  destruct s2 as [|c s3]; [done|].
  destruct (negb (continuation c)) eqn:E5;
    [by destruct (decode_skip _ (String a (String b "")) ltac:(done) Hs)|].
  pose proof (continuation_not_cr _ (proj1 (negb_false_iff _) E5)) as Hc.
  rewrite !universal_newlines_cons by done.
  destruct (N_of_ascii a <? 240)%N eqn:E6.
  { injection Hs as Hs. cbn [decode]. rewrite E1, E2, E3, E4, E5, E6. do 3 f_equal.
    apply IH; [cbn; lia|done]. }
  destruct s3 as [|e s4]; [done|].
  destruct (negb (continuation e)) eqn:E7;
    [by destruct (decode_skip _ (String a (String b (String c "")))
                    ltac:(done) Hs)|].
  pose proof (continuation_not_cr _ (proj1 (negb_false_iff _) E7)) as He.
  rewrite !universal_newlines_cons by done.
  injection Hs as Hs. cbn [decode]. rewrite E1, E2, E3, E4, E5, E6, E7.
  do 4 f_equal. apply IH; [cbn; lia|done].
Qed.

Lemma universal_newlines_no_cr s : has_char "013" (universal_newlines s) = false.
Proof.
  induction s as [s IH] using string_length_ind.
  destruct s as [|c s1]; [done|]. cbn [universal_newlines].
  case_bool_decide as Hc.
  - assert (has_char "013" (String "010" (universal_newlines s1)) = false) as Hgen.
    { cbn. apply IH. cbn; lia. }
    destruct s1 as [|b s2]; [done|].
    destruct (decide (b = "010"%char)) as [->|Hb].
    + cbn. apply IH. cbn; lia.
    + replace (match String b s2 with
               | String "010"%char s3 => String "010" (universal_newlines s3)
               | _ => String "010" (universal_newlines (String b s2))
               end) with (String "010" (universal_newlines (String b s2)));
        [done|].
      by destruct b as [[] [] [] [] [] [] [] []].
  - cbn [has_char]. rewrite bool_decide_eq_false_2 by done. apply IH. cbn; lia.
Qed.

Lemma decode_tail w s :
  is_space_char w = true → decode (w +:+ s) = w +:+ s → decode s = s.
Proof.
  intros Hw Hs. rewrite decode_space_char in Hs by done.
  by apply (inj (String.app w)) in Hs.
Qed.

Lemma lstrip_text s : decode s = s → decode (lstrip s) = lstrip s.
Proof.
  induction s as [s IH] using string_length_ind. intros Hs.
  destruct s as [|a s1]; [done|]. cbn [lstrip].
  destruct (is_space a) eqn:Ha.
  { apply IH; [cbn; lia|]. by apply (decode_tail (String a "")). }
  destruct s1 as [|b s2]; [done|].
  destruct (is_space2 a b) eqn:Hab.
  { apply IH; [cbn; lia|]. by apply (decode_tail (String a (String b ""))). }
  destruct s2 as [|c s3]; [done|].
  destruct (is_space3 a b c) eqn:Habc; [|done].
  apply IH; [cbn; lia|].
  by apply (decode_tail (String a (String b (String c "")))).
Qed.

(** What [rstrip] cuts off is nothing, or starts with a byte that starts
    a character. *)
Lemma rstrip_cut s :
  ∃ suf, s = rstrip s +:+ suf
         ∧ match suf with
           | "" => True
           | String c _ => continuation c = false
           end.
Proof.
  induction s as [|c s (suf & IH & Hsuf)]; [by exists ""|].
  cbn [rstrip]. cbn zeta.
  destruct (is_space_char _) eqn:Hc.
  - exists (String c s). split; [done|]. by apply is_space_char_first in Hc.
  - exists suf. split; [|done]. rewrite str_app_cons. by rewrite <- IH.
Qed.

Lemma rstrip_text s : decode s = s → decode (rstrip s) = rstrip s.
Proof.
  intros Hs. destruct (rstrip_cut s) as (suf & Hcut & Hsuf).
  destruct suf as [|c suf].
  - rewrite str_app_nil_r in Hcut. by rewrite <- Hcut.
  - rewrite Hcut in Hs. by apply decode_app_inv in Hs.
Qed.

Lemma strip_text s : decode s = s → decode (strip s) = strip s.
Proof. intros. by apply rstrip_text, lstrip_text. Qed.

Lemma split_cut sep s :
  has_char sep s = true →
  ∃ s1 s2, s = s1 +:+ String sep s2 ∧ has_char sep s1 = false.
Proof.
  induction s as [|c s IH]; [done|]. cbn [has_char].
  destruct (decide (c = sep)) as [->|Hne].
  - intros _. by exists "", s.
  - rewrite bool_decide_eq_false_2 by done. intros (s1 & s2 & -> & H1)%IH.
    exists (String c s1), s2. split; [done|]. cbn.
    by rewrite bool_decide_eq_false_2.
Qed.

Lemma split_text sep s :
  (N_of_ascii sep <? 128)%N = true → decode s = s →
  Forall (λ piece, decode piece = piece) (split sep s).
Proof.
  intros Hsep. induction s as [s IH] using string_length_ind. intros Hs.
  destruct (has_char sep s) eqn:Hhas.
  - destruct (split_cut _ _ Hhas) as (s1 & s2 & -> & H1).
    rewrite split_app by done.
    assert (continuation sep = false) as Hc.
    { unfold continuation. apply N.ltb_lt in Hsep. apply andb_false_iff. left.
      apply N.leb_gt. lia. }
    pose proof (decode_app_inv _ _ _ Hs Hc) as Hs1.
    constructor; [done|]. apply IH.
    + rewrite str_app_length. cbn. lia.
    + rewrite decode_app in Hs by done. apply (inj (String.app s1)) in Hs.
      cbn [decode] in Hs. rewrite Hsep in Hs. by injection Hs.
  - rewrite split_no_sep by done. by constructor.
Qed.

Lemma split_no_char c sep s :
  has_char c s = false → Forall (λ piece, has_char c piece = false) (split sep s).
Proof.
  induction s as [|a s IH]; [by repeat constructor|]. cbn [has_char split].
  intros [Ha Hs]%orb_false_iff. specialize (IH Hs).
  destruct (decide (a = sep)); [by constructor|].
  destruct (split sep s) as [|w ws]; [by repeat constructor; cbn; rewrite Ha|].
  apply Forall_cons in IH as [Hw Hws]. constructor; [|done]. cbn. by rewrite Ha.
Qed.

End StringFacts.

(** ** Caption files *)

Module CaptionFile.
Import PyStr DatCure StringFacts.

Lemma strip_blank_l t : strip (" " +:+ t) = strip t.
Proof. done. Qed.


Lemma parse_tags_cons w s :
  has_char "," w = false → strip w ≠ "" →
  parse_tags (w +:+ String "," s) = strip w :: parse_tags s.
Proof.
  intros Hw Hne. unfold parse_tags. rewrite split_app by done. simpl.
  by rewrite bool_decide_eq_false_2.
Qed.

Lemma parse_tags_single w :
  has_char "," w = false → strip w ≠ "" → parse_tags w = [strip w].
Proof.
  intros Hw Hne. unfold parse_tags. rewrite split_no_sep by done. simpl.
  by rewrite bool_decide_eq_false_2.
Qed.

Lemma parse_join_pre pre tags :
  Forall clean_tag tags → tags ≠ [] →
  has_char "," pre = false → (∀ t, strip (pre +:+ t) = strip t) →
  parse_tags (pre +:+ join ", " tags) = tags.
Proof.
  intros Hall. revert pre.
  induction Hall as [|t rest (_ & Hs & Hne & Hc & _) Hrest IH]; [done|].
  intros pre _ Hpre Hstrip. destruct rest as [|t' rest].
  - simpl. rewrite parse_tags_single.
    + by rewrite Hstrip, Hs.
    + by rewrite has_char_app, Hpre, Hc.
    + by rewrite Hstrip, Hs.
  - change (join ", " (t :: t' :: rest))
      with (t +:+ String "," (" " +:+ join ", " (t' :: rest))).
    rewrite <- str_app_assoc. rewrite parse_tags_cons.
    + rewrite Hstrip, Hs. f_equal. by apply IH.
    + by rewrite has_char_app, Hpre, Hc.
    + by rewrite Hstrip, Hs.
Qed.

Lemma parse_join tags :
  Forall clean_tag tags → parse_tags (join ", " tags) = tags.
Proof.
  intros Hall. destruct tags as [|t rest]; [done|].
  rewrite <- (str_app_nil_l (join ", " (t :: rest))).
  by apply parse_join_pre.
Qed.

(** The line that [save_caption_file] writes for clean tags is a text
    without carriage return: reading gives it back as it is. *)
Lemma join_text tags :
  Forall clean_tag tags → decode (join ", " tags) = join ", " tags.
Proof.
  induction 1 as [|t rest (Ht & _) Hrest IH]; [done|].
  destruct rest as [|t' rest]; [done|].
  change (join ", " (t :: t' :: rest))
    with (t +:+ (", " +:+ join ", " (t' :: rest))).
  rewrite decode_app by done. f_equal.
  rewrite (decode_app ", ") by done. by rewrite IH.
Qed.

Lemma join_no_cr tags :
  Forall clean_tag tags → has_char "013" (join ", " tags) = false.
Proof.
  induction 1 as [|t rest (_ & _ & _ & _ & Ht) Hrest IH]; [done|].
  destruct rest as [|t' rest]; [done|].
  change (join ", " (t :: t' :: rest))
    with (t +:+ (", " +:+ join ", " (t' :: rest))).
  by rewrite !has_char_app, Ht, IH.
Qed.

Lemma read_join tags :
  Forall clean_tag tags →
  parse_tags (universal_newlines (decode (join ", " tags))) = tags.
Proof.
  intros Hall. rewrite join_text by done.
  rewrite universal_newlines_id by (by apply join_no_cr). by apply parse_join.
Qed.

Lemma save_caption_file_written image_path a d :
  caption_path image_path ∉ Disk.locked d →
  Disk.files (save_caption_file image_path a d) !! caption_path image_path
  = Some (join ", " (get_tags (captions a) image_path)).
Proof.
  intros Hfree. unfold save_caption_file, Disk.write.
  rewrite decide_False by done. cbn. apply lookup_insert_eq.
Qed.

(** C7, amended.  A caption whose tags are trimmed, not empty and free of
    commas comes back from its caption file as it was written, tag for tag
    and in the same order, whenever the file can be written. *)
Theorem caption_round_trip a d image_path :
  Forall clean_tag (get_tags (captions a) image_path) →
  caption_path image_path ∉ Disk.locked d →
  read_caption (save_caption_file image_path a d) image_path
  = get_tags (captions a) image_path.
Proof.
  intros Hclean Hfree. unfold read_caption, Disk.read.
  rewrite save_caption_file_written by done.
  cbn [fmap option_fmap option_map]. by apply read_join.
Qed.

Lemma caption_round_trip_witness :
  let a := set_captions {["/d/x.png" := ["cat"; "big dog"]]} init in
  read_caption (save_caption_file "/d/x.png" a Samples.disk_one) "/d/x.png"
  = ["cat"; "big dog"].
Proof.
  intros a.
  apply (caption_round_trip a Samples.disk_one "/d/x.png").
  - repeat constructor; vm_compute; congruence.
  - vm_compute. set_solver.
Defined.

(** C7 as stated fails for a tag with a comma, which [add_tag_to_selected]
    accepts: the caption file of the image then reads back as two tags. *)
Lemma caption_round_trip_counterexample :
  let '(a, d) := perform Samples.iter (AddTag "a,b")
                   (state Samples.loaded_one, disk Samples.loaded_one) in
  ¬ (list_to_set (read_caption d "/d/x.png")
     =@{gset string} list_to_set (get_tags (captions a) "/d/x.png")).
Proof. vm_compute. intros [=]. Qed.

End CaptionFile.

(** ** The tag index *)

Module TagIndex.
Import DatCure.

Implicit Types (c : gmap string (list string)) (a : app) (d : Disk.disk).

Lemma occurrences_empty tag : occurrences tag ∅ = 0%nat.
Proof. unfold occurrences. by rewrite map_fold_empty. Qed.

Lemma occurrences_insert_fresh tag c k tags :
  c !! k = None →
  occurrences tag (<[k := tags]> c) = (tag_count tag tags + occurrences tag c)%nat.
Proof.
  intros Hk. unfold occurrences. rewrite map_fold_insert_L; [done| |done].
  intros. lia.
Qed.

Lemma occurrences_delete tag c k :
  (occurrences tag c
   = tag_count tag (get_tags c k) + occurrences tag (delete k c))%nat.
Proof.
  unfold get_tags. destruct (c !! k) as [tags|] eqn:Hk; simpl.
  - unfold occurrences. rewrite (map_fold_delete_L _ _ k tags c); [done| |done].
    intros. lia.
  - by rewrite delete_id.
Qed.

Lemma occurrences_insert tag c k tags :
  (occurrences tag (<[k := tags]> c) + tag_count tag (get_tags c k)
   = tag_count tag tags + occurrences tag c)%nat.
Proof.
  rewrite <- insert_delete_eq.
  rewrite occurrences_insert_fresh by apply lookup_delete_eq.
  rewrite (occurrences_delete tag c k). lia.
Qed.

Lemma tag_count_app tag l1 l2 :
  tag_count tag (l1 ++ l2) = (tag_count tag l1 + tag_count tag l2)%nat.
Proof. unfold tag_count. by rewrite filter_app, length_app. Qed.

Lemma tag_count_0 tag l : tag_count tag l = 0%nat ↔ tag ∉ l.
Proof.
  unfold tag_count. induction l as [|x l IH]; simpl.
  - split; [intros _; apply not_elem_of_nil | done].
  - rewrite filter_cons. rewrite not_elem_of_cons. destruct (decide (x = tag)); simpl.
    + split; [done | intros [? _]; congruence].
    + rewrite IH. split; [intros ?; split; [congruence | done] | by intros [_ ?]].
Qed.

Lemma tag_count_remove_same tag l :
  tag ∈ l → S (tag_count tag (list_remove tag l)) = tag_count tag l.
Proof.
  unfold tag_count. induction l as [|x l IH]; simpl.
  - by intros ?%elem_of_nil.
  - intros Hin. rewrite filter_cons. destruct (decide (x = tag)) as [->|Hne]; simpl.
    + done.
    + rewrite filter_cons, decide_False by done. apply IH.
      apply elem_of_cons in Hin as [?|?]; [congruence | done].
Qed.

Lemma tag_count_remove_other tag t l :
  t ≠ tag → tag_count tag (list_remove t l) = tag_count tag l.
Proof.
  intros Hne. unfold tag_count. induction l as [|x l IH]; simpl; [done|].
  rewrite (filter_cons _ x l). destruct (decide (x = t)) as [->|Hx].
  - by rewrite decide_False.
  - rewrite filter_cons. destruct (decide (x = tag)); simpl; by rewrite IH.
Qed.

Lemma tag_count_perm tag l1 l2 : l1 ≡ₚ l2 → tag_count tag l1 = tag_count tag l2.
Proof. intros H. unfold tag_count. by rewrite H. Qed.


Lemma dd_incr_lookup (m : gmap string Z) k j :
  dd_incr m k !! j
  = if decide (j = k) then Some (default 0 (m !! k) + 1) else m !! j.
Proof.
  unfold dd_incr, dd_get. destruct (m !! k) as [v|] eqn:Hk; simpl;
    destruct (decide (j = k)) as [->|Hne].
  - by rewrite lookup_insert_eq.
  - by rewrite lookup_insert_ne.
  - by rewrite lookup_insert_eq.
  - by rewrite !lookup_insert_ne.
Qed.

Lemma dd_incr_dom (m : gmap string Z) k : dom (dd_incr m k) = {[k]} ∪ dom m.
Proof.
  unfold dd_incr, dd_get. destruct (m !! k) as [v|] eqn:Hk; simpl.
  - by rewrite dom_insert_L.
  - rewrite !dom_insert_L. by rewrite (assoc_L _), (idemp_L _).
Qed.

Lemma dd_forget_lookup (m : gmap string Z) k v j :
  m !! k = Some v → 0 < v →
  dd_forget m k !! j
  = if decide (j = k) then (if decide (v = 1) then None else Some (v - 1))
    else m !! j.
Proof.
  intros Hk Hv. unfold dd_forget, dd_get. rewrite Hk.
  rewrite bool_decide_eq_true_2 by done.
  destruct (decide (v = 1)) as [->|Hv1].
  - rewrite bool_decide_eq_true_2 by done.
    destruct (decide (j = k)) as [->|Hne].
    + by rewrite lookup_delete_eq.
    + by rewrite lookup_delete_ne, lookup_insert_ne.
  - rewrite bool_decide_eq_false_2 by lia.
    destruct (decide (j = k)) as [->|Hne].
    + by rewrite lookup_insert_eq.
    + by rewrite lookup_insert_ne.
Qed.

(** Rebuilding the tag list reads only tags that have a frequency, and so
    leaves the frequencies alone. *)
Lemma tag_list_fold_freq (l : list string) (freq : gmap string Z) items :
  (∀ t, t ∈ l → is_Some (freq !! t)) →
  (foldl (λ '(items, freq) tag,
            let '(v, freq') := dd_get freq tag in
            (items ++ [item_text tag v], freq'))
         (items, freq) l).2 = freq.
Proof.
  revert items. induction l as [|t l IH]; intros items Hl; [done|].
  simpl. unfold dd_get at 2. destruct (Hl t) as [v Hv]; [by left|].
  rewrite Hv. apply IH. intros t' Ht'. apply Hl. by right.
Qed.

Lemma elem_of_sorted_set t (s : gset string) : t ∈ sorted_set s ↔ t ∈ s.
Proof. unfold sorted_set. by rewrite merge_sort_Permutation, elem_of_elements. Qed.

Lemma update_tag_list_frequency a :
  all_tags a ⊆ dom (tag_frequency a) →
  tag_frequency (update_tag_list a) = tag_frequency a.
Proof.
  intros Hsub. unfold update_tag_list.
  pose proof (tag_list_fold_freq (sorted_set (all_tags a)) (tag_frequency a) []) as H.
  destruct (foldl _ _ _) as [items freq]. simpl in *. apply H.
  intros t Ht%elem_of_sorted_set. apply elem_of_dom. by apply Hsub.
Qed.

Lemma update_tag_list_frame a :
  images (update_tag_list a) = images a
  ∧ captions (update_tag_list a) = captions a
  ∧ selected_images (update_tag_list a) = selected_images a
  ∧ all_tags (update_tag_list a) = all_tags a
  ∧ filtered_images (update_tag_list a) = filtered_images a
  ∧ filter_active (update_tag_list a) = filter_active a
  ∧ filter_mode (update_tag_list a) = filter_mode a
  ∧ focus_image_path (update_tag_list a) = focus_image_path a
  ∧ include_subdirs (update_tag_list a) = include_subdirs a
  ∧ gallery (update_tag_list a) = gallery a.
Proof. unfold update_tag_list. by destruct (foldl _ _ _). Qed.

Lemma index_agrees_eq a a' :
  captions a' = captions a → tag_frequency a' = tag_frequency a →
  all_tags a' = all_tags a → index_agrees a → index_agrees a'.
Proof. unfold index_agrees, freq_agrees. by intros -> -> ->. Qed.

Lemma update_tag_list_agrees a : index_agrees a → index_agrees (update_tag_list a).
Proof.
  intros H. apply (index_agrees_eq a); [apply update_tag_list_frame| |apply update_tag_list_frame|done].
  apply update_tag_list_frequency. destruct H as [_ ->]. done.
Qed.


Lemma agrees_default a tag :
  index_agrees a →
  default 0 (tag_frequency a !! tag) = Z.of_nat (occurrences tag (captions a)).
Proof.
  intros [H _]. rewrite H. destruct (decide _) as [->|]; done.
Qed.

Lemma mem_true x l : mem x l = true ↔ x ∈ l.
Proof. unfold mem. apply bool_decide_eq_true. Qed.

Lemma mem_false x l : mem x l = false ↔ x ∉ l.
Proof. unfold mem. apply bool_decide_eq_false. Qed.

Lemma add_tag_step_agrees new_tag a d p :
  index_agrees a → index_agrees (add_tag_step new_tag (a, d) p).1.
Proof.
  intros Ha. unfold add_tag_step.
  destruct (mem new_tag (get_tags (captions a) p)) eqn:Hmem; [done|].
  apply mem_false in Hmem. apply tag_count_0 in Hmem.
  split; simpl.
  - intros tag. cbn. rewrite dd_incr_lookup.
    pose proof (occurrences_insert tag (captions a) p
                  (get_tags (captions a) p ++ [new_tag])) as Hocc.
    rewrite tag_count_app in Hocc.
    destruct (decide (tag = new_tag)) as [->|Hne].
    + rewrite (agrees_default a) by done.
      assert (tag_count new_tag [new_tag] = 1%nat) as Hone.
      { unfold tag_count. rewrite filter_cons, decide_True by done. done. }
      rewrite Hone, Hmem in Hocc.
      rewrite decide_False by lia. f_equal. lia.
    + assert (tag_count tag [new_tag] = 0%nat) as Hzero.
      { apply tag_count_0. rewrite list_elem_of_singleton. done. }
      rewrite Hzero in Hocc.
      replace (occurrences tag (<[p:=get_tags (captions a) p ++ [new_tag]]> (captions a)))
        with (occurrences tag (captions a)) by lia.
      apply Ha.
  - rewrite dd_incr_dom. destruct Ha as [_ ->]. done.
Qed.

Lemma forget_tag_spec tag a v :
  tag_frequency a !! tag = Some v → 0 < v →
  captions (forget_tag tag a) = captions a
  ∧ tag_frequency (forget_tag tag a) = dd_forget (tag_frequency a) tag
  ∧ all_tags (forget_tag tag a)
    = if decide (v = 1) then all_tags a ∖ {[tag]} else all_tags a.
Proof.
  intros Hv Hpos. unfold forget_tag, dd_forget, dd_get. rewrite Hv.
  rewrite bool_decide_eq_true_2 by done.
  destruct (decide (v = 1)) as [->|Hne].
  - by rewrite bool_decide_eq_true_2.
  - by rewrite bool_decide_eq_false_2 by lia.
Qed.

Lemma dd_forget_dom (m : gmap string Z) k v :
  m !! k = Some v → 0 < v →
  dom (dd_forget m k) = if decide (v = 1) then dom m ∖ {[k]} else dom m.
Proof.
  intros Hk Hv. apply set_eq. intros j. rewrite elem_of_dom.
  rewrite (dd_forget_lookup m k v) by done.
  destruct (decide (v = 1)); destruct (decide (j = k)) as [->|Hne].
  - rewrite elem_of_difference, elem_of_singleton. split; [by intros [? ?] | tauto].
  - rewrite elem_of_difference, elem_of_singleton, elem_of_dom. tauto.
  - rewrite elem_of_dom, Hk. split; eauto.
  - by rewrite elem_of_dom.
Qed.

(** One occurrence of [tag] leaves the caption of [p]: the index follows. *)
Lemma forget_one_agrees (c : gmap string (list string)) freq tag p :
  (∀ t, freq !! t = if decide (occurrences t c = 0%nat) then None
                    else Some (Z.of_nat (occurrences t c))) →
  tag ∈ get_tags c p →
  ∀ t, dd_forget freq tag !! t
       = let c' := <[p := list_remove tag (get_tags c p)]> c in
         if decide (occurrences t c' = 0%nat) then None
         else Some (Z.of_nat (occurrences t c')).
Proof.
  intros Hfreq Hin t. simpl.
  pose proof (occurrences_insert t c p (list_remove tag (get_tags c p))) as Hocc.
  assert (0 < occurrences tag c)%nat as Hpos.
  { rewrite (occurrences_delete tag c p).
    assert (tag_count tag (get_tags c p) ≠ 0%nat); [|lia].
    rewrite tag_count_0. tauto. }
  assert (freq !! tag = Some (Z.of_nat (occurrences tag c))) as Htag.
  { rewrite Hfreq. by rewrite decide_False by lia. }
  rewrite (dd_forget_lookup freq tag _ t Htag) by lia.
  destruct (decide (t = tag)) as [->|Hne].
  - pose proof (tag_count_remove_same tag _ Hin) as Hrem.
    destruct (decide (Z.of_nat (occurrences tag c) = 1)).
    + rewrite decide_True by lia. done.
    + rewrite decide_False by lia. f_equal. lia.
  - rewrite tag_count_remove_other in Hocc by done.
    replace (occurrences t (<[p:=list_remove tag (get_tags c p)]> c))
      with (occurrences t c) by lia.
    apply Hfreq.
Qed.

Lemma remove_tag_step_agrees tag a d p :
  index_agrees a → index_agrees (remove_tag_step tag (a, d) p).1.
Proof.
  intros Ha. unfold remove_tag_step.
  destruct (mem tag (get_tags (captions a) p)) eqn:Hmem; [|done].
  apply mem_true in Hmem. destruct Ha as [Hfreq Hall].
  assert (0 < occurrences tag (captions a))%nat as Hpos.
  { rewrite (occurrences_delete tag (captions a) p).
    assert (tag_count tag (get_tags (captions a) p) ≠ 0%nat); [|lia].
    rewrite tag_count_0. tauto. }
  assert (tag_frequency a !! tag = Some (Z.of_nat (occurrences tag (captions a)))) as Htag.
  { rewrite Hfreq. by rewrite decide_False by lia. }
  set (a1 := set_captions _ a).
  destruct (forget_tag_spec tag a1 _ Htag) as (Hc & Hf & Hs); [lia|].
  change (tag_frequency a1) with (tag_frequency a) in *.
  change (all_tags a1) with (all_tags a) in *.
  change (captions a1)
    with (<[p := list_remove tag (get_tags (captions a) p)]> (captions a)) in *.
  unfold index_agrees, freq_agrees. cbn [fst]. rewrite Hc, Hf, Hs. split.
  - intros t. apply (forget_one_agrees (captions a)); done.
  - rewrite (dd_forget_dom _ _ _ Htag) by lia. cbn.
    rewrite Hall. by destruct (decide _).
Qed.


Lemma tag_count_nodup tag l :
  NoDup l → tag_count tag l = if decide (tag ∈ l) then 1%nat else 0%nat.
Proof.
  intros Hnd. destruct (decide (tag ∈ l)) as [Hin|Hnin].
  - induction Hnd as [|x l Hx Hnd IH]; [by apply elem_of_nil in Hin|].
    unfold tag_count in *. rewrite filter_cons.
    destruct (decide (x = tag)) as [->|Hne]; simpl.
    + f_equal. by apply tag_count_0.
    + apply IH. apply elem_of_cons in Hin as [?|?]; [congruence|done].
  - by apply tag_count_0.
Qed.

Lemma images_with_empty tag : images_with tag ∅ = 0%nat.
Proof. unfold images_with. by rewrite map_filter_empty, map_size_empty. Qed.

Lemma images_with_insert_fresh tag c k tags :
  c !! k = None →
  images_with tag (<[k := tags]> c)
  = ((if decide (tag ∈ tags) then 1 else 0) + images_with tag c)%nat.
Proof.
  intros Hk. unfold images_with. rewrite map_filter_insert. simpl.
  destruct (decide (tag ∈ tags)).
  - rewrite map_size_insert, map_lookup_filter_None_2; [done|by left].
  - by rewrite delete_id.
Qed.

Lemma occurrences_images_with tag c :
  captions_nodup c → occurrences tag c = images_with tag c.
Proof.
  induction c as [|k tags c Hk IH] using map_ind; intros Hnd.
  - by rewrite occurrences_empty, images_with_empty.
  - rewrite occurrences_insert_fresh, images_with_insert_fresh by done.
    rewrite IH.
    + f_equal. apply tag_count_nodup. apply (Hnd k). apply lookup_insert_eq.
    + intros p l Hp. apply (Hnd p). rewrite lookup_insert_ne; [done|].
      intros ->. congruence.
Qed.

Lemma list_remove_sublist x l : list_remove x l `sublist_of` l.
Proof.
  induction l as [|y l IH]; simpl; [done|].
  destruct (decide (y = x)); [by apply sublist_cons | by apply sublist_skip].
Qed.

Lemma captions_nodup_insert c p tags :
  captions_nodup c → NoDup tags → captions_nodup (<[p := tags]> c).
Proof.
  intros Hc Ht q l. destruct (decide (q = p)) as [->|Hne].
  - rewrite lookup_insert_eq. by intros [= <-].
  - rewrite lookup_insert_ne by done. apply Hc.
Qed.

Lemma get_tags_nodup c p : captions_nodup c → NoDup (get_tags c p).
Proof.
  intros Hc. unfold get_tags. destruct (c !! p) as [l|] eqn:Hp; simpl.
  - by apply (Hc p).
  - constructor.
Qed.


(** A property of the state that every round of a loop keeps holds after
    the loop. *)
Lemma foldl_state_inv {B} (P : app → Prop) (step : app * B → string → app * B) l :
  (∀ a b p, P a → P (step (a, b) p).1) →
  ∀ a b, P a → P (foldl step (a, b) l).1.
Proof.
  intros Hstep. induction l as [|p l IH]; intros a b Ha; [done|].
  simpl. specialize (Hstep a b p Ha). destruct (step (a, b) p) as [a1 b1].
  by apply IH.
Qed.

Lemma populate_gallery_agrees imgs a :
  index_agrees a → index_agrees (populate_gallery imgs a).
Proof.
  intros Ha. apply (index_agrees_eq (update_tag_list a)); [done..|].
  by apply update_tag_list_agrees.
Qed.

Lemma update_gallery_agrees a : index_agrees a → index_agrees (update_gallery a).
Proof. unfold update_gallery. destruct (filter_active a); apply populate_gallery_agrees. Qed.

Section WithIteration.
Variable set_iter : gset string → list string.

Lemma focus_first_selected_frame a :
  captions (focus_first_selected set_iter a) = captions a
  ∧ tag_frequency (focus_first_selected set_iter a) = tag_frequency a
  ∧ all_tags (focus_first_selected set_iter a) = all_tags a.
Proof. unfold focus_first_selected. by destruct (set_iter _). Qed.

Lemma add_tag_to_selected_agrees text a d :
  index_agrees a → index_agrees (add_tag_to_selected set_iter text a d).1.
Proof.
  intros Ha. unfold add_tag_to_selected.
  destruct (_ && _); [|done].
  pose proof (foldl_state_inv index_agrees (add_tag_step (PyStr.strip text))
                (set_iter (selected_images a))
                (λ a b p, add_tag_step_agrees _ a b p) a d Ha) as H.
  destruct (foldl _ _ _) as [a' d']. cbn [fst] in *.
  apply update_tag_list_agrees.
  eapply index_agrees_eq; [apply focus_first_selected_frame..|done].
Qed.

Lemma remove_tag_from_selected_agrees text a d :
  index_agrees a → index_agrees (remove_tag_from_selected set_iter text a d).1.
Proof.
  intros Ha. unfold remove_tag_from_selected.
  destruct (_ && _); [|done].
  pose proof (foldl_state_inv index_agrees (remove_tag_step (PyStr.strip text))
                (set_iter (selected_images a))
                (λ a b p, remove_tag_step_agrees _ a b p) a d Ha) as H.
  destruct (foldl _ _ _) as [a' d']. cbn [fst] in *.
  apply update_tag_list_agrees.
  eapply index_agrees_eq; [apply focus_first_selected_frame..|done].
Qed.

End WithIteration.

Lemma occurrences_perm tag c p tags :
  c !! p = Some tags → ∀ tags', tags' ≡ₚ tags →
  occurrences tag (<[p := tags']> c) = occurrences tag c.
Proof.
  intros Hp tags' Hperm.
  pose proof (occurrences_insert tag c p tags') as H.
  unfold get_tags in H. rewrite Hp in H. simpl in H.
  rewrite (tag_count_perm tag _ _ Hperm) in H. lia.
Qed.

Lemma sort_tags_agrees key a d :
  index_agrees a → index_agrees (sort_tags key a d).1.
Proof.
  intros [Hf Hs]. unfold sort_tags. destruct (focus_image_path a) as [p|]; [|done].
  destruct (bool_decide (p ≠ "") && _) eqn:Hcond; [|done].
  apply andb_true_iff in Hcond as [_ [tags Hp]%bool_decide_eq_true].
  split; [|done]. intros tag. cbn.
  rewrite (occurrences_perm tag _ p tags Hp); [apply Hf|].
  unfold sorted_by, get_tags. rewrite Hp. apply merge_sort_Permutation.
Qed.

(** The tags of a caption that leaves the captions leave the index one
    occurrence at a time. *)
Lemma forget_caption_agrees (c : gmap string (list string)) p tags freq :
  c !! p = None →
  (∀ t, freq !! t = if decide (occurrences t (<[p := tags]> c) = 0%nat) then None
                    else Some (Z.of_nat (occurrences t (<[p := tags]> c)))) →
  ∀ t, foldl dd_forget freq tags !! t
       = if decide (occurrences t c = 0%nat) then None
         else Some (Z.of_nat (occurrences t c)).
Proof.
  intros Hp. revert freq. induction tags as [|tag tags IH]; intros freq Hfreq t.
  - simpl. rewrite Hfreq. rewrite occurrences_insert_fresh by done. done.
  - simpl. apply IH. intros t'.
    pose proof (forget_one_agrees (<[p := tag :: tags]> c) freq tag p Hfreq) as H.
    unfold get_tags in H. rewrite lookup_insert_eq in H. simpl in H.
    rewrite decide_True in H by done. rewrite insert_insert_eq in H.
    apply H. by left.
Qed.

Lemma drop_image_agrees_freq a p :
  freq_agrees a → freq_agrees (drop_image a p).
Proof.
  unfold freq_agrees. intros Hf. unfold drop_image.
  set (a1 := if mem p (images a) then _ else a).
  assert (captions a1 = captions a ∧ tag_frequency a1 = tag_frequency a) as [Hc1 Hf1].
  { unfold a1. by destruct (mem p (images a)). }
  rewrite Hc1. destruct (captions a !! p) as [tags|] eqn:Hp.
  - cbn. rewrite Hf1.
    apply (forget_caption_agrees _ p tags); [apply lookup_delete_eq|].
    intros t. rewrite insert_delete_id by done. apply Hf.
  - rewrite Hc1, Hf1. apply Hf.
Qed.


Lemma foldl_drop_image_agrees l a :
  freq_agrees a → freq_agrees (foldl drop_image a l).
Proof.
  revert a. induction l as [|p l IH]; intros a Ha; [done|].
  simpl. apply IH. by apply drop_image_agrees_freq.
Qed.

Lemma move_selection_agrees set_iter dest_dir a d :
  index_agrees a → index_agrees (move_selection set_iter dest_dir a d).1.
Proof.
  intros Ha. unfold move_selection.
  destruct (bool_decide (selected_images a = ∅)); [done|].
  destruct (bool_decide (dest_dir = "")); [done|].
  destruct (foldl _ _ _) as [d' moved]. cbn [fst].
  apply populate_gallery_agrees.
  set (a1 := foldl drop_image a moved).
  assert (freq_agrees a1) as H1.
  { apply foldl_drop_image_agrees. apply Ha. }
  eapply (index_agrees_eq (update_tag_list _)); [done..|].
  apply update_tag_list_agrees. split; [apply H1|done].
Qed.

Lemma copy_selection_state set_iter dest_dir a d :
  (copy_selection set_iter dest_dir a d).1 = a.
Proof.
  unfold copy_selection.
  destruct (bool_decide _); [done|]. by destruct (bool_decide _).
Qed.

Lemma filter_images_agrees items a :
  index_agrees a → index_agrees (filter_images items a).
Proof.
  intros Ha. unfold filter_images. destruct items; [done|].
  apply populate_gallery_agrees. by apply (index_agrees_eq a).
Qed.

Lemma ignore_tags_agrees items a :
  index_agrees a → index_agrees (ignore_tags items a).
Proof.
  intros Ha. unfold ignore_tags. destruct items; [done|].
  apply populate_gallery_agrees. by apply (index_agrees_eq a).
Qed.

Lemma perform_agrees set_iter act a d :
  index_agrees a → index_agrees (perform set_iter act (a, d)).1.
Proof.
  intros Ha. destruct act; cbn [perform fst].
  - by apply (index_agrees_eq a); [unfold image_clicked; destruct (bool_decide _)..|].
  - apply update_gallery_agrees. by apply (index_agrees_eq a).
  - apply update_gallery_agrees. by apply (index_agrees_eq a).
  - apply update_gallery_agrees. by apply (index_agrees_eq a).
  - by apply add_tag_to_selected_agrees.
  - by apply remove_tag_from_selected_agrees.
  - by apply (index_agrees_eq a); [destruct checked..|].
  - by apply filter_images_agrees.
  - by apply ignore_tags_agrees.
  - apply populate_gallery_agrees. by apply (index_agrees_eq a).
  - by apply sort_tags_agrees.
  - by apply sort_tags_agrees.
  - by rewrite copy_selection_state.
  - by apply move_selection_agrees.
  - by apply (index_agrees_eq a).
Qed.

Lemma perform_all_cons set_iter act acts w :
  perform_all set_iter (act :: acts) w
  = perform_all set_iter acts (perform set_iter act w).
Proof. done. Qed.

Lemma perform_all_agrees set_iter acts a d :
  index_agrees a → index_agrees (perform_all set_iter acts (a, d)).1.
Proof.
  revert a d. induction acts as [|act acts IH]; intros a d Ha; [done|].
  rewrite perform_all_cons.
  pose proof (perform_agrees set_iter act a d Ha) as H.
  destruct (perform set_iter act (a, d)) as [a1 d1]. by apply IH.
Qed.


Lemma list_remove_nodup x l : NoDup l → NoDup (list_remove x l).
Proof. intros H. eapply sublist_NoDup; [done|apply list_remove_sublist]. Qed.

Lemma add_tag_step_nodup new_tag a d p :
  captions_nodup (captions a) →
  captions_nodup (captions (add_tag_step new_tag (a, d) p).1).
Proof.
  intros Ha. unfold add_tag_step.
  destruct (mem new_tag (get_tags (captions a) p)) eqn:Hmem; [done|].
  apply mem_false in Hmem. cbn. apply captions_nodup_insert; [done|].
  apply NoDup_app. split_and!.
  - by apply get_tags_nodup.
  - intros x Hx ->%list_elem_of_singleton. done.
  - apply NoDup_singleton.
Qed.

Lemma forget_tag_captions tag a : captions (forget_tag tag a) = captions a.
Proof.
  unfold forget_tag. destruct (dd_get _ _) as [v freq].
  destruct (bool_decide (0 < v)); [|done]. by destruct (bool_decide _).
Qed.

Lemma remove_tag_step_nodup tag a d p :
  captions_nodup (captions a) →
  captions_nodup (captions (remove_tag_step tag (a, d) p).1).
Proof.
  intros Ha. unfold remove_tag_step.
  destruct (mem tag (get_tags (captions a) p)); [|done].
  cbn [fst]. rewrite forget_tag_captions. cbn.
  apply captions_nodup_insert; [done|].
  apply list_remove_nodup. by apply get_tags_nodup.
Qed.

Lemma captions_nodup_delete c p : captions_nodup c → captions_nodup (delete p c).
Proof.
  intros Hc q l Hq. apply (Hc q).
  apply lookup_delete_Some in Hq. tauto.
Qed.

Lemma drop_image_nodup a p :
  captions_nodup (captions a) → captions_nodup (captions (drop_image a p)).
Proof.
  intros Ha. unfold drop_image.
  set (a1 := if mem p (images a) then _ else a).
  assert (captions a1 = captions a) as Hc1.
  { unfold a1. by destruct (mem p (images a)). }
  rewrite Hc1. destruct (captions a !! p); cbn.
  - by apply captions_nodup_delete.
  - by rewrite Hc1.
Qed.

Lemma update_tag_list_captions a : captions (update_tag_list a) = captions a.
Proof. apply update_tag_list_frame. Qed.

Lemma populate_gallery_captions imgs a :
  captions (populate_gallery imgs a) = captions a.
Proof. unfold populate_gallery. cbn. apply update_tag_list_captions. Qed.

Lemma update_gallery_captions a : captions (update_gallery a) = captions a.
Proof.
  unfold update_gallery. destruct (filter_active a); apply populate_gallery_captions.
Qed.

Lemma perform_nodup set_iter act a d :
  captions_nodup (captions a) →
  captions_nodup (captions (perform set_iter act (a, d)).1).
Proof.
  intros Ha. destruct act; cbn [perform fst].
  - unfold image_clicked. by destruct (bool_decide _).
  - unfold select_all_images. by rewrite update_gallery_captions.
  - unfold deselect_all_images. by rewrite update_gallery_captions.
  - unfold invert_selection. by rewrite update_gallery_captions.
  - unfold add_tag_to_selected. destruct (_ && _); [|done].
    pose proof (foldl_state_inv (λ a, captions_nodup (captions a))
                  (add_tag_step (PyStr.strip text)) (set_iter (selected_images a))
                  (λ a b p, add_tag_step_nodup _ a b p) a d Ha) as H.
    destruct (foldl _ _ _) as [a' d']. cbn [fst] in *.
    rewrite update_tag_list_captions.
    by rewrite (proj1 (focus_first_selected_frame _ _)).
  - unfold remove_tag_from_selected. destruct (_ && _); [|done].
    pose proof (foldl_state_inv (λ a, captions_nodup (captions a))
                  (remove_tag_step (PyStr.strip text)) (set_iter (selected_images a))
                  (λ a b p, remove_tag_step_nodup _ a b p) a d Ha) as H.
    destruct (foldl _ _ _) as [a' d']. cbn [fst] in *.
    rewrite update_tag_list_captions.
    by rewrite (proj1 (focus_first_selected_frame _ _)).
  - by destruct checked.
  - unfold filter_images. destruct selected_items; [done|].
    by rewrite populate_gallery_captions.
  - unfold ignore_tags. destruct selected_items; [done|].
    by rewrite populate_gallery_captions.
  - unfold clear_filter. by rewrite populate_gallery_captions.
  - unfold sort_tags_high, sort_tags. destruct (focus_image_path a) as [p|]; [|done].
    destruct (_ && _); [|done]. cbn. apply captions_nodup_insert; [done|].
    unfold sorted_by. rewrite merge_sort_Permutation. by apply get_tags_nodup.
  - unfold sort_tags_low, sort_tags. destruct (focus_image_path a) as [p|]; [|done].
    destruct (_ && _); [|done]. cbn. apply captions_nodup_insert; [done|].
    unfold sorted_by. rewrite merge_sort_Permutation. by apply get_tags_nodup.
  - by rewrite copy_selection_state.
  - unfold move_selection.
    destruct (bool_decide (selected_images a = ∅)); [done|].
    destruct (bool_decide (dest_dir = "")); [done|].
    destruct (foldl _ _ _) as [d' moved]. cbn [fst].
    rewrite populate_gallery_captions. cbn.
    rewrite update_tag_list_captions. cbn.
    clear d'. revert a Ha. induction moved as [|p l IH]; intros a Ha; [done|].
    simpl. apply IH. by apply drop_image_nodup.
  - done.
Qed.

Lemma perform_all_nodup set_iter acts a d :
  captions_nodup (captions a) →
  captions_nodup (captions (perform_all set_iter acts (a, d)).1).
Proof.
  revert a d. induction acts as [|act acts IH]; intros a d Ha; [done|].
  rewrite perform_all_cons.
  pose proof (perform_nodup set_iter act a d Ha) as H.
  destruct (perform set_iter act (a, d)) as [a1 d1]. by apply IH.
Qed.

End TagIndex.

(** ** Loading a directory *)

Module Loading.
Import DatCure TagIndex.

Implicit Types (a : app) (d : Disk.disk).

Lemma foldl_count_tag_frame a tags :
  images (foldl count_tag a tags) = images a
  ∧ captions (foldl count_tag a tags) = captions a
  ∧ selected_images (foldl count_tag a tags) = selected_images a
  ∧ filtered_images (foldl count_tag a tags) = filtered_images a
  ∧ filter_active (foldl count_tag a tags) = filter_active a
  ∧ gallery (foldl count_tag a tags) = gallery a.
Proof.
  revert a. induction tags as [|t tags IH]; intros a; [done|].
  simpl. destruct (IH (count_tag a t)) as (-> & -> & -> & -> & -> & ->). done.
Qed.

Lemma exists_lookup d p : Disk.exists_ d p = true ↔ is_Some (Disk.files d !! p).
Proof. unfold Disk.exists_. apply bool_decide_eq_true. Qed.

Lemma read_None d p : Disk.exists_ d p = false → Disk.read d p = None.
Proof.
  unfold Disk.exists_, Disk.read. intros H%bool_decide_eq_false.
  destruct (Disk.files d !! p); [|done]. destruct H. eauto.
Qed.

Lemma read_Some d p : Disk.exists_ d p = true → is_Some (Disk.read d p).
Proof. intros [bytes H]%exists_lookup. unfold Disk.read. rewrite H. by eexists. Qed.

(** One image file whose caption path can be opened, or does not exist. *)
Lemma load_file_loaded d root dirs files a l file :
  is_image file = true → caption_opens d root dirs files file →
  load_file d root dirs files (Loaded a l) file
  = Loaded (load_one d a (OsPath.join root file)) (l ++ [OsPath.join root file]).
Proof.
  intros Himg Hopen. unfold load_file, load_one, read_caption. rewrite Himg.
  destruct (exists_beside _ _ _ _ _) eqn:Hex.
  - destruct (read_Some _ _ (Hopen Himg Hex)) as [text ->]. done.
  - apply orb_false_iff in Hex as [Hex _]. by rewrite (read_None _ _ Hex).
Qed.

(** One image file whose caption path exists and cannot be opened. *)
Lemma load_file_failed d root dirs files a l file :
  is_image file = true → ¬ caption_opens d root dirs files file →
  load_file d root dirs files (Loaded a l) file = Failed a.
Proof.
  intros Himg Hno. unfold load_file. rewrite Himg.
  destruct (exists_beside _ _ _ _ _) eqn:Hex.
  - destruct (Disk.exists_ d (caption_path (OsPath.join root file))) eqn:Hd.
    + destruct Hno. by intros _ _.
    + by rewrite (read_None _ _ Hd).
  - destruct Hno. intros _ Hex'. congruence.
Qed.

Lemma load_file_other d root dirs files w file :
  is_image file = false → load_file d root dirs files w file = w.
Proof. intros Himg. unfold load_file. rewrite Himg. by destruct w. Qed.

Lemma load_files_stay_failed d root dirs files fs a :
  foldl (load_file d root dirs files) (Failed a) fs = Failed a.
Proof. induction fs as [|file fs IH]; [done|]. cbn [foldl]. apply IH. Qed.

Lemma load_walk_stay_failed d (w : list (string * list string * list string)) a :
  foldl (λ w '(root, dirs, files), foldl (load_file d root dirs files) w files)
        (Failed a) w
  = Failed a.
Proof.
  induction w as [|[[root dirs] files] w IH]; [done|]. cbn [foldl].
  by rewrite load_files_stay_failed.
Qed.

(** The files [fs] of one directory: when all the captions open, every
    image among them is loaded in turn and joins [loaded_images]; when
    one does not, the images before it are loaded and the run ends. *)
Lemma load_files_spec d root dirs files fs : ∀ a l,
  let ps := OsPath.join root <$> filter (λ file, is_image file = true) fs in
  match foldl (load_file d root dirs files) (Loaded a l) fs with
  | Loaded a' l' =>
      Forall (caption_opens d root dirs files) fs
      ∧ a' = foldl (load_one d) a ps ∧ l' = l ++ ps
  | Failed a' =>
      ¬ Forall (caption_opens d root dirs files) fs
      ∧ ∃ ps', ps' `prefix_of` ps ∧ a' = foldl (load_one d) a ps'
  end.
Proof.
  induction fs as [|file fs IH]; intros a l ps; subst ps.
  { cbn. by rewrite app_nil_r. }
  cbn [foldl]. rewrite filter_cons. destruct (is_image file) eqn:Himg.
  - rewrite decide_True by done. cbn [fmap list_fmap].
    destruct (decide (caption_opens d root dirs files file)) as [Hopen|Hno].
    + rewrite load_file_loaded by done.
      specialize (IH (load_one d a (OsPath.join root file))
                     (l ++ [OsPath.join root file])).
      cbn zeta in IH. destruct (foldl _ _ fs) as [a' l'|a'].
      * destruct IH as (Hall & -> & ->). split_and!; [by constructor|done|].
        by rewrite <- app_assoc.
      * destruct IH as (Hall & ps' & Hpre & ->). split.
        -- intros [_ ?]%Forall_cons. done.
        -- exists (OsPath.join root file :: ps'). split; [|done].
           by apply prefix_cons.
    + rewrite load_file_failed by done. rewrite load_files_stay_failed. split.
      * intros [? _]%Forall_cons. done.
      * exists []. split; [apply prefix_nil|done].
  - rewrite decide_False by done. rewrite load_file_other by done.
    specialize (IH a l). cbn zeta in IH.
    destruct (foldl _ _ fs) as [a' l'|a'].
    + destruct IH as (Hall & -> & ->). split_and!; [|done..].
      constructor; [|done]. intros Himg'. congruence.
    + destruct IH as (Hall & ps' & Hpre & ->). split; [|by eauto].
      intros [_ ?]%Forall_cons. done.
Qed.

Lemma load_walk_spec d (w : list (string * list string * list string)) : ∀ a l,
  let ps := '(root, _, files) ← w;
            OsPath.join root <$> filter (λ file, is_image file = true) files in
  match foldl (λ w '(root, dirs, files),
                 foldl (load_file d root dirs files) w files) (Loaded a l) w with
  | Loaded a' l' =>
      Forall (λ '(root, dirs, files),
                Forall (caption_opens d root dirs files) files) w
      ∧ a' = foldl (load_one d) a ps ∧ l' = l ++ ps
  | Failed a' =>
      ¬ Forall (λ '(root, dirs, files),
                  Forall (caption_opens d root dirs files) files) w
      ∧ ∃ ps', ps' `prefix_of` ps ∧ a' = foldl (load_one d) a ps'
  end.
Proof.
  induction w as [|[[root dirs] files] w IH]; intros a l ps; subst ps.
  { cbn. by rewrite app_nil_r. }
  cbn [foldl mbind list_bind].
  pose proof (load_files_spec d root dirs files files a l) as Hfiles.
  cbn zeta in Hfiles.
  destruct (foldl (load_file d root dirs files) (Loaded a l) files) as [a1 l1|a1].
  - destruct Hfiles as (Hall & -> & ->).
    match goal with
    | |- match foldl ?f (Loaded ?a1 ?l1) w with _ => _ end =>
        specialize (IH a1 l1); cbn zeta in IH; destruct (foldl f (Loaded a1 l1) w) as [a' l'|a']
    end.
    + destruct IH as (Hall' & -> & ->). split_and!; [by constructor| |].
      * by rewrite foldl_app.
      * by rewrite <- app_assoc.
    + destruct IH as (Hall' & ps' & Hpre & ->). split.
      * intros [_ ?]%Forall_cons. done.
      * eexists (_ ++ ps'). split; [by apply prefix_app|]. by rewrite foldl_app.
  - rewrite load_walk_stay_failed. destruct Hfiles as (Hall & ps' & Hpre & ->).
    split.
    + intros [? _]%Forall_cons. done.
    + exists ps'. split; [|done]. by apply prefix_app_r.
Qed.

(** A worker whose captions all open: every image the walk comes across
    is loaded in turn, and the list of them is returned and becomes
    [self.images]. *)
Lemma load_images_thread_open dir_path t d a :
  captions_open d dir_path t →
  load_images_thread dir_path t d a
  = (set_images (scan_images dir_path t)
       (foldl (load_one d) a (scan_images dir_path t)),
     Some (scan_images dir_path t)).
Proof.
  intros Hopen. unfold load_images_thread.
  pose proof (load_walk_spec d (Disk.walk dir_path t) a []) as H.
  cbn zeta in H. destruct (foldl _ _ _) as [a' l'|a'].
  - by destruct H as (_ & -> & ->).
  - by destruct H as [H _].
Qed.

(** A worker that meets a caption that does not open: the images before
    it are loaded, nothing is returned and [self.images] is left as it
    was. *)
Lemma load_images_thread_raises dir_path t d a :
  ¬ captions_open d dir_path t →
  ∃ ps, ps `prefix_of` scan_images dir_path t
        ∧ load_images_thread dir_path t d a = (foldl (load_one d) a ps, None).
Proof.
  intros Hno. unfold load_images_thread.
  pose proof (load_walk_spec d (Disk.walk dir_path t) a []) as H.
  cbn zeta in H. destruct (foldl _ _ _) as [a' l'|a'].
  - by destruct H as (H & _).
  - destruct H as (_ & ps & Hpre & ->). by exists ps.
Qed.

(** In either case the state is that of the images loaded so far. *)
Lemma load_images_thread_state dir_path t d a :
  ∃ ps, ps `prefix_of` scan_images dir_path t
        ∧ ((load_images_thread dir_path t d a).1 = foldl (load_one d) a ps
           ∨ (load_images_thread dir_path t d a).1
             = set_images (scan_images dir_path t) (foldl (load_one d) a ps)).
Proof.
  destruct (decide (captions_open d dir_path t)) as [Hopen|Hno].
  - exists (scan_images dir_path t). split; [done|]. right.
    by rewrite load_images_thread_open.
  - destruct (load_images_thread_raises dir_path t d a Hno) as (ps & Hpre & ->).
    exists ps. split; [done|]. by left.
Qed.

Lemma count_tags_lookup tags : ∀ a (n : string → nat),
  (∀ t, tag_frequency a !! t
        = if decide (n t = 0%nat) then None else Some (Z.of_nat (n t))) →
  ∀ t, tag_frequency (foldl count_tag a tags) !! t
       = if decide ((n t + tag_count t tags)%nat = 0%nat) then None
         else Some (Z.of_nat (n t + tag_count t tags)).
Proof.
  induction tags as [|tag tags IH]; intros a n Hn t.
  - cbn [foldl]. rewrite Hn. change (tag_count t []) with 0%nat.
    by rewrite Nat.add_0_r.
  - cbn [foldl].
    rewrite (IH (count_tag a tag)
               (λ t, (n t + (if decide (t = tag) then 1 else 0))%nat)).
    + unfold tag_count. rewrite filter_cons. cbn beta.
      destruct (decide (tag = t)) as [->|Hne].
      * rewrite (decide_True (P := t = t)) by done. cbn [length].
        replace (n t + 1 + length (filter (λ t0, t0 = t) tags))%nat
          with (n t + S (length (filter (λ t0, t0 = t) tags)))%nat by lia. done.
      * rewrite (decide_False (P := t = tag)) by done.
        replace (n t + 0 + length (filter (λ t0, t0 = t) tags))%nat
          with (n t + length (filter (λ t0, t0 = t) tags))%nat by lia. done.
    + intros t'. cbn. rewrite dd_incr_lookup.
      destruct (decide (t' = tag)) as [->|Hne].
      * rewrite Hn.
        rewrite (decide_False (P := (n tag + 1)%nat = 0%nat)) by lia. f_equal.
        destruct (decide (n tag = 0%nat)) as [->|]; simpl; lia.
      * rewrite Hn. by rewrite Nat.add_0_r.
Qed.

Lemma count_tags_all_tags tags : ∀ a,
  all_tags a = dom (tag_frequency a) →
  all_tags (foldl count_tag a tags) = dom (tag_frequency (foldl count_tag a tags)).
Proof.
  induction tags as [|tag tags IH]; intros a Ha; [done|].
  cbn [foldl]. apply IH. cbn. by rewrite dd_incr_dom, Ha.
Qed.

Lemma load_one_captions d a p :
  captions (load_one d a p) = <[p := read_caption d p]> (captions a).
Proof. unfold load_one. by rewrite (proj1 (proj2 (foldl_count_tag_frame _ _))). Qed.

Lemma load_one_agrees d a p :
  captions a !! p = None → index_agrees a → index_agrees (load_one d a p).
Proof.
  intros Hp [Hf Hs]. split.
  - intros t. rewrite load_one_captions. rewrite occurrences_insert_fresh by done.
    unfold load_one.
    rewrite (count_tags_lookup _ _ (λ t, occurrences t (captions a))) by apply Hf.
    by rewrite (Nat.add_comm (tag_count _ _)).
  - unfold load_one. by apply count_tags_all_tags.
Qed.

Lemma load_all_captions d ps : ∀ a p,
  captions (foldl (load_one d) a ps) !! p
  = if decide (p ∈ ps) then Some (read_caption d p) else captions a !! p.
Proof.
  induction ps as [|q ps IH]; intros a p; cbn [foldl].
  - by rewrite decide_False by apply not_elem_of_nil.
  - rewrite IH. rewrite load_one_captions.
    destruct (decide (p ∈ ps)) as [Hin|Hnin].
    + rewrite decide_True; [done|by right].
    + destruct (decide (p = q)) as [->|Hne].
      * rewrite lookup_insert_eq. rewrite decide_True; [done|by left].
      * rewrite lookup_insert_ne by done.
        rewrite decide_False; [done|]. rewrite not_elem_of_cons. done.
Qed.

Lemma load_all_agrees d ps : ∀ a,
  NoDup ps → (∀ p, p ∈ ps → captions a !! p = None) →
  index_agrees a → index_agrees (foldl (load_one d) a ps).
Proof.
  induction ps as [|q ps IH]; intros a Hnd Hfresh Ha; [done|].
  cbn [foldl]. apply NoDup_cons in Hnd as [Hq Hnd]. apply IH; [done| |].
  - intros p Hp. rewrite load_one_captions, lookup_insert_ne.
    + apply Hfresh. by right.
    + intros ->. done.
  - apply load_one_agrees; [|done]. apply Hfresh. by left.
Qed.

Lemma index_agrees_reset a : index_agrees (load_images a).
Proof.
  split; [|by cbn; rewrite dom_empty_L].
  intros t. cbn. by rewrite occurrences_empty, lookup_empty.
Qed.

(** A load that runs alone, from the reset state to its end, leaves an
    index that agrees with the captions it has read. *)
Lemma load_establishes_index dir_path t d a :
  NoDup (scan_images dir_path t) →
  index_agrees (load_images_thread dir_path t d (load_images a)).1.
Proof.
  intros Hnd.
  destruct (load_images_thread_state dir_path t d (load_images a))
    as (ps & [suf Hpre] & Hstate).
  assert (index_agrees (foldl (load_one d) (load_images a) ps)) as Hagree.
  { apply load_all_agrees; [|by intros p _; apply lookup_empty
                            |apply index_agrees_reset].
    rewrite Hpre in Hnd. by apply NoDup_app in Hnd as [? _]. }
  destruct Hstate as [-> | ->]; [done|].
  by eapply index_agrees_eq; [..|exact Hagree].
Qed.


Lemma load_all_images d ps : ∀ a, images (foldl (load_one d) a ps) = images a.
Proof.
  induction ps as [|p ps IH]; intros a; [done|]. cbn [foldl]. rewrite IH.
  unfold load_one. by rewrite (proj1 (foldl_count_tag_frame _ _)).
Qed.




(** A directory [x.txt] beside [x.png]: the caption path exists and
    cannot be opened, and the worker stores no image. *)
Example load_images_thread_raises_example :
  let found := Disk.Dir ["x.png"; "y.png"] [("x.txt", Disk.Dir [] [])] in
  load_images_thread "/d" found Samples.disk_one (load_images init)
  = (load_images init, None).
Proof. vm_compute. reflexivity. Qed.

(** *** Overlapping loads *)

Lemma handle_open set_iter dir_path s :
  handle set_iter (OpenDirectory dir_path) s
  = Session (load_images (state s)) (disk s) (workers s ++ [dir_path])
            (detach (images (state s)) <$> results s).
Proof. done. Qed.

Lemma handle_worker set_iter i found s dir_path :
  workers s !! i = Some dir_path → captions_open (disk s) dir_path found →
  handle set_iter (WorkerRuns i found) s
  = Session (set_images (scan_images dir_path found)
               (foldl (load_one (disk s)) (state s) (scan_images dir_path found)))
            (disk s) (delete i (workers s))
            ((detach (images (state s)) <$> results s) ++ [SelfImages]).
Proof.
  intros Hi Hopen. unfold handle. rewrite Hi.
  by rewrite load_images_thread_open.
Qed.

Lemma handle_worker_raises set_iter i found s dir_path :
  workers s !! i = Some dir_path → ¬ captions_open (disk s) dir_path found →
  ∃ ps, ps `prefix_of` scan_images dir_path found
        ∧ handle set_iter (WorkerRuns i found) s
          = Session (foldl (load_one (disk s)) (state s) ps) (disk s)
                    (delete i (workers s)) (results s).
Proof.
  intros Hi Hno. unfold handle. rewrite Hi.
  destruct (load_images_thread_raises dir_path found (disk s) (state s) Hno)
    as (ps & Hpre & ->).
  by exists ps.
Qed.




End Loading.

(** ** Editing tags *)

Module TagEdits.
Import DatCure TagIndex Loading.

Lemma run_cons set_iter e es s :
  run set_iter (e :: es) s = run set_iter es (handle set_iter e s).
Proof. done. Qed.

Lemma run_app set_iter es1 es2 s :
  run set_iter (es1 ++ es2) s = run set_iter es2 (run set_iter es1 s).
Proof. unfold run. apply foldl_app. Qed.

Lemma run_user_actions set_iter acts : ∀ s,
  run set_iter (User <$> acts) s
  = Session (perform_all set_iter acts (state s, disk s)).1
            (perform_all set_iter acts (state s, disk s)).2
            (workers s) (results s).
Proof.
  induction acts as [|act acts IH]; intros s; [by destruct s|].
  rewrite fmap_cons, run_cons, IH, perform_all_cons. unfold handle.
  by destruct (perform set_iter act (state s, disk s)) as [a1 d1].
Qed.

(** A session in which a directory is opened and loaded before the user
    does anything else has an index that agrees with the captions, whatever
    the user does afterwards. *)
Lemma quiet_load_index_agrees set_iter a d dir_path found acts :
  NoDup (scan_images dir_path found) →
  index_agrees
    (state (run set_iter
              ([OpenDirectory dir_path; WorkerRuns 0 found; ResultArrives]
               ++ (User <$> acts))
              (Session a d [] []))).
Proof.
  intros Hnd. rewrite run_app, run_user_actions. cbn [state].
  apply perform_all_agrees.
  rewrite !run_cons, handle_open. cbn [state disk workers results].
  pose proof (load_establishes_index dir_path found d a Hnd) as Hload.
  unfold run, handle.
  cbn [foldl state disk workers results List.app lookup list_lookup].
  destruct (load_images_thread dir_path found d (load_images a)) as [a1 [l|]];
    cbn [foldl state results fmap list_fmap List.app fst] in *.
  - by apply populate_gallery_agrees.
  - done.
Qed.

(** C1, amended.  From a state in which the tag index agrees with the
    captions, as a load that ran alone leaves it
    ([quiet_load_index_agrees]), every sequence of tag additions and
    removals (with any other actions on the loaded images in between) ends
    in a state where the frequency of a tag is the number of its
    occurrences in the captions, where no tag has a zero or negative count,
    and where [all_tags] holds exactly the tags that have a count.  The
    number of occurrences of a tag is the number of images that carry it
    when no caption lists a tag twice. *)
Theorem tag_index_follows_edits set_iter acts a d :
  index_agrees a →
  let a' := (perform_all set_iter acts (a, d)).1 in
  (∀ tag, tag_frequency a' !! tag
          = if decide (occurrences tag (captions a') = 0%nat) then None
            else Some (Z.of_nat (occurrences tag (captions a'))))
  ∧ (∀ tag n, tag_frequency a' !! tag = Some n → 0 < n)
  ∧ all_tags a' = dom (tag_frequency a')
  ∧ (captions_nodup (captions a) →
     ∀ tag, occurrences tag (captions a') = images_with tag (captions a')).
Proof.
  intros Ha a'.
  destruct (perform_all_agrees set_iter acts a d Ha) as [Hf Hs].
  fold a' in Hf, Hs. split_and!; [exact Hf| |exact Hs|].
  - intros tag n. rewrite Hf. destruct (decide _); [done|]. intros [= <-]. lia.
  - intros Hnd tag. apply occurrences_images_with.
    by apply perform_all_nodup.
Qed.

Lemma tag_index_follows_edits_witness :
  let a' := (perform_all Samples.iter [SelectAll; AddTag "pet"; RemoveTag "cat"]
               (Samples.loaded_pets, Samples.disk_pets)).1 in
  (∀ tag, tag_frequency a' !! tag
          = if decide (occurrences tag (captions a') = 0%nat) then None
            else Some (Z.of_nat (occurrences tag (captions a'))))
  ∧ (∀ tag n, tag_frequency a' !! tag = Some n → 0 < n)
  ∧ all_tags a' = dom (tag_frequency a')
  ∧ (captions_nodup (captions Samples.loaded_pets) →
     ∀ tag, occurrences tag (captions a') = images_with tag (captions a')).
Proof.
  apply (tag_index_follows_edits Samples.iter
           [SelectAll; AddTag "pet"; RemoveTag "cat"]
           Samples.loaded_pets Samples.disk_pets).
  apply load_establishes_index.
  by_evaluation.
Defined.

(** C1 as stated fails after a load of a caption file that repeats a tag:
    both occurrences are counted, and adding another tag to the image
    leaves the count of the repeated tag at 2 while one image carries
    it. *)
Lemma tag_index_counterexample :
  let s := run Samples.iter
             [OpenDirectory "/d"; WorkerRuns 0 Samples.tree_dup; ResultArrives;
              User (ImageClicked "/d/x.png"); User (AddTag "b")]
             (start Samples.disk_dup) in
  ¬ (tag_frequency (state s) !! "a"
     = Some (Z.of_nat (images_with "a" (captions (state s))))).
Proof. vm_compute. intros [=]. Qed.

Section Frame.
Variable set_iter : gset string → list string.

Lemma add_tag_step_view new_tag a d p :
  view (add_tag_step new_tag (a, d) p).1 = view a.
Proof.
  unfold add_tag_step. by destruct (mem _ _).
Qed.

Lemma forget_tag_view tag a : view (forget_tag tag a) = view a.
Proof.
  unfold forget_tag. destruct (dd_get _ _) as [v freq].
  destruct (bool_decide (0 < v)); [|done]. by destruct (bool_decide _).
Qed.

Lemma remove_tag_step_view tag a d p :
  view (remove_tag_step tag (a, d) p).1 = view a.
Proof.
  unfold remove_tag_step. destruct (mem _ _); [|done].
  cbn [fst]. by rewrite forget_tag_view.
Qed.

Lemma update_tag_list_view a : view (update_tag_list a) = view a.
Proof.
  unfold view. destruct (update_tag_list_frame a)
    as (-> & _ & _ & _ & -> & -> & _ & _ & _ & ->). done.
Qed.

Lemma focus_first_selected_view a : view (focus_first_selected set_iter a) = view a.
Proof. unfold focus_first_selected. by destruct (set_iter _). Qed.

Lemma add_tag_to_selected_view text a d :
  view (add_tag_to_selected set_iter text a d).1 = view a.
Proof.
  unfold add_tag_to_selected. destruct (_ && _); [|done].
  pose proof (foldl_state_inv (λ a', view a' = view a)
                (add_tag_step (PyStr.strip text)) (set_iter (selected_images a))
                (λ a' b p H, eq_trans (add_tag_step_view _ a' b p) H)
                a d eq_refl) as H.
  destruct (foldl _ _ _) as [a' d']. cbn [fst] in *.
  by rewrite update_tag_list_view, focus_first_selected_view.
Qed.

Lemma remove_tag_from_selected_view text a d :
  view (remove_tag_from_selected set_iter text a d).1 = view a.
Proof.
  unfold remove_tag_from_selected. destruct (_ && _); [|done].
  pose proof (foldl_state_inv (λ a', view a' = view a)
                (remove_tag_step (PyStr.strip text)) (set_iter (selected_images a))
                (λ a' b p H, eq_trans (remove_tag_step_view _ a' b p) H)
                a d eq_refl) as H.
  destruct (foldl _ _ _) as [a' d']. cbn [fst] in *.
  by rewrite update_tag_list_view, focus_first_selected_view.
Qed.

(** Adding or removing a tag leaves [filter_active] and
    [filtered_images] as they were, and with them the active view and the
    thumbnails in the gallery: the filtered view is not recomputed. *)
Lemma tag_edits_frame text a d :
  let added := (add_tag_to_selected set_iter text a d).1 in
  let removed := (remove_tag_from_selected set_iter text a d).1 in
  (filter_active added = filter_active a
   ∧ filtered_images added = filtered_images a
   ∧ active_view added = active_view a
   ∧ gallery added = gallery a)
  ∧ (filter_active removed = filter_active a
     ∧ filtered_images removed = filtered_images a
     ∧ active_view removed = active_view a
     ∧ gallery removed = gallery a).
Proof.
  intros added removed.
  pose proof (add_tag_to_selected_view text a d) as Ha.
  pose proof (remove_tag_from_selected_view text a d) as Hr.
  fold added in Ha. fold removed in Hr. unfold view in Ha, Hr.
  injection Ha as Ha1 Ha2 Ha3 Ha4. injection Hr as Hr1 Hr2 Hr3 Hr4.
  unfold active_view. rewrite Ha1, Ha2, Ha3, Ha4, Hr1, Hr2, Hr3, Hr4. done.
Qed.

End Frame.

(** The view goes stale: after a filter on [cat], removing [cat] from the
    image in view leaves the image in the filtered view, though its caption
    matches the filter no more. *)
Example filtered_view_goes_stale :
  let a := filter_images ["cat (1)"]
             (populate_gallery (images Samples.loaded_pets) Samples.loaded_pets) in
  let a' := (perform_all Samples.iter [SelectAll; RemoveTag "cat"]
               (a, Samples.disk_pets)).1 in
  filtered_images a = ["/d/x.png"]
  ∧ filtered_images a' = ["/d/x.png"]
  ∧ get_tags (captions a') "/d/x.png" = ["dog"].
Proof. vm_compute. done. Qed.

End TagEdits.

(** ** Filtering *)

Module Filtering.
Import PyStr DatCure StringFacts TagIndex.

(** A loop that appends the elements passing a test is a filter. *)
Lemma foldl_append_filter {A} (keep : A → bool) (l : list A) : ∀ acc,
  foldl (λ acc x, if keep x then acc ++ [x] else acc) acc l
  = acc ++ filter (λ x, keep x = true) l.
Proof.
  induction l as [|x l IH]; intros acc; cbn [foldl].
  - by rewrite app_nil_r.
  - rewrite IH, filter_cons. destruct (keep x).
    + rewrite decide_True by done. by rewrite <- app_assoc.
    + by rewrite decide_False by done.
Qed.

Lemma any_tag_in_spec selected_tags image_tags :
  any_tag_in selected_tags image_tags = true
  ↔ Exists (λ t, t ∈ image_tags) selected_tags.
Proof.
  unfold any_tag_in. rewrite existsb_exists, Exists_exists.
  split; intros (t & Ht1 & Ht2); exists t.
  - by rewrite list_elem_of_In, <- mem_true.
  - by rewrite <- list_elem_of_In, mem_true.
Qed.

Lemma all_tags_in_spec selected_tags image_tags :
  all_tags_in selected_tags image_tags = true
  ↔ Forall (λ t, t ∈ image_tags) selected_tags.
Proof.
  unfold all_tags_in. rewrite forallb_forall, Forall_forall.
  split; intros H t Ht.
  - apply mem_true, H. by apply list_elem_of_In.
  - apply mem_true, H. by apply list_elem_of_In.
Qed.

Lemma none_tag_in_spec selected_tags image_tags :
  negb (any_tag_in selected_tags image_tags) = true
  ↔ Forall (λ t, t ∉ image_tags) selected_tags.
Proof.
  rewrite negb_true_iff, <- not_true_iff_false, any_tag_in_spec.
  rewrite <- Forall_Exists_neg. done.
Qed.

Lemma pretty_Z_no_blank (z : Z) : has_char " " (pretty z) = false.
Proof.
  destruct z as [|p|p]; [done| |].
  - apply (pretty_N_no_char _ (N.pos p)), blank_not_digit.
  - change (pretty (Z.neg p)) with ("-" +:+ pretty (N.pos p)).
    rewrite has_char_app. by rewrite pretty_N_no_char by apply blank_not_digit.
Qed.

Lemma rsplit1_no_first_char c sep s :
  has_char c s = false → rsplit1 (String c sep) s = None.
Proof.
  induction s as [|b s IH]; [done|]. simpl.
  intros [Hb Hs]%orb_false_iff. rewrite IH by done.
  apply bool_decide_eq_false in Hb.
  by rewrite (bool_decide_eq_false_2 (c = b)) by congruence.
Qed.

(** The tag of a tag-list item is the tag the item was made of. *)
Lemma item_tag_item_text tag freq : item_tag (item_text tag freq) = tag.
Proof.
  unfold item_tag, item_text.
  set (d := pretty freq +:+ ")").
  assert (has_char " " d = false) as Hd.
  { unfold d. by rewrite has_char_app, pretty_Z_no_blank. }
  assert (rsplit1 " (" (tag +:+ " (" +:+ d) = Some (tag, d)) as ->; [|done].
  induction tag as [|b tag IH].
  - rewrite str_app_nil_l.
    change (" (" +:+ d) with (String " " (String "(" d)).
    cbn [rsplit1]. rewrite (rsplit1_no_first_char " " "(" d Hd).
    cbn. rewrite Nat.sub_0_r. by rewrite substring_whole.
  - rewrite str_app_cons. cbn [rsplit1]. by rewrite IH.
Qed.

Lemma populate_gallery_filter imgs a :
  filtered_images (populate_gallery imgs a) = filtered_images a
  ∧ filter_active (populate_gallery imgs a) = filter_active a.
Proof.
  unfold populate_gallery. cbn.
  by destruct (update_tag_list_frame a) as (_ & _ & _ & _ & -> & -> & _).
Qed.

(** C3, amended.  With at least one tag chosen in the tag list, filtering
    keeps the images of the catalog in their order and retains exactly:
    in mode ["Inclusive"] the images whose caption holds one of the chosen
    tags, in the other mode (["Exclusive"]) those whose caption holds all
    of them, and for [ignore_tags] those whose caption holds none of them.
    With no tag chosen both handlers return at once and leave the state
    and its view as they were.  The chosen tags are the tags of the
    selected items. *)
Theorem filters_retain_matching_images a item items :
  let selected_items := item :: items in
  let chosen := item_tag <$> selected_items in
  let tags_of image_path := get_tags (captions a) image_path in
  (filter_mode a = "Inclusive" →
   filtered_images (filter_images selected_items a)
   = filter (λ p, Exists (λ tag, tag ∈ tags_of p) chosen) (images a))
  ∧ (filter_mode a ≠ "Inclusive" →
     filtered_images (filter_images selected_items a)
     = filter (λ p, Forall (λ tag, tag ∈ tags_of p) chosen) (images a))
  ∧ filtered_images (ignore_tags selected_items a)
    = filter (λ p, Forall (λ tag, tag ∉ tags_of p) chosen) (images a)
  ∧ filter_active (filter_images selected_items a) = true
  ∧ filter_active (ignore_tags selected_items a) = true
  ∧ filter_images [] a = a
  ∧ ignore_tags [] a = a
  ∧ (∀ tag freq, item_tag (item_text tag freq) = tag).
Proof.
  intros selected_items chosen tags_of.
  split_and!; try done.
  - intros Hmode. unfold filter_images, selected_items.
    rewrite (proj1 (populate_gallery_filter _ _)). cbn.
    rewrite (foldl_append_filter
               (λ p, filter_keeps (filter_mode a) chosen (tags_of p))).
    rewrite app_nil_l. apply list_filter_iff. intros p. unfold filter_keeps.
    rewrite bool_decide_eq_true_2 by done. apply any_tag_in_spec.
  - intros Hmode. unfold filter_images, selected_items.
    rewrite (proj1 (populate_gallery_filter _ _)). cbn.
    rewrite (foldl_append_filter
               (λ p, filter_keeps (filter_mode a) chosen (tags_of p))).
    rewrite app_nil_l. apply list_filter_iff. intros p. unfold filter_keeps.
    rewrite bool_decide_eq_false_2 by done. apply all_tags_in_spec.
  - unfold ignore_tags, selected_items.
    rewrite (proj1 (populate_gallery_filter _ _)). cbn.
    rewrite (foldl_append_filter (λ p, negb (any_tag_in chosen (tags_of p)))).
    rewrite app_nil_l. apply list_filter_iff. intros p. apply none_tag_in_spec.
  - unfold filter_images, selected_items.
    by rewrite (proj2 (populate_gallery_filter _ _)).
  - unfold ignore_tags, selected_items.
    by rewrite (proj2 (populate_gallery_filter _ _)).
  - apply item_tag_item_text.
Qed.

(** C3 as stated fails for the empty choice of tags: in mode
    ["Inclusive"] no caption shares a tag with it, yet [filter_images]
    keeps the filtered view of the filter before. *)
Lemma filter_images_counterexample :
  let a := filter_images ["cat (1)"]
             (populate_gallery (images Samples.loaded_pets) Samples.loaded_pets) in
  let chosen := item_tag <$> [] in
  ¬ (filtered_images (filter_images [] a)
     = filter (λ p, Exists (λ tag, tag ∈ get_tags (captions a) p) chosen)
              (images a)).
Proof. vm_compute. intros [=]. Qed.

End Filtering.

(** ** The selection *)

Module Selection.
Import DatCure TagIndex Filtering.

Lemma update_tag_list_selected a :
  selected_images (update_tag_list a) = selected_images a.
Proof. apply update_tag_list_frame. Qed.

Lemma populate_gallery_selected imgs a :
  selected_images (populate_gallery imgs a) = selected_images a.
Proof. unfold populate_gallery. cbn. apply update_tag_list_selected. Qed.

Lemma update_gallery_selected a :
  selected_images (update_gallery a) = selected_images a.
Proof.
  unfold update_gallery. destruct (filter_active a); apply populate_gallery_selected.
Qed.

Lemma populate_gallery_active_view imgs a :
  active_view (populate_gallery imgs a) = active_view a.
Proof.
  unfold active_view, populate_gallery. cbn.
  by destruct (update_tag_list_frame a) as (-> & _ & _ & _ & -> & -> & _).
Qed.

Lemma update_gallery_active_view a : active_view (update_gallery a) = active_view a.
Proof.
  unfold update_gallery. destruct (filter_active a); apply populate_gallery_active_view.
Qed.

Lemma move_selection_clears set_iter dest_dir a d :
  dest_dir ≠ "" → selected_images (move_selection set_iter dest_dir a d).1 = ∅.
Proof.
  intros Hdest. unfold move_selection.
  destruct (bool_decide (selected_images a = ∅)) eqn:Hsel.
  - by apply bool_decide_eq_true in Hsel.
  - rewrite bool_decide_eq_false_2 by done.
    destruct (foldl _ _ _) as [d' moved]. cbn [fst].
    rewrite populate_gallery_selected. cbn. by rewrite update_tag_list_selected.
Qed.

(** C8, amended.  [select_all_images] makes the selection the set of the
    active sequence and [deselect_all_images] empties it;
    [invert_selection] makes it the symmetric difference with the active
    sequence, which lies within the active sequence if the selection did
    before; a click toggles the clicked image and nothing else.  The three
    filter handlers change the active sequence and leave the selection as
    it is, so that selected images can fall outside the active sequence.
    After a move the selection is empty and names no moved image. *)
Theorem selection_follows_handlers a :
  let within (b : app) := selected_images b ⊆ list_to_set (active_view b) in
  (selected_images (select_all_images a) = list_to_set (active_view a)
   ∧ within (select_all_images a))
  ∧ (selected_images (deselect_all_images a) = ∅
     ∧ within (deselect_all_images a))
  ∧ (∀ p, p ∈ selected_images (invert_selection a)
          ↔ (p ∈ active_view a ∧ p ∉ selected_images a)
            ∨ (p ∈ selected_images a ∧ p ∉ active_view a))
  ∧ (within a → within (invert_selection a))
  ∧ (∀ p q, q ∈ selected_images (image_clicked p a)
            ↔ (q ≠ p ∧ q ∈ selected_images a)
              ∨ (q = p ∧ p ∉ selected_images a))
  ∧ (∀ items, selected_images (filter_images items a) = selected_images a
              ∧ selected_images (ignore_tags items a) = selected_images a)
  ∧ selected_images (clear_filter a) = selected_images a
  ∧ (∀ set_iter dest_dir d,
       dest_dir ≠ "" →
       selected_images (move_selection set_iter dest_dir a d).1 = ∅).
Proof.
  intros within. unfold within.
  assert (∀ p, p ∈ selected_images (invert_selection a)
               ↔ (p ∈ active_view a ∧ p ∉ selected_images a)
                 ∨ (p ∈ selected_images a ∧ p ∉ active_view a)) as Hinv.
  { intros p. unfold invert_selection. rewrite update_gallery_selected. cbn.
    unfold symmetric_difference.
    rewrite elem_of_union, !elem_of_difference, !elem_of_list_to_set. done. }
  split_and!.
  - unfold select_all_images. by rewrite update_gallery_selected.
  - unfold select_all_images.
    rewrite update_gallery_selected, update_gallery_active_view. done.
  - unfold deselect_all_images. by rewrite update_gallery_selected.
  - unfold deselect_all_images. rewrite update_gallery_selected. cbn.
    apply empty_subseteq.
  - exact Hinv.
  - intros Hin p [[Hp _]|[Hp Hnp]]%Hinv.
    + unfold invert_selection. rewrite update_gallery_active_view.
      by apply elem_of_list_to_set.
    + pose proof (Hin p Hp) as Hview%elem_of_list_to_set. done.
  - intros p q. unfold image_clicked. cbn.
    destruct (bool_decide (p ∈ selected_images a)) eqn:Hp; cbn.
    + apply bool_decide_eq_true in Hp.
      rewrite elem_of_difference, elem_of_singleton. naive_solver.
    + apply bool_decide_eq_false in Hp.
      rewrite elem_of_union, elem_of_singleton.
      destruct (decide (q = p)) as [->|]; naive_solver.
  - intros items. split.
    + unfold filter_images. destruct items; [done|].
      by rewrite populate_gallery_selected.
    + unfold ignore_tags. destruct items; [done|].
      by rewrite populate_gallery_selected.
  - unfold clear_filter. by rewrite populate_gallery_selected.
  - intros set_iter dest_dir d. apply move_selection_clears.
Qed.

(** C8 as stated fails: all images are selected, a filter narrows the
    view to the one image tagged [cat], and inverting the selection leaves
    selected exactly the image that the view does not show. *)
Lemma selection_counterexample :
  let a := (perform_all Samples.iter
              [SelectAll; FilterImages ["cat (1)"]; InvertSelection]
              (populate_gallery (images Samples.loaded_pets) Samples.loaded_pets,
               Samples.disk_pets)).1 in
  ¬ (selected_images a ⊆ list_to_set (active_view a)).
Proof.
  intros a Hsub.
  assert ("/d/y.png" ∈ selected_images a) as Hy.
  { by_evaluation. }
  apply Hsub in Hy. revert Hy.
  refute_by_evaluation.
Qed.

End Selection.

(** ** Sorting the tags of the focused image *)

Module Sorting.
Import DatCure TagIndex CaptionFile.

Lemma strongly_sorted_mono {A} (R1 R2 : relation A) l :
  (∀ x y, R1 x y → R2 x y) → StronglySorted R1 l → StronglySorted R2 l.
Proof.
  intros Himp Hs. induction Hs as [|x l Hs IH Hx]; constructor; [done|].
  eapply Forall_impl; [exact Hx|]. intros y. apply Himp.
Qed.

Section Keys.
Variable key : string → Z * string.

Lemma key_order_total : Total (λ t1 t2, key_le (key t1) (key t2)).
Proof.
  intros t1 t2. unfold key_le.
  destruct (Z.lt_trichotomy (key t1).1 (key t2).1) as [?|[Heq|?]]; [tauto| |tauto].
  destruct (total String.le (key t1).2 (key t2).2); [left|right]; right; split;
    done.
Qed.

Lemma key_order_trans : Transitive (λ t1 t2, key_le (key t1) (key t2)).
Proof.
  intros t1 t2 t3. unfold key_le. intros [H12|[H12 L12]] [H23|[H23 L23]].
  - left. lia.
  - left. lia.
  - left. lia.
  - right. split; [lia|]. by etrans.
Qed.

Lemma sorted_by_spec l :
  sorted_by key l ≡ₚ l
  ∧ StronglySorted (λ t1 t2, key_le (key t1) (key t2)) (sorted_by key l).
Proof.
  unfold sorted_by. split.
  - apply merge_sort_Permutation.
  - apply StronglySorted_merge_sort; [apply key_order_trans|apply key_order_total].
Qed.

End Keys.

Lemma sort_tags_spec key a d p tags :
  focus_image_path a = Some p → p ≠ "" → captions a !! p = Some tags →
  let sorted_tags := sorted_by (key (tag_frequency a)) tags in
  captions (sort_tags key a d).1 = <[p := sorted_tags]> (captions a)
  ∧ tag_frequency (sort_tags key a d).1 = tag_frequency a
  ∧ (caption_path p ∉ Disk.locked d →
     Disk.files (sort_tags key a d).2 !! caption_path p
     = Some (PyStr.join ", " sorted_tags)).
Proof.
  intros Hfocus Hp Htags sorted_tags. unfold sort_tags. rewrite Hfocus.
  rewrite bool_decide_eq_true_2 by done.
  rewrite bool_decide_eq_true_2 by eauto. cbn [andb fst snd].
  assert (get_tags (captions a) p = tags) as -> by (unfold get_tags; by rewrite Htags).
  split_and!; [done..|].
  intros Hfree. rewrite save_caption_file_written by done.
  unfold get_tags. cbn. by rewrite lookup_insert_eq.
Qed.

(** C9, amended.  For the focused image both handlers replace the caption
    by a reordering of its tags and write that order to the caption file
    (when the file can be written).  [sort_tags_low] orders by frequency
    ascending and, among tags of equal frequency, by tag ascending;
    [sort_tags_high] orders by frequency descending and, among tags of
    equal frequency, by tag ascending as well. *)
Theorem sort_tags_orders_caption a d p tags :
  focus_image_path a = Some p → p ≠ "" → captions a !! p = Some tags →
  let freq tag := default 0 (tag_frequency a !! tag) in
  let low := get_tags (captions (sort_tags_low a d).1) p in
  let high := get_tags (captions (sort_tags_high a d).1) p in
  (low ≡ₚ tags
   ∧ StronglySorted
       (λ t1 t2, freq t1 < freq t2 ∨ (freq t1 = freq t2 ∧ String.le t1 t2)) low
   ∧ (caption_path p ∉ Disk.locked d →
      Disk.files (sort_tags_low a d).2 !! caption_path p
      = Some (PyStr.join ", " low)))
  ∧ (high ≡ₚ tags
     ∧ StronglySorted
         (λ t1 t2, freq t2 < freq t1 ∨ (freq t1 = freq t2 ∧ String.le t1 t2)) high
     ∧ (caption_path p ∉ Disk.locked d →
        Disk.files (sort_tags_high a d).2 !! caption_path p
        = Some (PyStr.join ", " high))).
Proof.
  intros Hfocus Hp Htags freq low high.
  destruct (sort_tags_spec key_low a d p tags Hfocus Hp Htags) as (Hcl & _ & Hdl).
  destruct (sort_tags_spec key_high a d p tags Hfocus Hp Htags) as (Hch & _ & Hdh).
  assert (low = sorted_by (key_low (tag_frequency a)) tags) as Hlow.
  { unfold low, sort_tags_low, get_tags. by rewrite Hcl, lookup_insert_eq. }
  assert (high = sorted_by (key_high (tag_frequency a)) tags) as Hhigh.
  { unfold high, sort_tags_high, get_tags. by rewrite Hch, lookup_insert_eq. }
  destruct (sorted_by_spec (key_low (tag_frequency a)) tags) as [Hpl Hsl].
  destruct (sorted_by_spec (key_high (tag_frequency a)) tags) as [Hph Hsh].
  rewrite Hlow, Hhigh. split; (split; [done|split; [|done]]).
  - eapply strongly_sorted_mono; [|exact Hsl]. done.
  - eapply strongly_sorted_mono; [|exact Hsh].
    intros t1 t2. unfold key_le, key_high. cbn. fold (freq t1) (freq t2).
    intros [?|[? ?]]; [left; lia|right; split; [lia|done]].
Qed.

Lemma sort_tags_orders_caption_witness :
  let a := state Samples.focused_tie in
  let d := disk Samples.focused_tie in
  let freq tag := default 0 (tag_frequency a !! tag) in
  let low := get_tags (captions (sort_tags_low a d).1) "/d/x.png" in
  let high := get_tags (captions (sort_tags_high a d).1) "/d/x.png" in
  (low ≡ₚ ["b"; "a"]
   ∧ StronglySorted
       (λ t1 t2, freq t1 < freq t2 ∨ (freq t1 = freq t2 ∧ String.le t1 t2)) low
   ∧ (caption_path "/d/x.png" ∉ Disk.locked d →
      Disk.files (sort_tags_low a d).2 !! caption_path "/d/x.png"
      = Some (PyStr.join ", " low)))
  ∧ (high ≡ₚ ["b"; "a"]
     ∧ StronglySorted
         (λ t1 t2, freq t2 < freq t1 ∨ (freq t1 = freq t2 ∧ String.le t1 t2)) high
     ∧ (caption_path "/d/x.png" ∉ Disk.locked d →
        Disk.files (sort_tags_high a d).2 !! caption_path "/d/x.png"
        = Some (PyStr.join ", " high))).
Proof.
  apply (sort_tags_orders_caption (state Samples.focused_tie)
           (disk Samples.focused_tie) "/d/x.png" ["b"; "a"]).
  - vm_compute. reflexivity.
  - discriminate.
  - vm_compute. reflexivity.
Defined.

(** C9 as stated fails for [sort_tags_high] on tags of equal frequency:
    the caption [b, a], each tag carried once, becomes [a, b], which is
    not descending in the key (frequency, tag). *)
Lemma sort_tags_high_counterexample :
  let a := state Samples.focused_tie in
  let d := disk Samples.focused_tie in
  let key tag := (default 0 (tag_frequency a !! tag), tag) in
  ¬ StronglySorted (λ t1 t2, key_le (key t2) (key t1))
      (get_tags (captions (sort_tags_high a d).1) "/d/x.png").
Proof.
  intros a d key.
  assert (get_tags (captions (sort_tags_high a d).1) "/d/x.png" = ["a"; "b"]) as ->.
  { vm_compute. reflexivity. }
  intros H. apply StronglySorted_inv in H as [_ Hfirst].
  apply Forall_cons in Hfirst as [Hab _]. revert Hab.
  refute_by_evaluation.
Qed.

End Sorting.

(** ** Paths *)

Module PathFacts.
Import PyStr OsPath StringFacts.










End PathFacts.

(** ** Copying and moving the selection *)

Module Relocation.
Import PyStr OsPath DatCure StringFacts PathFacts TagIndex Selection.

Section FreeName.
Variables (d : Disk.disk) (dest_dir root ext : string).








End FreeName.


Lemma endswith_refl x : endswith x x = true.
Proof. destruct x; cbn; by rewrite bool_decide_eq_true_2. Qed.

Lemma endswith_app_l x pre s :
  endswith x s = true → endswith x (pre +:+ s) = true.
Proof.
  intros Hs. induction pre as [|c pre IH].
  - by rewrite str_app_nil_l.
  - rewrite str_app_cons. cbn. rewrite IH. apply orb_true_r.
Qed.


Lemma caption_path_txt p : endswith ".txt" (caption_path p) = true.
Proof. unfold caption_path. apply endswith_app_l, endswith_refl. Qed.
















Section Relocate.
Variable set_iter : gset string → list string.
Hypothesis set_iter_perm : ∀ s, set_iter s ≡ₚ elements s.


End Relocate.


(** *** What a move does to the state *)

Lemma filter_all {A} (P : A → Prop) `{∀ x, Decision (P x)} (l : list A) :
  Forall P l → filter P l = l.
Proof.
  induction 1 as [|x l Hx Hl IH]; [done|].
  by rewrite filter_cons, decide_True, IH.
Qed.

Lemma list_remove_filter x l :
  NoDup l → list_remove x l = filter (λ y, y ≠ x) l.
Proof.
  induction 1 as [|y l Hy Hnd IH]; [done|]. simpl. rewrite filter_cons.
  destruct (decide (y = x)) as [->|Hne].
  - rewrite decide_False by (by intros []).
    symmetry. apply filter_all. apply Forall_forall. by intros z Hz ->.
  - rewrite decide_True by done. by rewrite IH.
Qed.

Lemma drop_image_images a p :
  NoDup (images a) → images (drop_image a p) = filter (λ q, q ≠ p) (images a).
Proof.
  intros Hnd. unfold drop_image.
  assert (images (if mem p (images a)
                  then set_images (list_remove p (images a)) a else a)
          = filter (λ q, q ≠ p) (images a)) as Himg.
  { destruct (mem p (images a)) eqn:Hmem.
    - cbn. by apply list_remove_filter.
    - apply mem_false in Hmem. symmetry. apply filter_all.
      apply Forall_forall. by intros z Hz ->. }
  by destruct (captions _ !! p).
Qed.

Lemma drop_image_captions a p :
  captions (drop_image a p) = delete p (captions a).
Proof.
  unfold drop_image.
  set (a1 := if mem p (images a) then _ else a).
  assert (captions a1 = captions a) as Hc1.
  { unfold a1. by destruct (mem p (images a)). }
  rewrite Hc1. destruct (captions a !! p) eqn:Hp.
  - cbn. by rewrite ?Hc1.
  - rewrite Hc1. symmetry. by apply delete_id.
Qed.

Lemma drop_images_images l : ∀ a,
  NoDup (images a) →
  images (foldl drop_image a l) = filter (λ q, q ∉ l) (images a).
Proof.
  induction l as [|p l IH]; intros a Hnd; cbn [foldl].
  - symmetry. apply filter_all. apply Forall_forall. intros q _. apply not_elem_of_nil.
  - rewrite IH.
    + rewrite drop_image_images by done. rewrite list_filter_filter.
      apply list_filter_iff. intros q. rewrite not_elem_of_cons. tauto.
    + rewrite drop_image_images by done. by apply NoDup_filter.
Qed.

Lemma drop_images_captions l : ∀ a q,
  captions (foldl drop_image a l) !! q
  = if decide (q ∈ l) then None else captions a !! q.
Proof.
  induction l as [|p l IH]; intros a q; cbn [foldl].
  - by rewrite decide_False by apply not_elem_of_nil.
  - rewrite IH, drop_image_captions.
    destruct (decide (q ∈ l)) as [Hq|Hq].
    + rewrite decide_True; [done|by right].
    + destruct (decide (q = p)) as [->|Hne].
      * rewrite lookup_delete_eq. rewrite decide_True; [done|by left].
      * rewrite lookup_delete_ne by done.
        rewrite decide_False; [done|]. rewrite not_elem_of_cons. done.
Qed.

Lemma drop_images_frame l : ∀ a,
  selected_images (foldl drop_image a l) = selected_images a
  ∧ all_tags (foldl drop_image a l) = all_tags a.
Proof.
  induction l as [|p l IH]; intros a; cbn [foldl]; [done|].
  destruct (IH (drop_image a p)) as [-> ->]. unfold drop_image.
  destruct (mem p (images a)); by destruct (captions _ !! p).
Qed.

(** Only images that the loop went through are moved. *)
Lemma move_steps_moved dest_dir l : ∀ d acc p,
  p ∈ (foldl (move_step dest_dir) (d, acc) l).2 → p ∈ acc ∨ p ∈ l.
Proof.
  induction l as [|q l IH]; intros d acc p; cbn [foldl]; [by left|].
  unfold move_step at 2. destruct (Disk.move d q _) as [d1|].
  - intros [Hp|Hp]%IH; [|right; by right].
    apply elem_of_app in Hp as [Hp|Hp%list_elem_of_singleton]; [by left|].
    subst p. right. by left.
  - intros [Hp|Hp]%IH; [by left|right; by right].
Qed.

Lemma occurrences_none tag (c : gmap string (list string)) :
  (∀ p tags, c !! p = Some tags → tag ∉ tags) → occurrences tag c = 0%nat.
Proof.
  induction c as [|k tags c Hk IH] using map_ind; intros Hnone.
  - apply occurrences_empty.
  - rewrite occurrences_insert_fresh by done. rewrite IH.
    + rewrite (proj2 (tag_count_0 tag tags)); [done|].
      apply (Hnone k). apply lookup_insert_eq.
    + intros p l Hp. apply (Hnone p). rewrite lookup_insert_ne; [done|].
      intros ->. congruence.
Qed.

Lemma populate_gallery_images imgs a : images (populate_gallery imgs a) = images a.
Proof. unfold populate_gallery. cbn. apply update_tag_list_frame. Qed.

Lemma move_step_moved dest_dir d acc p :
  (move_step dest_dir (d, acc) p).2
  = if Disk.move d p (dest_image_path d dest_dir p) is Some _
    then acc ++ [p] else acc.
Proof. unfold move_step. by destruct (Disk.move _ _ _). Qed.

Section Move.
Variable set_iter : gset string → list string.
Hypothesis set_iter_perm : ∀ s, set_iter s ≡ₚ elements s.

Lemma move_selection_state dest_dir a d :
  selected_images a ≠ ∅ → dest_dir ≠ "" →
  let a' := (move_selection set_iter dest_dir a d).1 in
  let a1 := foldl drop_image a (images_moved set_iter dest_dir a d) in
  images a' = images a1 ∧ captions a' = captions a1.
Proof.
  intros Hsel Hdest. unfold move_selection, images_moved.
  rewrite !bool_decide_eq_false_2 by done.
  destruct (foldl _ _ _) as [d' moved]. cbn [fst snd].
  rewrite populate_gallery_images, populate_gallery_captions. cbn.
  by destruct (update_tag_list_frame
                 (set_selected_images ∅
                    (set_all_tags (dom (tag_frequency (foldl drop_image a moved)))
                       (foldl drop_image a moved)))) as (-> & -> & _).
Qed.

(** C4, amended.  A move reaches exactly the selected images whose file
    [shutil.move] could move.  Each of them leaves the catalog and the
    captions, and the frequencies lose one count per tag it carried, tags
    that reach zero leaving the frequencies and [all_tags]: the index of
    the remaining captions is as a fresh count would give it.  The
    selection is emptied as a whole, also of the images whose move failed.
    So an image that carried the only occurrence of a tag takes the tag
    out of [all_tags] and is itself neither in the catalog nor selected.
    A copy leaves the state as it was. *)
Theorem move_selection_updates_state dest_dir a d :
  selected_images a ≠ ∅ → dest_dir ≠ "" → index_agrees a → NoDup (images a) →
  let moved := images_moved set_iter dest_dir a d in
  let a' := (move_selection set_iter dest_dir a d).1 in
  (∀ p, p ∈ moved → p ∈ selected_images a)
  ∧ (∀ d0 acc p, (move_step dest_dir (d0, acc) p).2
                 = if Disk.move d0 p (dest_image_path d0 dest_dir p) is Some _
                   then acc ++ [p] else acc)
  ∧ images a' = filter (λ p, p ∉ moved) (images a)
  ∧ (∀ p, captions a' !! p
          = if decide (p ∈ moved) then None else captions a !! p)
  ∧ (∀ tag, tag_frequency a' !! tag
            = if decide (occurrences tag (captions a') = 0%nat) then None
              else Some (Z.of_nat (occurrences tag (captions a'))))
  ∧ all_tags a' = dom (tag_frequency a')
  ∧ selected_images a' = ∅
  ∧ (∀ x tag, x ∈ moved →
              (∀ p, p ≠ x → tag ∉ get_tags (captions a) p) →
              (tag ∉ all_tags a') ∧ (x ∉ images a') ∧ (x ∉ selected_images a'))
  ∧ (copy_selection set_iter dest_dir a d).1 = a.
Proof.
  intros Hsel Hdest Hagree Hnd moved a'.
  destruct (move_selection_state dest_dir a d Hsel Hdest) as [Himg Hcap].
  fold a' moved in Himg, Hcap.
  rewrite drop_images_images in Himg by done.
  assert (∀ p, captions a' !! p
               = if decide (p ∈ moved) then None else captions a !! p) as Hlook.
  { intros p. rewrite Hcap. apply drop_images_captions. }
  destruct (move_selection_agrees set_iter dest_dir a d Hagree) as [Hfreq Hall].
  fold a' in Hfreq, Hall.
  pose proof (move_selection_clears set_iter dest_dir a d Hdest) as Hclear.
  fold a' in Hclear.
  split_and!; try done.
  - intros p Hp. unfold moved, images_moved in Hp.
    apply move_steps_moved in Hp as [Hp|Hp]; [by apply elem_of_nil in Hp|].
    rewrite set_iter_perm in Hp. by apply elem_of_elements in Hp.
  - intros d0 acc p. apply move_step_moved.
  - intros x tag Hx Honly. split_and!.
    + rewrite Hall, not_elem_of_dom, Hfreq.
      rewrite decide_True; [done|]. apply occurrences_none.
      intros p tags. rewrite Hlook. destruct (decide (p ∈ moved)); [done|].
      intros Hp. assert (p ≠ x) as Hne by (by intros ->).
      specialize (Honly p Hne). unfold get_tags in Honly. by rewrite Hp in Honly.
    + rewrite Himg. rewrite list_elem_of_filter. tauto.
    + rewrite Hclear. apply not_elem_of_empty.
  - apply copy_selection_state.
Qed.

End Move.

Lemma move_selection_updates_state_witness :
  let a := Samples.selected_pets in
  let d := Samples.disk_pets in
  let moved := images_moved Samples.iter "/dest" a d in
  let a' := (move_selection Samples.iter "/dest" a d).1 in
  (∀ p, p ∈ moved → p ∈ selected_images a)
  ∧ (∀ d0 acc p, (move_step "/dest" (d0, acc) p).2
                 = if Disk.move d0 p (dest_image_path d0 "/dest" p) is Some _
                   then acc ++ [p] else acc)
  ∧ images a' = filter (λ p, p ∉ moved) (images a)
  ∧ (∀ p, captions a' !! p
          = if decide (p ∈ moved) then None else captions a !! p)
  ∧ (∀ tag, tag_frequency a' !! tag
            = if decide (occurrences tag (captions a') = 0%nat) then None
              else Some (Z.of_nat (occurrences tag (captions a'))))
  ∧ all_tags a' = dom (tag_frequency a')
  ∧ selected_images a' = ∅
  ∧ (∀ x tag, x ∈ moved →
              (∀ p, p ≠ x → tag ∉ get_tags (captions a) p) →
              (tag ∉ all_tags a') ∧ (x ∉ images a') ∧ (x ∉ selected_images a'))
  ∧ (copy_selection Samples.iter "/dest" a d).1 = a.
Proof.
  apply (move_selection_updates_state Samples.iter (λ s, reflexivity _)
           "/dest" Samples.selected_pets Samples.disk_pets).
  - by_evaluation.
  - discriminate.
  - apply update_gallery_agrees. eapply index_agrees_eq; [done..|].
    apply populate_gallery_agrees. apply Loading.load_establishes_index.
    by_evaluation.
  - by_evaluation.
Defined.

(** C4 as stated fails for "and only those": the file of [y.png] is gone
    from the disk, so its move fails and it stays in the catalog, and yet
    it is removed from the selection like the image that was moved. *)
Lemma move_selection_counterexample :
  let a := Samples.selected_pets in
  let d := Samples.disk_gone in
  let moved := images_moved Samples.iter "/dest" a d in
  let a' := (move_selection Samples.iter "/dest" a d).1 in
  ¬ (∀ p, p ∈ selected_images a → p ∉ selected_images a' → p ∈ moved).
Proof.
  intros a d moved a' Hclaim.
  assert ("/d/y.png" ∈ moved) as Hy.
  { apply Hclaim.
    - by_evaluation.
    - by_evaluation. }
  revert Hy. refute_by_evaluation.
Qed.

End Relocation.

(** * Further properties of the handlers *)

(** ** What a caption file is parsed into *)

Module CaptionParsing.
Import PyStr DatCure StringFacts CaptionFile.

Lemma split_pieces sep s : Forall (λ w, has_char sep w = false) (split sep s).
Proof.
  induction s as [|c s IH]; cbn.
  - by constructor.
  - destruct (decide (c = sep)) as [->|Hc].
    + by constructor.
    + destruct (split sep s) as [|w ws].
      * constructor; [|done]. cbn. rewrite bool_decide_eq_false_2 by done. done.
      * inversion_clear IH. constructor; [|done]. cbn.
        by rewrite bool_decide_eq_false_2.
Qed.

(** The tags of a text without carriage return are clean. *)
Lemma parse_tags_clean text :
  decode text = text → has_char "013" text = false →
  Forall clean_tag (parse_tags text).
Proof.
  intros Htext Hcr. apply Forall_forall. intros t Ht. unfold parse_tags in Ht.
  apply list_elem_of_omap in Ht as (w & Hw & Ht).
  case_bool_decide as Hne; [done|]. injection Ht as <-.
  pose proof (split_pieces "," text) as Hp.
  pose proof (split_text "," text eq_refl Htext) as Hd.
  pose proof (split_no_char "013" "," text Hcr) as Hc.
  rewrite Forall_forall in Hp, Hd, Hc.
  split_and!;
    [by apply strip_text, Hd|apply strip_idem|done
    |by apply strip_no_char, Hp|by apply strip_no_char, Hc].
Qed.

(** What is read from a file is a text without carriage return. *)
Lemma read_clean bytes :
  Forall clean_tag (parse_tags (universal_newlines (decode bytes))).
Proof.
  apply parse_tags_clean.
  - apply universal_newlines_text, decode_idem.
  - apply universal_newlines_no_cr.
Qed.

Lemma read_caption_clean d image_path : Forall clean_tag (read_caption d image_path).
Proof.
  unfold read_caption, Disk.read.
  destruct (Disk.files d !! caption_path image_path) as [bytes|]; [|done].
  apply read_clean.
Qed.

(** X1.  The tags that are read from a caption file are texts that are
    trimmed, not empty and free of commas and carriage returns, whatever
    bytes the file holds; parsing what [save_caption_file] writes for
    them gives them back, and so does reading the caption file of an
    image whose caption came from a file, once [save_caption_file] has
    written it. *)
Theorem parsed_captions_are_stable bytes :
  let tags := parse_tags (universal_newlines (decode bytes)) in
  Forall clean_tag tags
  ∧ parse_tags (PyStr.join ", " tags) = tags
  ∧ ∀ a d image_path,
      get_tags (captions a) image_path = tags →
      caption_path image_path ∉ Disk.locked d →
      read_caption (save_caption_file image_path a d) image_path = tags.
Proof.
  intros tags. pose proof (read_clean bytes) as Hclean. fold tags in Hclean.
  split_and!; [done|by apply parse_join|].
  intros a d p Hp Hfree. unfold read_caption, Disk.read.
  rewrite save_caption_file_written by done.
  cbn [fmap option_fmap option_map]. rewrite Hp. by apply read_join.
Qed.

End CaptionParsing.

(** ** The tag list *)

Module TagList.
Import DatCure TagIndex Filtering.

Lemma dd_get_default (freq : gmap string Z) tag t :
  default 0 ((dd_get freq tag).2 !! t) = default 0 (freq !! t).
Proof.
  unfold dd_get. destruct (freq !! tag) eqn:Hf; [done|]. cbn.
  destruct (decide (t = tag)) as [->|Hne].
  - by rewrite lookup_insert_eq, Hf.
  - by rewrite lookup_insert_ne.
Qed.

Lemma dd_get_lookup (freq : gmap string Z) tag t :
  (dd_get freq tag).2 !! t
  = match freq !! t with
    | Some v => Some v
    | None => if decide (t = tag) then Some 0 else None
    end.
Proof.
  unfold dd_get. destruct (freq !! tag) eqn:Hf; cbn.
  - destruct (freq !! t) eqn:Ht; [done|].
    destruct (decide (t = tag)) as [->|]; [congruence|done].
  - destruct (decide (t = tag)) as [->|Hne].
    + by rewrite lookup_insert_eq, Hf.
    + rewrite lookup_insert_ne by done. by destruct (freq !! t).
Qed.

Lemma tag_list_fold_items (l : list string) : ∀ items (freq : gmap string Z),
  (foldl (λ '(items, freq) tag,
            let '(v, freq') := dd_get freq tag in
            (items ++ [item_text tag v], freq'))
         (items, freq) l).1
  = items ++ ((λ t, item_text t (default 0 (freq !! t))) <$> l).
Proof.
  induction l as [|t l IH]; intros items freq; cbn [foldl fmap list_fmap].
  - by rewrite app_nil_r.
  - destruct (dd_get freq t) as [v freq'] eqn:Hg. rewrite IH.
    rewrite <- (assoc_L (++)). f_equal. cbn. f_equal.
    + f_equal. unfold dd_get in Hg.
      destruct (freq !! t); injection Hg as <- <-; done.
    + apply list_fmap_ext. intros _ t' _. f_equal.
      replace freq' with (dd_get freq t).2 by by rewrite Hg.
      apply dd_get_default.
Qed.

Lemma tag_list_fold_lookup (l : list string) : ∀ items (freq : gmap string Z) t,
  (foldl (λ '(items, freq) tag,
            let '(v, freq') := dd_get freq tag in
            (items ++ [item_text tag v], freq'))
         (items, freq) l).2 !! t
  = match freq !! t with
    | Some v => Some v
    | None => if decide (t ∈ l) then Some 0 else None
    end.
Proof.
  induction l as [|t0 l IH]; intros items freq t; cbn [foldl].
  - cbn. destruct (freq !! t); [done|]. rewrite decide_False; [done|].
    apply not_elem_of_nil.
  - destruct (dd_get freq t0) as [v freq'] eqn:Hg. rewrite IH.
    replace freq' with (dd_get freq t0).2 by by rewrite Hg.
    rewrite dd_get_lookup. destruct (freq !! t) eqn:Ht; [done|].
    destruct (decide (t = t0)) as [->|Hne].
    + rewrite (decide_True (P := t0 ∈ t0 :: l)); [done|]. by left.
    + destruct (decide (t ∈ l)) as [Hin|Hin].
      * rewrite decide_True; [done|]. by right.
      * rewrite decide_False; [done|]. by intros [?|?]%elem_of_cons.
Qed.

Lemma update_tag_list_tag_list a :
  tag_list (update_tag_list a)
  = (λ t, item_text t (default 0 (tag_frequency a !! t)))
    <$> sorted_set (all_tags a).
Proof.
  unfold update_tag_list.
  pose proof (tag_list_fold_items (sorted_set (all_tags a)) [] (tag_frequency a))
    as Hi.
  destruct (foldl _ _ _) as [items freq]. cbn in *. by rewrite Hi.
Qed.

Lemma update_tag_list_lookup a t :
  tag_frequency (update_tag_list a) !! t
  = match tag_frequency a !! t with
    | Some v => Some v
    | None => if decide (t ∈ all_tags a) then Some 0 else None
    end.
Proof.
  unfold update_tag_list.
  pose proof (tag_list_fold_lookup (sorted_set (all_tags a)) []
                (tag_frequency a) t) as Hl.
  destruct (foldl _ _ _) as [items freq]. cbn in *. rewrite Hl.
  destruct (tag_frequency a !! t); [done|].
  destruct (decide (t ∈ sorted_set (all_tags a))) as [Hin|Hin];
    rewrite elem_of_sorted_set in Hin.
  - by rewrite decide_True.
  - by rewrite decide_False.
Qed.

Lemma app_eq (a b : app) :
  images a = images b → captions a = captions b →
  tag_frequency a = tag_frequency b → selected_images a = selected_images b →
  all_tags a = all_tags b → filtered_images a = filtered_images b →
  filter_active a = filter_active b → filter_mode a = filter_mode b →
  focus_image_path a = focus_image_path b →
  include_subdirs a = include_subdirs b → tag_list a = tag_list b →
  gallery a = gallery b → a = b.
Proof. destruct a, b. cbn. by intros; subst. Qed.

Lemma update_tag_list_ext a b :
  all_tags a = all_tags b → tag_frequency a = tag_frequency b →
  tag_list (update_tag_list a) = tag_list (update_tag_list b)
  ∧ tag_frequency (update_tag_list a) = tag_frequency (update_tag_list b).
Proof.
  intros Ht Hf. split.
  - rewrite !update_tag_list_tag_list. by rewrite Ht, Hf.
  - apply map_eq. intros t. rewrite !update_tag_list_lookup. by rewrite Ht, Hf.
Qed.

Lemma update_tag_list_idem a :
  update_tag_list (update_tag_list a) = update_tag_list a.
Proof.
  pose proof (update_tag_list_frame (update_tag_list a))
    as (? & ? & ? & Ha & ? & ? & ? & ? & ? & ?).
  pose proof (update_tag_list_frame a)
    as (? & ? & ? & Ha' & ? & ? & ? & ? & ? & ?).
  apply app_eq; try done.
  - apply map_eq. intros t. rewrite !update_tag_list_lookup, Ha'.
    destruct (tag_frequency a !! t); [done|]. by destruct (decide _).
  - rewrite !update_tag_list_tag_list, Ha'. apply list_fmap_ext.
    intros _ t _. f_equal. rewrite update_tag_list_lookup.
    destruct (tag_frequency a !! t); [done|]. by destruct (decide _).
Qed.

(** X2.  [update_tag_list] shows every tag of [all_tags] once, in
    ascending order, with its frequency, and 0 for a tag that has no
    frequency; such a tag gets the frequency 0 by being shown, and no other
    frequency changes.  The tags that the filter handlers read back from
    the items are the tags shown. *)
Theorem update_tag_list_shows_all_tags a :
  let a' := update_tag_list a in
  tag_list a'
  = (λ tag, item_text tag (default 0 (tag_frequency a !! tag)))
    <$> sorted_set (all_tags a)
  ∧ item_tag <$> tag_list a' = sorted_set (all_tags a)
  ∧ (∀ tag, tag ∈ sorted_set (all_tags a) ↔ tag ∈ all_tags a)
  ∧ NoDup (sorted_set (all_tags a))
  ∧ StronglySorted String.le (sorted_set (all_tags a))
  ∧ (∀ tag, tag_frequency a' !! tag
            = match tag_frequency a !! tag with
              | Some n => Some n
              | None => if decide (tag ∈ all_tags a) then Some 0 else None
              end).
Proof.
  intros a'. subst a'. split_and!.
  - apply update_tag_list_tag_list.
  - rewrite update_tag_list_tag_list, <- list_fmap_compose.
    rewrite <- (list_fmap_id (sorted_set (all_tags a))) at 2.
    apply list_fmap_ext. intros _ t _. apply item_tag_item_text.
  - intros tag. apply elem_of_sorted_set.
  - unfold sorted_set. rewrite merge_sort_Permutation. apply NoDup_elements.
  - unfold sorted_set. apply StronglySorted_merge_sort; apply _.
  - apply update_tag_list_lookup.
Qed.

End TagList.

(** ** What adding and removing a tag do to the captions and the files *)

Module EditEffects.
Import PyStr DatCure TagIndex CaptionFile TagList.

Lemma get_tags_lookup (c1 c2 : gmap string (list string)) p :
  c1 !! p = c2 !! p → get_tags c1 p = get_tags c2 p.
Proof. unfold get_tags. by intros ->. Qed.

Lemma add_tag_step_captions tag a d q p :
  captions (add_tag_step tag (a, d) q).1 !! p
  = if decide (p = q ∧ tag ∉ get_tags (captions a) p)
    then Some (get_tags (captions a) p ++ [tag]) else captions a !! p.
Proof.
  unfold add_tag_step. destruct (mem tag (get_tags (captions a) q)) eqn:Hm.
  - apply mem_true in Hm. cbn. rewrite decide_False; [done|].
    by intros [-> ?].
  - apply mem_false in Hm. cbn. destruct (decide (p = q)) as [->|Hne].
    + rewrite lookup_insert_eq. by rewrite decide_True.
    + rewrite lookup_insert_ne by done. rewrite decide_False; [done|].
      by intros [? _].
Qed.

Lemma add_tag_step_selected tag a d q :
  selected_images (add_tag_step tag (a, d) q).1 = selected_images a.
Proof. unfold add_tag_step. by destruct (mem _ _). Qed.

Lemma add_steps_selected tag l : ∀ a d,
  selected_images (foldl (add_tag_step tag) (a, d) l).1 = selected_images a.
Proof.
  induction l as [|q l IH]; intros a d; [done|]. cbn [foldl].
  destruct (add_tag_step tag (a, d) q) as [a1 d1] eqn:Hs. rewrite IH.
  replace a1 with (add_tag_step tag (a, d) q).1 by by rewrite Hs.
  apply add_tag_step_selected.
Qed.

Lemma add_steps_captions tag l : ∀ a d p,
  captions (foldl (add_tag_step tag) (a, d) l).1 !! p
  = if decide (p ∈ l ∧ tag ∉ get_tags (captions a) p)
    then Some (get_tags (captions a) p ++ [tag]) else captions a !! p.
Proof.
  induction l as [|q l IH]; intros a d p; cbn [foldl].
  - rewrite decide_False; [done|]. intros [[]%not_elem_of_nil _].
  - destruct (add_tag_step tag (a, d) q) as [a1 d1] eqn:Hs. rewrite IH.
    assert (Hc : captions a1 !! p
                 = if decide (p = q ∧ tag ∉ get_tags (captions a) p)
                   then Some (get_tags (captions a) p ++ [tag])
                   else captions a !! p).
    { replace a1 with (add_tag_step tag (a, d) q).1 by by rewrite Hs.
      apply add_tag_step_captions. }
    destruct (decide (p = q ∧ tag ∉ get_tags (captions a) p)) as [[-> Hn]|Hn].
    + assert (get_tags (captions a1) q = get_tags (captions a) q ++ [tag])
        as Hg by (unfold get_tags at 1; by rewrite Hc).
      rewrite Hg, decide_False, Hc, decide_True; [done|split; [by left|done]|].
      intros [_ []]. apply elem_of_app. right. by left.
    + rewrite (get_tags_lookup _ _ _ Hc), Hc.
      destruct (decide (p ∈ l ∧ tag ∉ get_tags (captions a) p)) as [[Hl Ht]|Hl].
      * rewrite decide_True; [done|]. split; [by right|done].
      * rewrite decide_False; [done|]. intros [[->|?]%elem_of_cons Ht]; tauto.
Qed.

Lemma add_steps_noop tag l : ∀ a d,
  (∀ q, q ∈ l → tag ∈ get_tags (captions a) q) →
  foldl (add_tag_step tag) (a, d) l = (a, d).
Proof.
  induction l as [|q l IH]; intros a d Hall; [done|]. cbn [foldl].
  unfold add_tag_step at 2.
  rewrite (proj2 (mem_true _ _)) by (apply Hall; by left).
  apply IH. intros q' Hq'. apply Hall. by right.
Qed.

Lemma set_focus_same a v :
  focus_image_path a = v → set_focus_image_path v a = a.
Proof. destruct a. cbn. by intros ->. Qed.

Lemma remove_tag_step_captions tag a d q p :
  captions (remove_tag_step tag (a, d) q).1 !! p
  = if decide (p = q ∧ tag ∈ get_tags (captions a) p)
    then Some (list_remove tag (get_tags (captions a) p))
    else captions a !! p.
Proof.
  unfold remove_tag_step. destruct (mem tag (get_tags (captions a) q)) eqn:Hm.
  - apply mem_true in Hm. cbn. rewrite forget_tag_captions. cbn.
    destruct (decide (p = q)) as [->|Hne].
    + rewrite lookup_insert_eq. by rewrite decide_True.
    + rewrite lookup_insert_ne by done. rewrite decide_False; [done|].
      by intros [? _].
  - apply mem_false in Hm. cbn. rewrite decide_False; [done|].
    by intros [-> ?].
Qed.

Lemma forget_tag_selected tag a :
  selected_images (forget_tag tag a) = selected_images a.
Proof.
  unfold forget_tag. destruct (dd_get _ _).
  by repeat case_bool_decide.
Qed.

Lemma remove_tag_step_selected tag a d q :
  selected_images (remove_tag_step tag (a, d) q).1 = selected_images a.
Proof.
  unfold remove_tag_step. destruct (mem _ _); [|done]. cbn.
  by rewrite forget_tag_selected.
Qed.

Lemma remove_steps_selected tag l : ∀ a d,
  selected_images (foldl (remove_tag_step tag) (a, d) l).1 = selected_images a.
Proof.
  induction l as [|q l IH]; intros a d; [done|]. cbn [foldl].
  destruct (remove_tag_step tag (a, d) q) as [a1 d1] eqn:Hs. rewrite IH.
  replace a1 with (remove_tag_step tag (a, d) q).1 by by rewrite Hs.
  apply remove_tag_step_selected.
Qed.

Lemma remove_steps_captions tag l : ∀ a d p,
  NoDup l →
  captions (foldl (remove_tag_step tag) (a, d) l).1 !! p
  = if decide (p ∈ l ∧ tag ∈ get_tags (captions a) p)
    then Some (list_remove tag (get_tags (captions a) p))
    else captions a !! p.
Proof.
  induction l as [|q l IH]; intros a d p Hnd; cbn [foldl].
  - rewrite decide_False; [done|]. intros [[]%not_elem_of_nil _].
  - apply NoDup_cons in Hnd as [Hq Hnd].
    destruct (remove_tag_step tag (a, d) q) as [a1 d1] eqn:Hs.
    rewrite IH by done.
    assert (Hc : captions a1 !! p
                 = if decide (p = q ∧ tag ∈ get_tags (captions a) p)
                   then Some (list_remove tag (get_tags (captions a) p))
                   else captions a !! p).
    { replace a1 with (remove_tag_step tag (a, d) q).1 by by rewrite Hs.
      apply remove_tag_step_captions. }
    destruct (decide (p = q ∧ tag ∈ get_tags (captions a) p)) as [[-> Hn]|Hn].
    + rewrite decide_False, Hc, decide_True; [done|split; [by left|done]|].
      by intros [? _].
    + rewrite (get_tags_lookup _ _ _ Hc), Hc.
      destruct (decide (p ∈ l ∧ tag ∈ get_tags (captions a) p)) as [[Hl Ht]|Hl].
      * rewrite decide_True; [done|]. split; [by right|done].
      * rewrite decide_False; [done|]. intros [[->|?]%elem_of_cons Ht]; tauto.
Qed.

Lemma list_remove_last tag l : tag ∉ l → list_remove tag (l ++ [tag]) = l.
Proof.
  induction l as [|x l IH]; intros Hn; cbn.
  - by rewrite decide_True.
  - apply not_elem_of_cons in Hn as [Hx Hn].
    rewrite decide_False by done. by rewrite IH.
Qed.

Lemma occurrences_get_tags tag (c1 : gmap string (list string)) : ∀ c2,
  (∀ p, get_tags c1 p = get_tags c2 p) → occurrences tag c1 = occurrences tag c2.
Proof.
  induction c1 as [|k v m Hk IH] using map_ind; intros c2 Heq.
  - rewrite occurrences_empty. symmetry. apply Relocation.occurrences_none.
    intros p tags Hp. specialize (Heq p). unfold get_tags in Heq.
    rewrite Hp, lookup_empty in Heq. cbn in Heq. subst tags.
    apply not_elem_of_nil.
  - rewrite occurrences_insert_fresh by done.
    rewrite (occurrences_delete tag c2 k).
    rewrite <- (Heq k). unfold get_tags at 1. rewrite lookup_insert_eq. cbn.
    f_equal. apply IH. intros p. destruct (decide (p = k)) as [->|Hne].
    + unfold get_tags. by rewrite Hk, lookup_delete_eq.
    + specialize (Heq p). unfold get_tags in *.
      rewrite lookup_insert_ne in Heq by done.
      by rewrite lookup_delete_ne.
Qed.

Section WithIteration.

Variable set_iter : gset string → list string.
Hypothesis set_iter_perm : ∀ s, set_iter s ≡ₚ elements s.

Lemma elem_of_set_iter p (s : gset string) : p ∈ set_iter s ↔ p ∈ s.
Proof. by rewrite set_iter_perm, elem_of_elements. Qed.

Lemma set_iter_nodup (s : gset string) : NoDup (set_iter s).
Proof. rewrite set_iter_perm. apply NoDup_elements. Qed.

Lemma add_tag_captions text a d p :
  strip text ≠ "" →
  captions (add_tag_to_selected set_iter text a d).1 !! p
  = if decide (p ∈ selected_images a ∧ strip text ∉ get_tags (captions a) p)
    then Some (get_tags (captions a) p ++ [strip text])
    else captions a !! p.
Proof.
  intros Htag. unfold add_tag_to_selected.
  rewrite (bool_decide_eq_true_2 (strip text ≠ "")) by done. cbn [andb].
  case_bool_decide as Hsel.
  - destruct (foldl _ _ _) as [a' d'] eqn:Hf. cbn [fst].
    rewrite update_tag_list_captions.
    rewrite (proj1 (focus_first_selected_frame set_iter a')).
    replace a' with (foldl (add_tag_step (strip text)) (a, d)
                       (set_iter (selected_images a))).1 by by rewrite Hf.
    rewrite add_steps_captions.
    destruct (decide (p ∈ selected_images a ∧ _)) as [[Hp Ht]|Hn].
    + rewrite decide_True; [done|]. by rewrite elem_of_set_iter.
    + rewrite decide_False; [done|]. by rewrite elem_of_set_iter.
  - cbn. rewrite decide_False; [done|]. intros [Hp _].
    rewrite Hsel in Hp. by apply not_elem_of_empty in Hp.
Qed.

Lemma remove_tag_captions text a d p :
  strip text ≠ "" →
  captions (remove_tag_from_selected set_iter text a d).1 !! p
  = if decide (p ∈ selected_images a ∧ strip text ∈ get_tags (captions a) p)
    then Some (list_remove (strip text) (get_tags (captions a) p))
    else captions a !! p.
Proof.
  intros Htag. unfold remove_tag_from_selected.
  rewrite (bool_decide_eq_true_2 (strip text ≠ "")) by done. cbn [andb].
  case_bool_decide as Hsel.
  - destruct (foldl _ _ _) as [a' d'] eqn:Hf. cbn [fst].
    rewrite update_tag_list_captions.
    rewrite (proj1 (focus_first_selected_frame set_iter a')).
    replace a' with (foldl (remove_tag_step (strip text)) (a, d)
                       (set_iter (selected_images a))).1 by by rewrite Hf.
    rewrite remove_steps_captions by apply set_iter_nodup.
    destruct (decide (p ∈ selected_images a ∧ _)) as [[Hp Ht]|Hn].
    + rewrite decide_True; [done|]. by rewrite elem_of_set_iter.
    + rewrite decide_False; [done|]. by rewrite elem_of_set_iter.
  - cbn. rewrite decide_False; [done|]. intros [Hp _].
    rewrite Hsel in Hp. by apply not_elem_of_empty in Hp.
Qed.

(** X3.  What the two tag edits do to the captions.  Adding a tag appends
    it to the caption of every selected image that does not carry it, and
    gives such an image a caption if it had none; removing a tag takes its
    first occurrence out of the caption of every selected image that
    carries it, so a tag that a caption lists twice is still there after
    one removal.  No other caption changes. *)
Theorem tag_edits_change_selected_captions text a d :
  strip text ≠ "" →
  let tag := strip text in
  let added := (add_tag_to_selected set_iter text a d).1 in
  let removed := (remove_tag_from_selected set_iter text a d).1 in
  (∀ p, captions added !! p
        = if decide (p ∈ selected_images a ∧ tag ∉ get_tags (captions a) p)
          then Some (get_tags (captions a) p ++ [tag])
          else captions a !! p)
  ∧ (∀ p, captions removed !! p
          = if decide (p ∈ selected_images a ∧ tag ∈ get_tags (captions a) p)
            then Some (list_remove tag (get_tags (captions a) p))
            else captions a !! p)
  ∧ (∀ p, p ∈ selected_images a → tag ∈ get_tags (captions added) p)
  ∧ (∀ p, p ∈ selected_images a →
          tag_count tag (get_tags (captions removed) p)
          = pred (tag_count tag (get_tags (captions a) p))).
Proof.
  intros Htag tag added removed. subst tag added removed. split_and!.
  - intros p. by apply add_tag_captions.
  - intros p. by apply remove_tag_captions.
  - intros p Hp. unfold get_tags at 1. rewrite add_tag_captions by done.
    destruct (decide (strip text ∈ get_tags (captions a) p)) as [Hin|Hin].
    + rewrite decide_False by tauto. done.
    + rewrite decide_True by done. cbn. apply elem_of_app. right. by left.
  - intros p Hp. unfold get_tags at 1. rewrite remove_tag_captions by done.
    destruct (decide (strip text ∈ get_tags (captions a) p)) as [Hin|Hin].
    + rewrite decide_True by done. cbn.
      by rewrite <- (tag_count_remove_same _ _ Hin).
    + rewrite decide_False by tauto.
      change (default [] (captions a !! p)) with (get_tags (captions a) p).
      by rewrite (proj2 (tag_count_0 _ _) Hin).
Qed.

(** X4.  Removing a tag right after adding it to a selection that did
    not carry it restores the tags of every image, the frequencies and
    the set of known tags. *)
Theorem add_then_remove_restores text a d :
  index_agrees a →
  (∀ p, p ∈ selected_images a → strip text ∉ get_tags (captions a) p) →
  let added := add_tag_to_selected set_iter text a d in
  let a2 := (remove_tag_from_selected set_iter text added.1 added.2).1 in
  (∀ p, get_tags (captions a2) p = get_tags (captions a) p)
  ∧ tag_frequency a2 = tag_frequency a
  ∧ all_tags a2 = all_tags a.
Proof.
  intros Hagree Habsent added. subst added.
  destruct (add_tag_to_selected set_iter text a d) as [a1 d1] eqn:Hadd.
  cbn [fst snd]. cbn zeta.
  assert (Ha1 : a1 = (add_tag_to_selected set_iter text a d).1)
    by by rewrite Hadd.
  assert (Hagree1 : index_agrees a1)
    by (rewrite Ha1; by apply add_tag_to_selected_agrees).
  pose proof (remove_tag_from_selected_agrees set_iter text a1 d1 Hagree1)
    as Hagree2.
  set (a2 := (remove_tag_from_selected set_iter text a1 d1).1) in *.
  assert (Hsel : selected_images a1 = selected_images a).
  { rewrite Ha1. unfold add_tag_to_selected.
    destruct (_ && _); [|done].
    destruct (foldl _ _ _) as [a' d'] eqn:Hf. cbn [fst].
    rewrite Selection.update_tag_list_selected.
    assert (selected_images a' = selected_images a) as Ha'.
    { replace a' with (foldl (add_tag_step (strip text)) (a, d)
                         (set_iter (selected_images a))).1 by by rewrite Hf.
      by rewrite add_steps_selected. }
    unfold focus_first_selected.
    by destruct (set_iter (selected_images a')). }
  assert (Htags : ∀ p, get_tags (captions a2) p = get_tags (captions a) p).
  { intros p. destruct (decide (strip text = "")) as [He|Hne].
    - subst a2. rewrite Ha1. unfold remove_tag_from_selected, add_tag_to_selected.
      by rewrite (bool_decide_eq_false_2 (strip text ≠ "")) by tauto.
    - subst a2.
      assert (Hc1 : captions a1 !! p
                    = if decide (p ∈ selected_images a
                                 ∧ strip text ∉ get_tags (captions a) p)
                      then Some (get_tags (captions a) p ++ [strip text])
                      else captions a !! p)
        by (rewrite Ha1; by apply add_tag_captions).
      destruct (decide (p ∈ selected_images a)) as [Hp|Hp].
      + specialize (Habsent p Hp). rewrite decide_True in Hc1 by done.
        assert (Hg1 : get_tags (captions a1) p
                      = get_tags (captions a) p ++ [strip text])
          by (unfold get_tags at 1; by rewrite Hc1).
        unfold get_tags at 1. rewrite remove_tag_captions by done.
        rewrite Hsel, Hg1, decide_True.
        * cbn. by apply list_remove_last.
        * split; [done|]. apply elem_of_app. right. by left.
      + rewrite decide_False in Hc1 by tauto.
        unfold get_tags at 1. rewrite remove_tag_captions by done.
        rewrite Hsel, decide_False by tauto. by rewrite Hc1. }
  assert (Hfreq : tag_frequency a2 = tag_frequency a).
  { apply map_eq. intros t. destruct Hagree2 as [Hf2 _], Hagree as [Hf _].
    rewrite Hf2, Hf. by rewrite (occurrences_get_tags t _ _ Htags). }
  split_and!; [done..|].
  destruct Hagree2 as [_ ->], Hagree as [_ ->]. by rewrite Hfreq.
Qed.

Lemma add_tag_unfold text a d :
  strip text ≠ "" → selected_images a ≠ ∅ →
  add_tag_to_selected set_iter text a d
  = let w := foldl (add_tag_step (strip text)) (a, d)
                   (set_iter (selected_images a)) in
    (update_tag_list (focus_first_selected set_iter w.1), w.2).
Proof.
  intros Htag Hsel. unfold add_tag_to_selected.
  rewrite !bool_decide_eq_true_2 by done. cbn [andb].
  by destruct (foldl _ _ _).
Qed.

Lemma remove_tag_unfold text a d :
  strip text ≠ "" → selected_images a ≠ ∅ →
  remove_tag_from_selected set_iter text a d
  = let w := foldl (remove_tag_step (strip text)) (a, d)
                   (set_iter (selected_images a)) in
    (update_tag_list (focus_first_selected set_iter w.1), w.2).
Proof.
  intros Htag Hsel. unfold remove_tag_from_selected.
  rewrite !bool_decide_eq_true_2 by done. cbn [andb].
  by destruct (foldl _ _ _).
Qed.

Lemma tag_edit_noop text a :
  ¬ (strip text ≠ "" ∧ selected_images a ≠ ∅) →
  ∀ d, add_tag_to_selected set_iter text a d = (a, d)
       ∧ remove_tag_from_selected set_iter text a d = (a, d).
Proof.
  intros Hn d. unfold add_tag_to_selected, remove_tag_from_selected.
  destruct (bool_decide (strip text ≠ "")) eqn:H1;
    destruct (bool_decide (selected_images a ≠ ∅)) eqn:H2; try done.
  apply bool_decide_eq_true in H1, H2. tauto.
Qed.

Lemma focus_first_selected_selected a :
  selected_images (focus_first_selected set_iter a) = selected_images a.
Proof. unfold focus_first_selected. by destruct (set_iter _). Qed.

Lemma focus_first_selected_again a b :
  selected_images b = selected_images a →
  focus_image_path b = focus_image_path (focus_first_selected set_iter a) →
  selected_images a ≠ ∅ →
  focus_first_selected set_iter b = b.
Proof.
  intros Hs Hf Hne. unfold focus_first_selected in *. rewrite Hs.
  destruct (set_iter (selected_images a)) as [|q l] eqn:Hl; [done|].
  cbn in Hf. unfold update_focus_window. by apply set_focus_same.
Qed.

(** X5.  Adding the same tag a second time changes nothing, neither in
    the state nor on the disk. *)
Theorem add_tag_twice_is_add_tag_once text a d :
  let added := add_tag_to_selected set_iter text a d in
  add_tag_to_selected set_iter text added.1 added.2 = added.
Proof.
  intros added. subst added.
  destruct (decide (strip text ≠ "" ∧ selected_images a ≠ ∅)) as [[Ht Hs]|Hn].
  2:{ rewrite (proj1 (tag_edit_noop text a Hn d)). cbn.
      apply (tag_edit_noop text a Hn d). }
  rewrite (add_tag_unfold text a d) by done. cbn zeta.
  set (w := foldl (add_tag_step (strip text)) (a, d)
                  (set_iter (selected_images a))).
  cbn [fst snd].
  set (a1 := update_tag_list (focus_first_selected set_iter w.1)).
  assert (Hsel : selected_images a1 = selected_images a).
  { subst a1. rewrite Selection.update_tag_list_selected.
    rewrite focus_first_selected_selected. subst w.
    apply add_steps_selected. }
  assert (Hcap : captions a1 = captions w.1).
  { subst a1. rewrite update_tag_list_captions.
    apply (focus_first_selected_frame set_iter). }
  rewrite add_tag_unfold by (by rewrite ?Hsel). cbn zeta. rewrite Hsel.
  rewrite add_steps_noop.
  - cbn [fst snd]. f_equal.
    assert (focus_first_selected set_iter a1 = a1) as ->.
    { apply (focus_first_selected_again w.1).
      - rewrite Hsel. subst w. symmetry. apply add_steps_selected.
      - subst a1. by destruct (update_tag_list_frame
                                 (focus_first_selected set_iter w.1))
          as (_ & _ & _ & _ & _ & _ & _ & -> & _).
      - subst w. by rewrite add_steps_selected. }
    subst a1. apply update_tag_list_idem.
  - intros q Hq. rewrite Hcap. subst w. unfold get_tags at 1.
    rewrite add_steps_captions.
    destruct (decide (strip text ∈ get_tags (captions a) q)) as [Hin|Hin].
    + by rewrite decide_False by tauto.
    + rewrite decide_True by done. cbn. apply elem_of_app. right. by left.
Qed.

(** *** The caption files *)

Lemma save_caption_file_other p a d path :
  caption_path p ≠ path →
  Disk.files (save_caption_file p a d) !! path = Disk.files d !! path.
Proof.
  intros Hne. unfold save_caption_file, Disk.write.
  destruct (decide _); [done|]. cbn. by rewrite lookup_insert_ne.
Qed.

Lemma save_caption_file_locked p a d :
  Disk.locked (save_caption_file p a d) = Disk.locked d.
Proof. unfold save_caption_file, Disk.write. by destruct (decide _). Qed.

Lemma save_caption_file_locked_path p a d path :
  path ∈ Disk.locked d →
  Disk.files (save_caption_file p a d) !! path = Disk.files d !! path.
Proof.
  intros Hl. unfold save_caption_file, Disk.write.
  destruct (decide _) as [|Hn]; [done|]. cbn.
  rewrite lookup_insert_ne; [done|]. by intros <-.
Qed.

Lemma add_tag_step_disk tag a d q :
  (add_tag_step tag (a, d) q).2 = d
  ∨ (add_tag_step tag (a, d) q).2
    = save_caption_file q (add_tag_step tag (a, d) q).1 d.
Proof. unfold add_tag_step. destruct (mem _ _); [by left|by right]. Qed.

Lemma remove_tag_step_disk tag a d q :
  (remove_tag_step tag (a, d) q).2 = d
  ∨ (remove_tag_step tag (a, d) q).2
    = save_caption_file q (remove_tag_step tag (a, d) q).1 d.
Proof. unfold remove_tag_step. destruct (mem _ _); [by right|by left]. Qed.

(** What a loop whose body saves at most the caption file of its image
    leaves alone. *)
Lemma steps_disk_frame (step : app * Disk.disk → string → app * Disk.disk) :
  (∀ a d q, (step (a, d) q).2 = d
            ∨ (step (a, d) q).2 = save_caption_file q (step (a, d) q).1 d) →
  ∀ l a d,
    let d' := (foldl step (a, d) l).2 in
    Disk.locked d' = Disk.locked d
    ∧ (∀ path, path ∈ Disk.locked d →
               Disk.files d' !! path = Disk.files d !! path)
    ∧ (∀ path, (∀ q, q ∈ l → caption_path q ≠ path) →
               Disk.files d' !! path = Disk.files d !! path).
Proof.
  intros Hstep l. induction l as [|q l IH]; intros a d d'; subst d'.
  { done. }
  cbn [foldl]. destruct (step (a, d) q) as [a1 d1] eqn:Hs.
  destruct (IH a1 d1) as (Hl & Hlp & Hfr).
  assert (Hd1 : d1 = d ∨ d1 = save_caption_file q a1 d).
  { specialize (Hstep a d q). by rewrite Hs in Hstep. }
  assert (Hl1 : Disk.locked d1 = Disk.locked d).
  { destruct Hd1 as [->| ->]; [done|apply save_caption_file_locked]. }
  split_and!.
  - by rewrite Hl.
  - intros path Hp. rewrite Hlp by by rewrite Hl1.
    destruct Hd1 as [->| ->]; [done|by apply save_caption_file_locked_path].
  - intros path Hp. rewrite Hfr by (intros q' Hq'; apply Hp; by right).
    destruct Hd1 as [->| ->]; [done|].
    apply save_caption_file_other, Hp. by left.
Qed.

Lemma add_tag_step_written tag a d p :
  tag ∉ get_tags (captions a) p → caption_path p ∉ Disk.locked d →
  Disk.files (add_tag_step tag (a, d) p).2 !! caption_path p
  = Some (join ", " (get_tags (captions a) p ++ [tag])).
Proof.
  intros Hn Hfree. unfold add_tag_step.
  rewrite (proj2 (mem_false _ _)) by done. cbn [snd].
  rewrite save_caption_file_written by done. cbn.
  unfold get_tags at 1. by rewrite lookup_insert_eq.
Qed.

Lemma remove_tag_step_written tag a d p :
  tag ∈ get_tags (captions a) p → caption_path p ∉ Disk.locked d →
  Disk.files (remove_tag_step tag (a, d) p).2 !! caption_path p
  = Some (join ", " (list_remove tag (get_tags (captions a) p))).
Proof.
  intros Hn Hfree. unfold remove_tag_step.
  rewrite (proj2 (mem_true _ _)) by done. cbn [snd].
  rewrite save_caption_file_written by done.
  rewrite forget_tag_captions. cbn.
  unfold get_tags at 1. by rewrite lookup_insert_eq.
Qed.

(** The caption file of [p] after a loop over [l] that reaches [p] once,
    given what the body does at [p]. *)
Lemma steps_written (step : app * Disk.disk → string → app * Disk.disk)
    (new : list string → list string) (changes : list string → Prop) :
  (∀ a d q, (step (a, d) q).2 = d
            ∨ (step (a, d) q).2 = save_caption_file q (step (a, d) q).1 d) →
  (∀ a d q p, p ≠ q →
     get_tags (captions (step (a, d) q).1) p = get_tags (captions a) p) →
  (∀ a d p, changes (get_tags (captions a) p) →
            caption_path p ∉ Disk.locked d →
            Disk.files (step (a, d) p).2 !! caption_path p
            = Some (join ", " (new (get_tags (captions a) p)))) →
  ∀ l a d p,
    NoDup l → p ∈ l → changes (get_tags (captions a) p) →
    caption_path p ∉ Disk.locked d →
    (∀ q, q ∈ l → caption_path q = caption_path p → q = p) →
    Disk.files (foldl step (a, d) l).2 !! caption_path p
    = Some (join ", " (new (get_tags (captions a) p))).
Proof.
  intros Hdisk Hother Hwrite l.
  induction l as [|q l IH]; intros a d p Hnd Hp Hch Hfree Hinj.
  { by apply not_elem_of_nil in Hp. }
  apply NoDup_cons in Hnd as [Hq Hnd]. cbn [foldl].
  destruct (step (a, d) q) as [a1 d1] eqn:Hs.
  destruct (decide (p = q)) as [->|Hne].
  - destruct (steps_disk_frame step Hdisk l a1 d1) as (_ & _ & Hfr).
    rewrite Hfr.
    + replace d1 with (step (a, d) q).2 by by rewrite Hs. by apply Hwrite.
    + intros q' Hq' Heq. apply Hinj in Heq; [|by right]. by subst q'.
  - apply elem_of_cons in Hp as [?|Hp]; [done|].
    assert (Hg : get_tags (captions a1) p = get_tags (captions a) p).
    { replace a1 with (step (a, d) q).1 by by rewrite Hs. by apply Hother. }
    rewrite <- Hg. apply IH; try done.
    + by rewrite Hg.
    + destruct (steps_disk_frame step Hdisk [q] a d) as (Hl & _ & _).
      cbn [foldl] in Hl. rewrite Hs in Hl. cbn in Hl. by rewrite Hl.
    + intros q' Hq'. apply Hinj. by right.
Qed.

(** X6.  The two tag edits and the caption files.  They write no file
    but the caption files of the selected images, and none that is
    locked; a failed write does not stop them.  Where the edit changes
    the caption of a selected image whose caption file can be written and
    is not shared with another selected image, the file holds the new
    caption afterwards, its tags joined by a comma and a blank. *)
Theorem tag_edits_write_caption_files text a d :
  strip text ≠ "" →
  let tag := strip text in
  let added := add_tag_to_selected set_iter text a d in
  let removed := remove_tag_from_selected set_iter text a d in
  let untouched (d' : Disk.disk) :=
    Disk.locked d' = Disk.locked d
    ∧ (∀ path, path ∈ Disk.locked d →
               Disk.files d' !! path = Disk.files d !! path)
    ∧ (∀ path, (∀ q, q ∈ selected_images a → caption_path q ≠ path) →
               Disk.files d' !! path = Disk.files d !! path) in
  let written (c : list string → Prop) (w : app * Disk.disk) :=
    ∀ p, p ∈ selected_images a → c (get_tags (captions a) p) →
         caption_path p ∉ Disk.locked d →
         (∀ q, q ∈ selected_images a →
               caption_path q = caption_path p → q = p) →
         Disk.files w.2 !! caption_path p
         = Some (join ", " (get_tags (captions w.1) p)) in
  untouched added.2 ∧ untouched removed.2
  ∧ written (λ tags, tag ∉ tags) added
  ∧ written (λ tags, tag ∈ tags) removed.
Proof.
  intros Htag tag added removed untouched written.
  subst tag added removed untouched written. cbn beta.
  destruct (decide (selected_images a ≠ ∅)) as [Hsel|Hsel].
  2:{ destruct (tag_edit_noop text a (λ H, Hsel (proj2 H)) d) as [-> ->].
      apply dec_stable in Hsel. cbn [fst snd].
      split_and!; try done; intros p Hp; rewrite Hsel in Hp;
        by apply not_elem_of_empty in Hp. }
  rewrite add_tag_unfold, remove_tag_unfold by done. cbn zeta. cbn [fst snd].
  split; [|split; [|split]].
  - destruct (steps_disk_frame _ (add_tag_step_disk (strip text))
                (set_iter (selected_images a)) a d) as (? & ? & Hfr).
    split_and!; [done..|]. intros path Hp. apply Hfr.
    intros q Hq. apply Hp. by apply elem_of_set_iter.
  - destruct (steps_disk_frame _ (remove_tag_step_disk (strip text))
                (set_iter (selected_images a)) a d) as (? & ? & Hfr).
    split_and!; [done..|]. intros path Hp. apply Hfr.
    intros q Hq. apply Hp. by apply elem_of_set_iter.
  - intros p Hp Hch Hfree Hinj.
    rewrite (steps_written (add_tag_step (strip text))
               (λ tags, tags ++ [strip text]) (λ tags, strip text ∉ tags)).
    + f_equal. f_equal. unfold get_tags at 2.
      rewrite update_tag_list_captions.
      rewrite (proj1 (focus_first_selected_frame set_iter _)).
      rewrite add_steps_captions, decide_True; [done|].
      split; [by apply elem_of_set_iter|done].
    + apply add_tag_step_disk.
    + intros a0 d0 q p0 Hne. apply get_tags_lookup.
      rewrite add_tag_step_captions. rewrite decide_False; [done|]. tauto.
    + intros a0 d0 p0. apply add_tag_step_written.
    + apply set_iter_nodup.
    + by apply elem_of_set_iter.
    + done.
    + done.
    + intros q Hq. apply Hinj. by apply elem_of_set_iter.
  - intros p Hp Hch Hfree Hinj.
    rewrite (steps_written (remove_tag_step (strip text))
               (list_remove (strip text)) (λ tags, strip text ∈ tags)).
    + f_equal. f_equal. unfold get_tags at 2.
      rewrite update_tag_list_captions.
      rewrite (proj1 (focus_first_selected_frame set_iter _)).
      rewrite remove_steps_captions, decide_True;
        [done| |apply set_iter_nodup].
      split; [by apply elem_of_set_iter|done].
    + apply remove_tag_step_disk.
    + intros a0 d0 q p0 Hne. apply get_tags_lookup.
      rewrite remove_tag_step_captions. rewrite decide_False; [done|]. tauto.
    + intros a0 d0 p0. apply remove_tag_step_written.
    + apply set_iter_nodup.
    + by apply elem_of_set_iter.
    + done.
    + done.
    + intros q Hq. apply Hinj. by apply elem_of_set_iter.
Qed.

End WithIteration.

Lemma tag_edits_change_selected_captions_witness :
  let a := Samples.selected_pets in
  let tag := strip " cat " in
  let added :=
    (add_tag_to_selected Samples.iter " cat " a Samples.disk_pets).1 in
  let removed :=
    (remove_tag_from_selected Samples.iter " cat " a Samples.disk_pets).1 in
  (∀ p, captions added !! p
        = if decide (p ∈ selected_images a ∧ tag ∉ get_tags (captions a) p)
          then Some (get_tags (captions a) p ++ [tag])
          else captions a !! p)
  ∧ (∀ p, captions removed !! p
          = if decide (p ∈ selected_images a ∧ tag ∈ get_tags (captions a) p)
            then Some (list_remove tag (get_tags (captions a) p))
            else captions a !! p)
  ∧ (∀ p, p ∈ selected_images a → tag ∈ get_tags (captions added) p)
  ∧ (∀ p, p ∈ selected_images a →
          tag_count tag (get_tags (captions removed) p)
          = pred (tag_count tag (get_tags (captions a) p))).
Proof.
  apply (tag_edits_change_selected_captions Samples.iter (λ s, reflexivity _)
           " cat " Samples.selected_pets Samples.disk_pets).
  by_evaluation.
Defined.

Lemma add_then_remove_restores_witness :
  let a := Samples.selected_pets in
  let added := add_tag_to_selected Samples.iter " pet " a Samples.disk_pets in
  let a2 := (remove_tag_from_selected Samples.iter " pet " added.1 added.2).1 in
  (∀ p, get_tags (captions a2) p = get_tags (captions a) p)
  ∧ tag_frequency a2 = tag_frequency a
  ∧ all_tags a2 = all_tags a.
Proof.
  apply (add_then_remove_restores Samples.iter (λ s, reflexivity _)
           " pet " Samples.selected_pets Samples.disk_pets).
  - apply update_gallery_agrees. eapply index_agrees_eq; [done..|].
    apply populate_gallery_agrees. apply Loading.load_establishes_index.
    by_evaluation.
  - change (set_Forall (λ p, strip " pet "
                             ∉ get_tags (captions Samples.selected_pets) p)
              (selected_images Samples.selected_pets)).
    by_evaluation.
Defined.

Lemma tag_edits_write_caption_files_witness :
  let a := Samples.selected_pets in
  let d := Samples.disk_pets in
  let tag := strip " cat " in
  let added := add_tag_to_selected Samples.iter " cat " a d in
  let removed := remove_tag_from_selected Samples.iter " cat " a d in
  let untouched (d' : Disk.disk) :=
    Disk.locked d' = Disk.locked d
    ∧ (∀ path, path ∈ Disk.locked d →
               Disk.files d' !! path = Disk.files d !! path)
    ∧ (∀ path, (∀ q, q ∈ selected_images a → caption_path q ≠ path) →
               Disk.files d' !! path = Disk.files d !! path) in
  let written (c : list string → Prop) (w : app * Disk.disk) :=
    ∀ p, p ∈ selected_images a → c (get_tags (captions a) p) →
         caption_path p ∉ Disk.locked d →
         (∀ q, q ∈ selected_images a →
               caption_path q = caption_path p → q = p) →
         Disk.files w.2 !! caption_path p
         = Some (join ", " (get_tags (captions w.1) p)) in
  untouched added.2 ∧ untouched removed.2
  ∧ written (λ tags, tag ∉ tags) added
  ∧ written (λ tags, tag ∈ tags) removed.
Proof.
  apply (tag_edits_write_caption_files Samples.iter (λ s, reflexivity _)
           " cat " Samples.selected_pets Samples.disk_pets).
  by_evaluation.
Defined.

End EditEffects.

(** ** The fields that redrawing leaves alone *)

Module Redraw.
Import DatCure TagIndex TagList.

Lemma update_tag_list_images a : images (update_tag_list a) = images a.
Proof. apply update_tag_list_frame. Qed.
Lemma update_tag_list_selected_images a :
  selected_images (update_tag_list a) = selected_images a.
Proof. apply update_tag_list_frame. Qed.
Lemma update_tag_list_all_tags a : all_tags (update_tag_list a) = all_tags a.
Proof. apply update_tag_list_frame. Qed.
Lemma update_tag_list_filtered_images a :
  filtered_images (update_tag_list a) = filtered_images a.
Proof. apply update_tag_list_frame. Qed.
Lemma update_tag_list_filter_active a :
  filter_active (update_tag_list a) = filter_active a.
Proof. apply update_tag_list_frame. Qed.
Lemma update_tag_list_filter_mode a :
  filter_mode (update_tag_list a) = filter_mode a.
Proof. apply update_tag_list_frame. Qed.
Lemma update_tag_list_focus a :
  focus_image_path (update_tag_list a) = focus_image_path a.
Proof. apply update_tag_list_frame. Qed.
Lemma update_tag_list_include_subdirs a :
  include_subdirs (update_tag_list a) = include_subdirs a.
Proof. apply update_tag_list_frame. Qed.
Lemma update_tag_list_gallery a : gallery (update_tag_list a) = gallery a.
Proof. apply update_tag_list_frame. Qed.

Create Rewrite HintDb fields.

#[export] Hint Rewrite update_tag_list_images update_tag_list_captions
  update_tag_list_selected_images update_tag_list_all_tags
  update_tag_list_filtered_images update_tag_list_filter_active
  update_tag_list_filter_mode update_tag_list_focus
  update_tag_list_include_subdirs update_tag_list_gallery : fields.

(** The projections of a state built from setters and
    [update_tag_list]. *)
Ltac fields :=
  repeat first
    [ progress cbn [images captions tag_frequency selected_images
                    all_tags filtered_images filter_active filter_mode
                    focus_image_path include_subdirs tag_list gallery
                    set_images set_captions set_tag_frequency
                    set_selected_images set_all_tags set_filtered_images
                    set_filter_active set_filter_mode
                    set_focus_image_path set_include_subdirs
                    set_tag_list set_gallery update_focus_window
                    populate_gallery]
    | progress autorewrite with fields ].

(** Two states that differ in what [update_tag_list] does not read show
    the same tag list. *)
Lemma update_tag_list_again a b :
  all_tags b = all_tags a →
  tag_frequency b = tag_frequency (update_tag_list a) →
  tag_list (update_tag_list b) = tag_list (update_tag_list a)
  ∧ tag_frequency (update_tag_list b) = tag_frequency (update_tag_list a).
Proof.
  intros Ht Hf.
  destruct (update_tag_list_ext b (update_tag_list a)) as [H1 H2];
    [by rewrite Ht, update_tag_list_all_tags|done|].
  by rewrite update_tag_list_idem in H1, H2.
Qed.

Lemma update_tag_list_same a b :
  all_tags b = all_tags a → tag_frequency b = tag_frequency a →
  tag_list (update_tag_list b) = tag_list (update_tag_list a)
  ∧ tag_frequency (update_tag_list b) = tag_frequency (update_tag_list a).
Proof. apply update_tag_list_ext. Qed.

Lemma update_tag_list_rel a b c :
  all_tags b = all_tags a →
  tag_frequency b = tag_frequency (update_tag_list a) →
  all_tags c = all_tags a → tag_frequency c = tag_frequency a →
  tag_list (update_tag_list b) = tag_list (update_tag_list c)
  ∧ tag_frequency (update_tag_list b) = tag_frequency (update_tag_list c).
Proof.
  intros Hb1 Hb2 Hc1 Hc2.
  destruct (update_tag_list_again a b Hb1 Hb2) as [-> ->].
  destruct (update_tag_list_same a c Hc1 Hc2) as [-> ->]. done.
Qed.

(** The tag list and the frequencies of two states that were redrawn,
    both built from [a]. *)
Ltac same_tag_list a :=
  fields; try done;
  first [ apply (update_tag_list_same a); by fields
        | apply (update_tag_list_again a); by fields
        | apply (update_tag_list_rel a); fields; try done;
          apply (update_tag_list_same a); by fields ].

End Redraw.

(** ** The three filters side by side *)

Module FilterModes.
Import DatCure TagIndex TagList Filtering Redraw.

Lemma filter_images_filtered item items a :
  filtered_images (filter_images (item :: items) a)
  = filter (λ p, filter_keeps (filter_mode a) (item_tag <$> item :: items)
                   (get_tags (captions a) p) = true) (images a).
Proof.
  unfold filter_images. fields.
  by rewrite (foldl_append_filter
                (λ p, filter_keeps (filter_mode a) (item_tag <$> item :: items)
                        (get_tags (captions a) p))).
Qed.

Lemma ignore_tags_filtered item items a :
  filtered_images (ignore_tags (item :: items) a)
  = filter (λ p, negb (any_tag_in (item_tag <$> item :: items)
                         (get_tags (captions a) p)) = true) (images a).
Proof.
  unfold ignore_tags. fields.
  by rewrite (foldl_append_filter
                (λ p, negb (any_tag_in (item_tag <$> item :: items)
                              (get_tags (captions a) p)))).
Qed.

Lemma all_tags_in_any chosen tags :
  chosen ≠ [] → all_tags_in chosen tags = true → any_tag_in chosen tags = true.
Proof.
  destruct chosen as [|t chosen]; [done|]. intros _. cbn.
  intros [-> _]%andb_true_iff. done.
Qed.

(** X7.  The three filters on the same choice of tags.  The images that
    the Inclusive filter keeps and those that Ignore keeps split the
    catalog in two; what the Exclusive filter keeps is a part of what the
    Inclusive filter keeps, in the same order, and all of it when a
    single tag is chosen. *)
Theorem filters_split_the_catalog a item items :
  let selected_items := item :: items in
  let inclusive :=
    filtered_images (filter_images selected_items (toggle_filter_mode false a)) in
  let exclusive :=
    filtered_images (filter_images selected_items (toggle_filter_mode true a)) in
  let ignored := filtered_images (ignore_tags selected_items a) in
  inclusive ++ ignored ≡ₚ images a
  ∧ (∀ p, p ∈ inclusive → p ∉ ignored)
  ∧ exclusive `sublist_of` inclusive
  ∧ (items = [] → exclusive = inclusive).
Proof.
  intros sel inclusive exclusive ignored.
  subst sel inclusive exclusive ignored.
  rewrite !filter_images_filtered, ignore_tags_filtered. cbn [toggle_filter_mode].
  fields. unfold filter_keeps.
  rewrite bool_decide_eq_true_2 by done.
  rewrite (bool_decide_eq_false_2 ("Exclusive" = "Inclusive")) by done.
  set (chosen := item_tag <$> item :: items).
  assert (Hign : filter (λ p, negb (any_tag_in chosen (get_tags (captions a) p))
                              = true) (images a)
                 = filter (λ p, ¬ any_tag_in chosen (get_tags (captions a) p)
                                  = true) (images a)).
  { apply list_filter_iff. intros p. by destruct (any_tag_in _ _). }
  split_and!.
  - rewrite Hign. apply filter_app_complement.
  - intros p [Hp _]%list_elem_of_filter [Hp' _]%list_elem_of_filter.
    by rewrite Hp in Hp'.
  - rewrite <- (list_filter_filter_l
                  (λ p, all_tags_in chosen (get_tags (captions a) p) = true)
                  (λ p, any_tag_in chosen (get_tags (captions a) p) = true)).
    + apply sublist_filter.
    + intros p. by apply all_tags_in_any.
  - intros ->. apply list_filter_iff. intros p. subst chosen. cbn.
    by rewrite andb_true_r, orb_false_r.
Qed.

(** X8.  A filter leaves no trace once it is cleared: clearing after
    [filter_images] or [ignore_tags] gives the state that clearing alone
    gives, and the gallery then shows the whole catalog. *)
Theorem clear_filter_undoes_filters a selected_items :
  clear_filter (filter_images selected_items a) = clear_filter a
  ∧ clear_filter (ignore_tags selected_items a) = clear_filter a
  ∧ active_view (clear_filter a) = images a
  ∧ gallery (clear_filter a) = images a.
Proof.
  split_and!.
  - destruct selected_items as [|item items]; [done|].
    unfold filter_images, clear_filter. fields.
    apply app_eq; same_tag_list a.
  - destruct selected_items as [|item items]; [done|].
    unfold ignore_tags, clear_filter. fields.
    apply app_eq; same_tag_list a.
  - unfold clear_filter, active_view. by fields.
  - unfold clear_filter. by fields.
Qed.

Lemma filter_images_unfold item items a :
  filter_images (item :: items) a
  = let result := filtered_images (filter_images (item :: items) a) in
    populate_gallery result
      (set_filter_active true (set_filtered_images result a)).
Proof.
  rewrite filter_images_filtered. unfold filter_images. cbn zeta.
  by rewrite (foldl_append_filter
                (λ p, filter_keeps (filter_mode a) (item_tag <$> item :: items)
                        (get_tags (captions a) p))).
Qed.

Lemma ignore_tags_unfold item items a :
  ignore_tags (item :: items) a
  = let result := filtered_images (ignore_tags (item :: items) a) in
    populate_gallery result
      (set_filter_active true (set_filtered_images result a)).
Proof.
  rewrite ignore_tags_filtered. unfold ignore_tags. cbn zeta.
  by rewrite (foldl_append_filter
                (λ p, negb (any_tag_in (item_tag <$> item :: items)
                              (get_tags (captions a) p)))).
Qed.

Lemma filter_after_redraw item items imgs v l a :
  filter_images (item :: items)
    (populate_gallery imgs (set_filter_active v (set_filtered_images l a)))
  = filter_images (item :: items) a
  ∧ ignore_tags (item :: items)
      (populate_gallery imgs (set_filter_active v (set_filtered_images l a)))
    = ignore_tags (item :: items) a.
Proof.
  split.
  - rewrite (filter_images_unfold item items a), filter_images_unfold.
    rewrite !filter_images_filtered. cbn zeta. fields.
    apply app_eq; same_tag_list a.
  - rewrite (ignore_tags_unfold item items a), ignore_tags_unfold.
    rewrite !ignore_tags_filtered. cbn zeta. fields.
    apply app_eq; same_tag_list a.
Qed.

(** X9.  Filters do not stack.  [filter_images] and [ignore_tags]
    always go through the whole catalog, so applying one of them to a
    view that is already filtered gives what it gives on the unfiltered
    view: the second filter replaces the first one. *)
Theorem filters_do_not_stack a item items earlier :
  let selected_items := item :: items in
  filter_images selected_items (filter_images earlier a)
  = filter_images selected_items a
  ∧ filter_images selected_items (ignore_tags earlier a)
    = filter_images selected_items a
  ∧ ignore_tags selected_items (filter_images earlier a)
    = ignore_tags selected_items a
  ∧ ignore_tags selected_items (ignore_tags earlier a)
    = ignore_tags selected_items a.
Proof.
  intros sel. subst sel. destruct earlier as [|item' items']; [done|].
  rewrite (filter_images_unfold item' items' a).
  rewrite (ignore_tags_unfold item' items' a). cbn zeta.
  split_and!; apply filter_after_redraw.
Qed.

End FilterModes.

(** ** Toggling the selection *)

Module SelectionToggles.
Import DatCure TagIndex TagList Redraw.

Lemma symmetric_difference_twice (v s : gset string) :
  symmetric_difference v (symmetric_difference v s) = s.
Proof.
  unfold symmetric_difference. apply set_eq. intros x.
  destruct (decide (x ∈ v)), (decide (x ∈ s)); set_solver.
Qed.

Lemma symmetric_difference_same (v : gset string) :
  symmetric_difference v v = ∅.
Proof. unfold symmetric_difference. set_solver. Qed.

Lemma update_gallery_set_selected s a :
  active_view (update_gallery (set_selected_images s a)) = active_view a.
Proof.
  rewrite Selection.update_gallery_active_view. done.
Qed.

Lemma update_gallery_twice s s' a :
  update_gallery (set_selected_images s (update_gallery (set_selected_images s' a)))
  = update_gallery (set_selected_images s a).
Proof.
  unfold update_gallery. fields.
  destruct (filter_active a) eqn:Hfa; fields; rewrite ?Hfa.
  - apply app_eq; same_tag_list a.
  - apply app_eq; same_tag_list a.
Qed.

Lemma set_selected_same a : set_selected_images (selected_images a) a = a.
Proof. by destruct a. Qed.

(** X10.  The toggles of the selection undo themselves.  Inverting the
    selection twice only redraws the gallery, also when images outside
    the view are selected; inverting after "select all" is "deselect
    all"; and a second click on a thumbnail restores the selection, the
    image staying in the focus window. *)
Theorem selection_toggles_undo a :
  invert_selection (invert_selection a) = update_gallery a
  ∧ invert_selection (select_all_images a) = deselect_all_images a
  ∧ (∀ image_path,
       image_clicked image_path (image_clicked image_path a)
       = update_focus_window image_path a).
Proof.
  split_and!.
  - unfold invert_selection. rewrite update_gallery_set_selected.
    rewrite Selection.update_gallery_selected.
    cbn [selected_images set_selected_images].
    rewrite update_gallery_twice, symmetric_difference_twice.
    by rewrite set_selected_same.
  - unfold invert_selection, select_all_images, deselect_all_images.
    rewrite update_gallery_set_selected.
    rewrite Selection.update_gallery_selected.
    cbn [selected_images set_selected_images].
    by rewrite update_gallery_twice, symmetric_difference_same.
  - intros p. unfold image_clicked.
    destruct (decide (p ∈ selected_images a)) as [Hp|Hp].
    + rewrite (bool_decide_eq_true_2 _ Hp). fields.
      rewrite bool_decide_eq_false_2 by set_solver. fields.
      apply app_eq; fields; try done.
      symmetry. by apply union_difference_singleton_L.
    + rewrite (bool_decide_eq_false_2 _ Hp). fields.
      rewrite bool_decide_eq_true_2 by set_solver. fields.
      apply app_eq; fields; try done. set_solver.
Qed.

End SelectionToggles.

(** ** The selection and the catalog *)

Module Catalog.
Import DatCure Notions TagIndex TagList Redraw FilterModes EditEffects.

Lemma view_eq a b :
  view a = view b →
  filter_active a = filter_active b ∧ filtered_images a = filtered_images b
  ∧ images a = images b ∧ gallery a = gallery b.
Proof. unfold view. by intros [= -> -> -> ->]. Qed.

Lemma within_catalog_eq a b :
  images b = images a → gallery b = gallery a →
  filtered_images b = filtered_images a →
  selected_images b = selected_images a →
  within_catalog a → within_catalog b.
Proof. unfold within_catalog. by intros -> -> -> ->. Qed.

Lemma active_view_within a p :
  within_catalog a → p ∈ active_view a → p ∈ images a.
Proof.
  intros (_ & Hf & _). unfold active_view.
  destruct (filter_active a); [apply Hf|done].
Qed.

Lemma update_gallery_fields a :
  images (update_gallery a) = images a
  ∧ gallery (update_gallery a) = active_view a
  ∧ filtered_images (update_gallery a) = filtered_images a
  ∧ selected_images (update_gallery a) = selected_images a.
Proof.
  unfold update_gallery, active_view. by destruct (filter_active a); fields.
Qed.

Lemma update_gallery_within s a :
  within_catalog a → (∀ p, p ∈ s → p ∈ images a) →
  within_catalog (update_gallery (set_selected_images s a)).
Proof.
  intros Hw Hs.
  destruct (update_gallery_fields (set_selected_images s a))
    as (Hi & Hg & Hf & Hsel).
  unfold within_catalog. rewrite Hi, Hg, Hf, Hsel. fields.
  split_and!; [|apply Hw|done].
  intros p Hp. by apply (active_view_within a).
Qed.

Lemma sort_tags_fields key a d :
  images (sort_tags key a d).1 = images a
  ∧ gallery (sort_tags key a d).1 = gallery a
  ∧ filtered_images (sort_tags key a d).1 = filtered_images a
  ∧ selected_images (sort_tags key a d).1 = selected_images a.
Proof.
  unfold sort_tags. destruct (focus_image_path a); [|done].
  by destruct (_ && _).
Qed.

Section WithIteration.

Variable set_iter : gset string → list string.

Lemma add_tag_to_selected_selected text a d :
  selected_images (add_tag_to_selected set_iter text a d).1 = selected_images a.
Proof.
  unfold add_tag_to_selected. destruct (_ && _); [|done].
  destruct (foldl _ _ _) as [a' d'] eqn:Hf. cbn [fst]. fields.
  rewrite focus_first_selected_selected.
  replace a' with (foldl (add_tag_step (PyStr.strip text)) (a, d)
                     (set_iter (selected_images a))).1 by by rewrite Hf.
  apply add_steps_selected.
Qed.

Lemma remove_tag_from_selected_selected text a d :
  selected_images (remove_tag_from_selected set_iter text a d).1
  = selected_images a.
Proof.
  unfold remove_tag_from_selected. destruct (_ && _); [|done].
  destruct (foldl _ _ _) as [a' d'] eqn:Hf. cbn [fst]. fields.
  rewrite focus_first_selected_selected.
  replace a' with (foldl (remove_tag_step (PyStr.strip text)) (a, d)
                     (set_iter (selected_images a))).1 by by rewrite Hf.
  apply remove_steps_selected.
Qed.

Lemma filtered_within item items a :
  within_catalog a →
  within_catalog (filter_images (item :: items) a)
  ∧ within_catalog (ignore_tags (item :: items) a).
Proof.
  intros Hw.
  pose proof (filter_images_filtered item items a) as Hf.
  pose proof (ignore_tags_filtered item items a) as Hi.
  unfold within_catalog. split.
  - unfold filter_images in *. revert Hf. fields. intros ->.
    split_and!; [by intros p [_ ?]%list_elem_of_filter..|apply Hw].
  - unfold ignore_tags in *. revert Hi. fields. intros ->.
    split_and!; [by intros p [_ ?]%list_elem_of_filter..|apply Hw].
Qed.

Lemma perform_within act a d :
  within_catalog a →
  match act with
  | ImageClicked image_path => image_path ∈ gallery a
  | _ => True
  end →
  within_catalog (perform set_iter act (a, d)).1.
Proof.
  intros Hw Hclick. destruct act as
    [p| | | |text|text|checked|items|items| | | |dest_dir|dest_dir|checked];
    cbn [perform fst].
  - destruct Hw as (Hg & Hf & Hs). unfold image_clicked, within_catalog.
    case_bool_decide; fields; split_and!; try done; set_solver.
  - unfold select_all_images. apply update_gallery_within; [done|].
    intros p Hp%elem_of_list_to_set. by apply active_view_within.
  - unfold deselect_all_images. apply update_gallery_within; [done|].
    set_solver.
  - unfold invert_selection. apply update_gallery_within; [done|].
    unfold symmetric_difference. intros p [[Hp _]%elem_of_difference
                                          |[Hp _]%elem_of_difference]%elem_of_union.
    + apply elem_of_list_to_set in Hp. by apply active_view_within.
    + by apply Hw.
  - destruct (view_eq _ _ (TagEdits.add_tag_to_selected_view set_iter text a d))
      as (_ & ? & ? & ?).
    eapply within_catalog_eq; [done..| |done].
    apply add_tag_to_selected_selected.
  - destruct (view_eq _ _
                (TagEdits.remove_tag_from_selected_view set_iter text a d))
      as (_ & ? & ? & ?).
    eapply within_catalog_eq; [done..| |done].
    apply remove_tag_from_selected_selected.
  - by destruct checked.
  - destruct items as [|item items]; [done|]. by apply filtered_within.
  - destruct items as [|item items]; [done|]. by apply filtered_within.
  - unfold clear_filter, within_catalog. fields.
    split_and!; [done| |apply Hw]. intros p []%not_elem_of_nil.
  - destruct (sort_tags_fields key_high a d) as (? & ? & ? & ?).
    by eapply within_catalog_eq.
  - destruct (sort_tags_fields key_low a d) as (? & ? & ? & ?).
    by eapply within_catalog_eq.
  - by rewrite copy_selection_state.
  - unfold move_selection. repeat case_bool_decide; try done.
    destruct (foldl _ _ _) as [d' moved]. cbn [fst].
    unfold within_catalog. fields.
    split_and!; [done|intros p []%not_elem_of_nil|set_solver].
  - done.
Qed.

Lemma perform_all_within acts : ∀ a d,
  within_catalog a → clicks_on_gallery set_iter acts (a, d) →
  within_catalog (perform_all set_iter acts (a, d)).1.
Proof.
  induction acts as [|act acts IH]; intros a d Hw Hc; [done|].
  rewrite perform_all_cons. cbn [clicks_on_gallery] in Hc.
  destruct Hc as [Hclick Hc].
  destruct (perform set_iter act (a, d)) as [a1 d1] eqn:Hp.
  apply IH; [|done].
  replace a1 with (perform set_iter act (a, d)).1 by by rewrite Hp.
  apply perform_within; [done|]. by destruct act.
Qed.

(** X11.  Between two loads the selection stays within the catalog: as
    long as no directory is opened and the user clicks on thumbnails that
    the gallery shows, the thumbnails, the filtered images and the
    selection stay within the catalog, whatever the actions on the
    catalog are; so the tag edits and the relocations then work on
    images of the catalog only.  Opening a directory ends this when the
    gallery shows a thumbnail: the catalog is emptied at once, and the
    thumbnails stay until the result of the load arrives. *)
Theorem selection_stays_within_catalog acts a d :
  within_catalog a → clicks_on_gallery set_iter acts (a, d) →
  let a' := (perform_all set_iter acts (a, d)).1 in
  let d' := (perform_all set_iter acts (a, d)).2 in
  within_catalog a'
  ∧ (∀ dir_path pool queue,
       gallery a' ≠ [] →
       ¬ within_catalog
           (state (handle set_iter (OpenDirectory dir_path)
                     (Session a' d' pool queue)))).
Proof.
  intros Hw Hc a' d'. split; [by apply perform_all_within|].
  intros dir_path pool queue Hshown (Hg & _). cbn in Hg.
  destruct (gallery a') as [|p l]; [done|].
  by destruct (not_elem_of_nil p (Hg p ltac:(by left))).
Qed.

End WithIteration.

Lemma selection_stays_within_catalog_witness :
  let acts := [ImageClicked "/d/y.png"; FilterImages ["cat (1)"];
               InvertSelection; AddTag "pet"; MoveSelection "/dest"] in
  let a' := (perform_all Samples.iter acts
               (MoreSamples.clicked_pets, Samples.disk_pets)).1 in
  let d' := (perform_all Samples.iter acts
               (MoreSamples.clicked_pets, Samples.disk_pets)).2 in
  within_catalog a'
  ∧ (∀ dir_path pool queue,
       gallery a' ≠ [] →
       ¬ within_catalog
           (state (handle Samples.iter (OpenDirectory dir_path)
                     (Session a' d' pool queue)))).
Proof.
  apply (selection_stays_within_catalog Samples.iter
           [ImageClicked "/d/y.png"; FilterImages ["cat (1)"]; InvertSelection;
            AddTag "pet"; MoveSelection "/dest"]
           MoreSamples.clicked_pets Samples.disk_pets).
  - split_and!.
    + apply Forall_forall. by_evaluation.
    + apply Forall_forall. by_evaluation.
    + change (set_Forall (λ p, p ∈ images MoreSamples.clicked_pets)
                (selected_images MoreSamples.clicked_pets)).
      by_evaluation.
  - cbn [clicks_on_gallery]. split_and!; try done. by_evaluation.
Defined.

End Catalog.

(** ** What a load leaves alone, and what it leaves behind *)

Module Reloading.
Import DatCure Notions TagIndex Loading TagEdits TagList Redraw CaptionParsing.

Lemma count_tags_beside tags : ∀ a,
  beside_catalog (foldl count_tag a tags) = beside_catalog a.
Proof.
  induction tags as [|t tags IH]; intros a; [done|]. cbn [foldl].
  by rewrite IH.
Qed.

Lemma load_one_beside d a p : beside_catalog (load_one d a p) = beside_catalog a.
Proof. unfold load_one. by rewrite count_tags_beside. Qed.

Lemma load_all_beside d ps : ∀ a,
  beside_catalog (foldl (load_one d) a ps) = beside_catalog a.
Proof.
  induction ps as [|p ps IH]; intros a; [done|]. cbn [foldl].
  by rewrite IH, load_one_beside.
Qed.

Lemma update_tag_list_beside a :
  beside_catalog (update_tag_list a) = beside_catalog a.
Proof. unfold beside_catalog. by fields. Qed.

Lemma handle_loading set_iter e s :
  loading e →
  beside_catalog (state (handle set_iter e s)) = beside_catalog (state s)
  ∧ disk (handle set_iter e s) = disk s.
Proof.
  destruct e as [act|dir_path|i found|]; intros He; [done|..].
  - done.
  - cbn [handle]. destruct (workers s !! i) as [dir_path|] eqn:Hw; [|done].
    destruct (load_images_thread_state dir_path found (disk s) (state s))
      as (ps & _ & Hstate).
    assert (beside_catalog
              (load_images_thread dir_path found (disk s) (state s)).1
            = beside_catalog (state s)) as Hb.
    { destruct Hstate as [-> | ->].
      - apply load_all_beside.
      - change (beside_catalog (set_images ?l ?b)) with (beside_catalog b).
        apply load_all_beside. }
    by destruct (load_images_thread dir_path found (disk s) (state s))
      as [a' [l|]].
  - cbn [handle]. destruct (results s) as [|l rest]; [done|].
    cbn [state disk]. split; [|done]. unfold populate_gallery.
    change (beside_catalog (set_gallery ?l ?b)) with (beside_catalog b).
    apply update_tag_list_beside.
Qed.

Lemma run_loading set_iter es : ∀ s,
  Forall loading es →
  beside_catalog (state (run set_iter es s)) = beside_catalog (state s)
  ∧ disk (run set_iter es s) = disk s.
Proof.
  induction es as [|e es IH]; intros s Hes; [done|].
  apply Forall_cons in Hes as [He Hes]. rewrite run_cons.
  destruct (IH (handle set_iter e s) Hes) as [-> ->].
  by apply handle_loading.
Qed.

(** X12.  Opening a directory, the run of a worker and the arrival of
    its result reset neither the filter nor the focus window, and write
    nothing to the disk.  So a filter that is active stays active over a
    load, with the images it kept before, and "select all" then selects
    those. *)
Theorem loading_keeps_filter_and_focus set_iter es s :
  Forall loading es →
  let a := state s in
  let a' := state (run set_iter es s) in
  filtered_images a' = filtered_images a
  ∧ filter_active a' = filter_active a
  ∧ filter_mode a' = filter_mode a
  ∧ focus_image_path a' = focus_image_path a
  ∧ include_subdirs a' = include_subdirs a
  ∧ disk (run set_iter es s) = disk s
  ∧ (filter_active a = true →
     selected_images (select_all_images a') = list_to_set (filtered_images a)).
Proof.
  intros Hes a a'. subst a a'.
  destruct (run_loading set_iter es s Hes) as [Hb Hd].
  unfold beside_catalog in Hb. injection Hb as H1 H2 H3 H4 H5.
  split_and!; try done.
  intros Hact. unfold select_all_images.
  rewrite Selection.update_gallery_selected. cbn [selected_images
    set_selected_images]. unfold active_view. by rewrite H2, Hact, H1.
Qed.

Lemma loading_keeps_filter_and_focus_witness :
  let s := MoreSamples.filtered_pets in
  let es := [OpenDirectory "/a"; WorkerRuns 0 Samples.tree_a; ResultArrives] in
  let a := state s in
  let a' := state (run Samples.iter es s) in
  filtered_images a' = filtered_images a
  ∧ filter_active a' = filter_active a
  ∧ filter_mode a' = filter_mode a
  ∧ focus_image_path a' = focus_image_path a
  ∧ include_subdirs a' = include_subdirs a
  ∧ disk (run Samples.iter es s) = disk s
  ∧ (filter_active a = true →
     selected_images (select_all_images a') = list_to_set (filtered_images a)).
Proof.
  apply (loading_keeps_filter_and_focus Samples.iter
           [OpenDirectory "/a"; WorkerRuns 0 Samples.tree_a; ResultArrives]
           MoreSamples.filtered_pets).
  by repeat constructor.
Defined.

(** *** The same directory, opened twice *)

Lemma load_one_frequency d a p (n : string → nat) :
  (∀ t, tag_frequency a !! t
        = if decide (n t = 0%nat) then None else Some (Z.of_nat (n t))) →
  ∀ t, tag_frequency (load_one d a p) !! t
       = if decide ((n t + tag_count t (read_caption d p))%nat = 0%nat)
         then None
         else Some (Z.of_nat (n t + tag_count t (read_caption d p))).
Proof. intros Hn t. unfold load_one. by apply count_tags_lookup. Qed.

Lemma load_all_frequency d ps : ∀ a (n : string → nat),
  (∀ t, tag_frequency a !! t
        = if decide (n t = 0%nat) then None else Some (Z.of_nat (n t))) →
  ∀ t, tag_frequency (foldl (load_one d) a ps) !! t
       = if decide ((n t + listed d t ps)%nat = 0%nat) then None
         else Some (Z.of_nat (n t + listed d t ps)).
Proof.
  induction ps as [|p ps IH]; intros a n Hn t; cbn [foldl].
  - unfold listed. cbn. rewrite Nat.add_0_r. apply Hn.
  - rewrite (IH _ (λ t, (n t + tag_count t (read_caption d p))%nat)).
    + unfold listed. cbn [sum_list_with]. by rewrite Nat.add_assoc.
    + by apply load_one_frequency.
Qed.

Lemma occurrences_listed d t ps : ∀ c : gmap string (list string),
  NoDup ps →
  (∀ p, c !! p = if decide (p ∈ ps) then Some (read_caption d p) else None) →
  occurrences t c = listed d t ps.
Proof.
  induction ps as [|q ps IH]; intros c Hnd Hc.
  - replace c with (∅ : gmap string (list string)); [apply occurrences_empty|].
    apply map_eq. intros p. rewrite Hc, lookup_empty.
    rewrite decide_False; [done|]. apply not_elem_of_nil.
  - apply NoDup_cons in Hnd as [Hq Hnd].
    rewrite (occurrences_delete t c q). unfold listed. cbn [sum_list_with].
    f_equal.
    + unfold get_tags. rewrite Hc, decide_True; [done|]. by left.
    + apply IH; [done|]. intros p. destruct (decide (p = q)) as [->|Hne].
      * rewrite lookup_delete_eq. by rewrite decide_False.
      * rewrite lookup_delete_ne by done. rewrite Hc.
        destruct (decide (p ∈ ps)) as [Hp|Hp].
        -- rewrite decide_True; [done|]. by right.
        -- rewrite decide_False; [done|]. by intros [?|?]%elem_of_cons.
Qed.

Lemma update_tag_list_default a t :
  default 0 (tag_frequency (update_tag_list a) !! t)
  = default 0 (tag_frequency a !! t).
Proof.
  rewrite update_tag_list_lookup. destruct (tag_frequency a !! t); [done|].
  by destruct (decide (t ∈ all_tags a)).
Qed.

(** X13.  When the same directory is opened a second time before the
    worker of the first load has run, the caption files can be opened and
    the two workers run one after the other, both workers count the tags:
    the catalog and the captions are those of one load, and every
    frequency is twice the number of occurrences of the tag in the
    captions. *)
Theorem same_directory_opened_twice set_iter a d dir_path found :
  NoDup (scan_images dir_path found) → captions_open d dir_path found →
  let s := run set_iter
             [OpenDirectory dir_path; OpenDirectory dir_path;
              WorkerRuns 0 found; WorkerRuns 0 found;
              ResultArrives; ResultArrives]
             (Session a d [] []) in
  images (state s) = scan_images dir_path found
  ∧ (∀ p, captions (state s) !! p
          = if decide (p ∈ scan_images dir_path found)
            then Some (read_caption d p) else None)
  ∧ (∀ tag, default 0 (tag_frequency (state s) !! tag)
            = 2 * Z.of_nat (occurrences tag (captions (state s)))).
Proof.
  intros Hnd Hopen s.
  set (ps := scan_images dir_path found) in *.
  set (a0 := load_images (load_images a)).
  set (a1 := foldl (load_one d) a0 ps).
  set (a2 := foldl (load_one d) (set_images ps a1) ps).
  assert (Hs : s = Session (populate_gallery ps
                              (populate_gallery ps (set_images ps a2)))
                           d [] []).
  { unfold s. rewrite !run_cons, !handle_open.
    cbn [state disk workers results]. rewrite ?app_nil_l.
    rewrite (handle_worker _ 0 found (Session _ _ _ _) dir_path) by done.
    cbn [state disk workers results].
    rewrite (handle_worker _ 0 found (Session _ _ _ _) dir_path) by done.
    cbn [run foldl handle state disk workers results fmap list_fmap List.app
         detach delivered images set_images].
    f_equal. f_equal. unfold populate_gallery. by fields. }
  rewrite Hs. cbn [state]. unfold populate_gallery. fields.
  assert (Hcap : ∀ p, captions a2 !! p
                      = if decide (p ∈ ps) then Some (read_caption d p)
                        else None).
  { intros p. unfold a2. rewrite load_all_captions. cbn [captions set_images].
    unfold a1. rewrite load_all_captions.
    destruct (decide (p ∈ ps)); [done|]. apply lookup_empty. }
  split_and!; [done|done|]. intros tag.
  rewrite update_tag_list_default. cbn [tag_frequency set_gallery].
  rewrite update_tag_list_default. cbn [tag_frequency set_images].
  rewrite (occurrences_listed d tag ps _ Hnd Hcap).
  unfold a2.
  rewrite (load_all_frequency d ps _ (λ t, (0 + listed d t ps)%nat)).
  - destruct (decide _) as [He|He]; cbn; lia.
  - intros t. cbn [tag_frequency set_images]. unfold a1.
    apply (load_all_frequency d ps a0 (λ _, 0%nat)). intros t'. unfold a0. cbn.
    apply lookup_empty.
Qed.

Lemma same_directory_opened_twice_witness :
  let s := run Samples.iter
             [OpenDirectory "/d"; OpenDirectory "/d";
              WorkerRuns 0 Samples.tree_pets; WorkerRuns 0 Samples.tree_pets;
              ResultArrives; ResultArrives]
             (Session init Samples.disk_pets [] []) in
  images (state s) = scan_images "/d" Samples.tree_pets
  ∧ (∀ p, captions (state s) !! p
          = if decide (p ∈ scan_images "/d" Samples.tree_pets)
            then Some (read_caption Samples.disk_pets p) else None)
  ∧ (∀ tag, default 0 (tag_frequency (state s) !! tag)
            = 2 * Z.of_nat (occurrences tag (captions (state s)))).
Proof.
  apply (same_directory_opened_twice Samples.iter init Samples.disk_pets
           "/d" Samples.tree_pets).
  - by_evaluation.
  - by_evaluation.
Defined.

(** *** What a load that runs alone leaves behind *)

Lemma count_tags_all tags : ∀ a,
  all_tags (foldl count_tag a tags) = list_to_set tags ∪ all_tags a.
Proof.
  induction tags as [|t tags IH]; intros a; cbn [foldl].
  - set_solver.
  - rewrite IH. cbn. set_solver.
Qed.

Lemma load_all_all_tags d ps : ∀ a tag,
  tag ∈ all_tags (foldl (load_one d) a ps)
  ↔ tag ∈ all_tags a ∨ ∃ p, p ∈ ps ∧ tag ∈ read_caption d p.
Proof.
  induction ps as [|q ps IH]; intros a tag; cbn [foldl].
  - split; [by left|]. intros [?|(p & []%not_elem_of_nil & _)]. done.
  - rewrite IH. unfold load_one at 1. rewrite count_tags_all.
    cbn [all_tags set_captions]. rewrite elem_of_union, elem_of_list_to_set.
    split.
    + intros [[?|?]|(p & ? & ?)]; [right; exists q; split; [by left|done]
                                  |by left|].
      right. exists p. split; [by right|done].
    + intros [?|(p & [->|?]%elem_of_cons & ?)]; [left; by right|left; by left|].
      right. by exists p.
Qed.

(** X14.  After a load that runs alone and finds that every caption
    file can be opened, every image of the catalog has a caption and
    nothing else has: the tags of its caption file, none when there is no
    such file.  The tags are texts that are trimmed, not empty and free of
    commas and carriage returns; the known tags are those that some
    caption lists; nothing is selected, and the gallery shows the
    catalog. *)
Theorem load_fills_captions set_iter a d dir_path found :
  captions_open d dir_path found →
  let s := run set_iter
             [OpenDirectory dir_path; WorkerRuns 0 found; ResultArrives]
             (Session a d [] []) in
  let a' := state s in
  (∀ p, captions a' !! p
        = if decide (p ∈ images a') then Some (read_caption d p) else None)
  ∧ dom (captions a') = list_to_set (images a')
  ∧ (∀ p tags, captions a' !! p = Some tags → Forall clean_tag tags)
  ∧ (∀ tag, tag ∈ all_tags a'
            ↔ ∃ p, p ∈ images a' ∧ tag ∈ get_tags (captions a') p)
  ∧ selected_images a' = ∅
  ∧ gallery a' = images a'
  ∧ workers s = [] ∧ results s = [].
Proof.
  intros Hopen s a'.
  set (ps := scan_images dir_path found).
  set (a1 := foldl (load_one d) (load_images a) ps).
  assert (Hs : s = Session (populate_gallery ps (set_images ps a1)) d [] []).
  { unfold s. rewrite !run_cons, !handle_open.
    cbn [state disk workers results]. rewrite ?app_nil_l.
    by rewrite (handle_worker _ 0 found (Session _ _ _ _) dir_path) by done. }
  subst a'. rewrite Hs. cbn [state workers results]. fields.
  assert (Hcap : ∀ p, captions a1 !! p
                      = if decide (p ∈ ps) then Some (read_caption d p)
                        else None).
  { intros p. unfold a1. rewrite load_all_captions.
    destruct (decide (p ∈ ps)); [done|]. apply lookup_empty. }
  split_and!; try done.
  - apply set_eq. intros p. rewrite elem_of_dom, Hcap, elem_of_list_to_set.
    destruct (decide (p ∈ ps)); [by split; eauto|].
    split; [by intros [? ?]|done].
  - intros p tags. rewrite Hcap. destruct (decide _); [|done].
    intros [= <-]. apply read_caption_clean.
  - intros tag. unfold a1 at 1. rewrite load_all_all_tags.
    cbn [all_tags load_images set_tag_frequency set_all_tags]. split.
    + intros [[]%not_elem_of_empty|(p & Hp & Ht)]. exists p. split; [done|].
      unfold get_tags. by rewrite Hcap, decide_True.
    + intros (p & Hp & Ht). right. exists p. split; [done|].
      unfold get_tags in Ht. by rewrite Hcap, decide_True in Ht.
  - unfold a1.
    assert (∀ l b, selected_images (foldl (load_one d) b l) = selected_images b)
      as ->; [|done].
    induction l as [|q l IH]; intros b; [done|]. cbn [foldl]. rewrite IH.
    unfold load_one. by destruct (foldl_count_tag_frame
      (set_captions (<[q:=read_caption d q]> (captions b)) b)
      (read_caption d q)) as (_ & _ & -> & _).
Qed.

Lemma load_fills_captions_witness :
  let s := run Samples.iter
             [OpenDirectory "/d"; WorkerRuns 0 Samples.tree_pets; ResultArrives]
             (Session init Samples.disk_pets [] []) in
  let a' := state s in
  (∀ p, captions a' !! p
        = if decide (p ∈ images a') then Some (read_caption Samples.disk_pets p)
          else None)
  ∧ dom (captions a') = list_to_set (images a')
  ∧ (∀ p tags, captions a' !! p = Some tags → Forall clean_tag tags)
  ∧ (∀ tag, tag ∈ all_tags a'
            ↔ ∃ p, p ∈ images a' ∧ tag ∈ get_tags (captions a') p)
  ∧ selected_images a' = ∅
  ∧ gallery a' = images a'
  ∧ workers s = [] ∧ results s = [].
Proof.
  apply (load_fills_captions Samples.iter init Samples.disk_pets
           "/d" Samples.tree_pets).
  by_evaluation.
Defined.

End Reloading.

(** ** Sorting again *)

Module SortAgain.
Import DatCure TagIndex CaptionFile TagList Sorting Redraw EditEffects.

Lemma key_order_antisym (key : string → Z * string) :
  (∀ t, (key t).2 = t) →
  AntiSymm eq (λ t1 t2, key_le (key t1) (key t2)).
Proof.
  intros Hk t1 t2 [H1|[H1 H1']] [H2|[H2 H2']]; try lia.
  rewrite !Hk in *. by apply (anti_symm String.le).
Qed.

(** The sorted caption depends on the tags, not on their order. *)
Lemma sorted_by_perm key l1 l2 :
  (∀ t, (key t).2 = t) → l1 ≡ₚ l2 → sorted_by key l1 = sorted_by key l2.
Proof.
  intros Hk Hp.
  apply (@StronglySorted_unique _ (λ t1 t2, key_le (key t1) (key t2))
           (key_order_antisym key Hk)).
  - apply sorted_by_spec.
  - apply sorted_by_spec.
  - by rewrite (proj1 (sorted_by_spec key l1)), (proj1 (sorted_by_spec key l2)).
Qed.

Lemma sort_tags_unfold key a d p :
  focus_image_path a = Some p → p ≠ "" → is_Some (captions a !! p) →
  sort_tags key a d
  = let a1 := set_captions
                (<[p := sorted_by (key (tag_frequency a))
                          (get_tags (captions a) p)]> (captions a)) a in
    (update_focus_window p a1, save_caption_file p a1 d).
Proof.
  intros Hf Hp Hc. unfold sort_tags. rewrite Hf.
  by rewrite !bool_decide_eq_true_2 by done.
Qed.

Lemma sort_tags_idle key a d :
  ¬ (∃ p, focus_image_path a = Some p ∧ p ≠ "" ∧ is_Some (captions a !! p)) →
  sort_tags key a d = (a, d).
Proof.
  intros Hn. unfold sort_tags. destruct (focus_image_path a) as [p|]; [|done].
  destruct (decide (p ≠ "")) as [Hp|Hp];
    destruct (decide (is_Some (captions a !! p))) as [Hc|Hc].
  - destruct Hn. by exists p.
  - rewrite (bool_decide_eq_false_2 _ Hc). by rewrite andb_false_r.
  - by rewrite (bool_decide_eq_false_2 _ Hp).
  - by rewrite (bool_decide_eq_false_2 _ Hp).
Qed.

Lemma save_caption_file_twice p a b d :
  save_caption_file p b (save_caption_file p a d)
  = save_caption_file p b d.
Proof.
  unfold save_caption_file, Disk.write.
  destruct (decide (caption_path p ∈ Disk.locked d)) as [Hl|Hl]; cbn.
  - by rewrite decide_True.
  - rewrite decide_False by done. cbn. by rewrite insert_insert_eq.
Qed.

Lemma save_caption_file_ext p a b d :
  get_tags (captions a) p = get_tags (captions b) p →
  save_caption_file p a d = save_caption_file p b d.
Proof. unfold save_caption_file. by intros ->. Qed.

Lemma get_tags_insert_eq (c : gmap string (list string)) p tags :
  get_tags (<[p := tags]> c) p = tags.
Proof. unfold get_tags. by rewrite lookup_insert_eq. Qed.

Lemma sort_tags_again k1 k2 a d :
  (∀ f t, (k1 f t).2 = t) → (∀ f t, (k2 f t).2 = t) →
  sort_tags k2 (sort_tags k1 a d).1 (sort_tags k1 a d).2 = sort_tags k2 a d.
Proof.
  intros H1 H2.
  assert ((∃ p, focus_image_path a = Some p ∧ p ≠ ""
                ∧ is_Some (captions a !! p))
          ∨ ¬ (∃ p, focus_image_path a = Some p ∧ p ≠ ""
                    ∧ is_Some (captions a !! p)))
    as [(p & Hf & Hp & Hc)|Hn].
  { destruct (focus_image_path a) as [p|]; [|right; by intros (? & ? & _)].
    destruct (decide (p ≠ ""));
      [|right; intros (? & [= <-] & ? & _); done].
    destruct (decide (is_Some (captions a !! p)));
      [left; by exists p|right; intros (? & [= <-] & _ & ?); done]. }
  2:{ by rewrite (sort_tags_idle k1 a d Hn). }
  rewrite (sort_tags_unfold k1 a d p), (sort_tags_unfold k2 a d p) by done.
  cbn zeta. cbn [fst snd].
  rewrite (sort_tags_unfold k2 _ _ p); fields; try done.
  2:{ rewrite lookup_insert_eq. eauto. }
  cbn zeta. fields. rewrite !get_tags_insert_eq, insert_insert_eq.
  rewrite (sorted_by_perm (k2 (tag_frequency a))
             (sorted_by (k1 (tag_frequency a)) (get_tags (captions a) p))
             (get_tags (captions a) p)); [|apply H2|apply sorted_by_spec].
  f_equal; try by apply app_eq.
  rewrite save_caption_file_twice. apply save_caption_file_ext. fields.
  by rewrite !get_tags_insert_eq.
Qed.

(** X15.  Of two sorts in a row the last one decides.  Sorting the tags
    of the focused image a second time, in the same or in the other
    order, gives the state and the caption file that the second sort
    alone gives; in particular each sort is idempotent. *)
Theorem last_sort_decides a d :
  let low := sort_tags_low a d in
  let high := sort_tags_high a d in
  sort_tags_high high.1 high.2 = high
  ∧ sort_tags_low low.1 low.2 = low
  ∧ sort_tags_high low.1 low.2 = high
  ∧ sort_tags_low high.1 high.2 = low.
Proof.
  intros low high. subst low high. unfold sort_tags_low, sort_tags_high.
  split_and!; by apply sort_tags_again.
Qed.

Lemma drop_image_focus a p :
  focus_image_path (drop_image a p) = focus_image_path a.
Proof.
  unfold drop_image. destruct (mem p (images a)); by destruct (captions _ !! p).
Qed.

Lemma drop_images_focus l : ∀ a,
  focus_image_path (foldl drop_image a l) = focus_image_path a.
Proof.
  induction l as [|p l IH]; intros a; [done|]. cbn [foldl].
  by rewrite IH, drop_image_focus.
Qed.

(** X16.  [move_selection] does not touch the focus window.  When the
    focused image is among the images moved, it stays the focused image
    although it has left the captions, and the two sort handlers then do
    nothing. *)
Theorem sorting_after_move_does_nothing set_iter dest_dir a d image_path :
  selected_images a ≠ ∅ → dest_dir ≠ "" →
  focus_image_path a = Some image_path →
  image_path ∈ images_moved set_iter dest_dir a d →
  let moved := move_selection set_iter dest_dir a d in
  focus_image_path moved.1 = Some image_path
  ∧ captions moved.1 !! image_path = None
  ∧ sort_tags_high moved.1 moved.2 = moved
  ∧ sort_tags_low moved.1 moved.2 = moved.
Proof.
  intros Hsel Hdest Hfocus Hmoved moved.
  assert (Hc : captions moved.1 !! image_path = None).
  { subst moved.
    destruct (Relocation.move_selection_state set_iter dest_dir a d Hsel Hdest)
      as [_ ->].
    rewrite Relocation.drop_images_captions. by rewrite decide_True. }
  assert (Hf : focus_image_path moved.1 = Some image_path).
  { subst moved. unfold move_selection.
    rewrite !bool_decide_eq_false_2 by done.
    destruct (foldl _ _ _) as [d' l]. cbn [fst]. fields.
    by rewrite drop_images_focus. }
  split_and!; [done|done|..].
  - unfold sort_tags_high. rewrite sort_tags_idle; [by destruct moved|].
    intros (p & Hp & _ & [tags Ht]). rewrite Hf in Hp. injection Hp as <-.
    by rewrite Hc in Ht.
  - unfold sort_tags_low. rewrite sort_tags_idle; [by destruct moved|].
    intros (p & Hp & _ & [tags Ht]). rewrite Hf in Hp. injection Hp as <-.
    by rewrite Hc in Ht.
Qed.

Lemma sorting_after_move_does_nothing_witness :
  let moved := move_selection Samples.iter "/dest" MoreSamples.clicked_pets
                 Samples.disk_pets in
  focus_image_path moved.1 = Some "/d/x.png"
  ∧ captions moved.1 !! "/d/x.png" = None
  ∧ sort_tags_high moved.1 moved.2 = moved
  ∧ sort_tags_low moved.1 moved.2 = moved.
Proof.
  apply (sorting_after_move_does_nothing Samples.iter "/dest"
           MoreSamples.clicked_pets Samples.disk_pets "/d/x.png").
  - by_evaluation.
  - discriminate.
  - reflexivity.
  - by_evaluation.
Defined.

End SortAgain.

(** ** The files that copying and moving leave alone *)

Module OtherFiles.
Import PyStr OsPath DatCure StringFacts Relocation.

Section WithIteration.

Variable set_iter : gset string → list string.
Hypothesis set_iter_perm : ∀ s, set_iter s ≡ₚ elements s.


End WithIteration.


End OtherFiles.

(** ** Keyboard navigation *)

Module Navigation.
Import DatCure Widgets TagIndex EditEffects.

Lemma index_Some x l i :
  index x l = Some i → l !! i = Some x ∧ (i < length l)%nat.
Proof.
  revert i. induction l as [|y l IH]; intros i; [done|]. cbn.
  destruct (decide (y = x)) as [->|Hne].
  - intros [= <-]. split; [done|]. cbn. lia.
  - destruct (index x l) as [j|]; [|done]. intros [= <-].
    destruct (IH j eq_refl) as [? ?]. split; [done|]. cbn. lia.
Qed.

Lemma index_None x l : index x l = None ↔ x ∉ l.
Proof.
  induction l as [|y l IH]; cbn.
  - split; [intros _; apply not_elem_of_nil|done].
  - destruct (decide (y = x)) as [->|Hne].
    + split; [done|]. intros []. by left.
    + rewrite not_elem_of_cons. destruct (index x l); cbn.
      * split; [done|]. intros [_ Hx]. by apply IH in Hx.
      * split; [|done]. intros _. split; [done|]. by apply IH.
Qed.

Lemma index_lookup x l i :
  NoDup l → l !! i = Some x → index x l = Some i.
Proof.
  intros Hnd Hi. destruct (index x l) as [j|] eqn:Hj.
  - apply index_Some in Hj as [Hj _]. f_equal.
    by apply (NoDup_lookup l j i x).
  - apply index_None in Hj. destruct Hj. by eapply list_elem_of_lookup_2.
Qed.

Lemma getitem_nat l (i : nat) : getitem l (Z.of_nat i) = l !! i.
Proof.
  unfold getitem. rewrite bool_decide_eq_true_2 by lia. by rewrite Nat2Z.id.
Qed.

Lemma getitem_last l : getitem l (-1) = last l.
Proof.
  unfold getitem. rewrite bool_decide_eq_false_2 by lia.
  destruct l as [|x l _] using rev_ind; [done|].
  rewrite length_app. cbn [length]. rewrite bool_decide_eq_true_2 by lia.
  rewrite last_snoc.
  replace (Z.to_nat (Z.of_nat (length l + 1) + -1)) with (length l) by lia.
  by rewrite lookup_app_r, Nat.sub_diag by lia.
Qed.

Lemma nav_list_nodup a : NoDup (images a) → NoDup (nav_list a).
Proof.
  intros Hnd. unfold nav_list. case_bool_decide; [|done].
  unfold sorted_set. rewrite merge_sort_Permutation. apply NoDup_elements.
Qed.

Lemma nav_list_focus p a : nav_list (update_focus_window p a) = nav_list a.
Proof. done. Qed.

Lemma mod_index (i : nat) direction (n : nat) :
  (0 < n)%nat →
  ∃ j : nat, (Z.of_nat i + direction) `mod` Z.of_nat n = Z.of_nat j
             ∧ (j < n)%nat.
Proof.
  intros Hn.
  pose proof (Z.mod_pos_bound (Z.of_nat i + direction) (Z.of_nat n)) as Hb.
  exists (Z.to_nat ((Z.of_nat i + direction) `mod` Z.of_nat n)). lia.
Qed.

Lemma navigate_unfold direction a :
  nav_list a ≠ [] →
  navigate_focus_image direction a
  = let next_index :=
      match focus_image_path a ≫= λ p, index p (nav_list a) with
      | Some current_index =>
          (Z.of_nat current_index + direction)
            `mod` Z.of_nat (length (nav_list a))
      | None => if bool_decide (0 ≤ direction) then 0 else -1
      end in
    match getitem (nav_list a) next_index with
    | Some image_path => update_focus_window image_path a
    | None => a
    end.
Proof. unfold navigate_focus_image. by destruct (nav_list a). Qed.

Lemma navigate_at direction a p i :
  focus_image_path a = Some p → index p (nav_list a) = Some i →
  ∃ j : nat,
    (Z.of_nat i + direction) `mod` Z.of_nat (length (nav_list a)) = Z.of_nat j
    ∧ ∃ q, nav_list a !! j = Some q
           ∧ navigate_focus_image direction a = update_focus_window q a.
Proof.
  intros Hf Hi. pose proof (index_Some _ _ _ Hi) as [Hp Hlt].
  assert (nav_list a ≠ []) as Hne by (intros He; by rewrite He in Hp).
  destruct (mod_index i direction (length (nav_list a))) as (j & Hj & Hjn);
    [lia|].
  exists j. split; [done|].
  destruct (lookup_lt_is_Some_2 (nav_list a) j Hjn) as [q Hq].
  exists q. split; [done|].
  rewrite navigate_unfold by done. cbn zeta. rewrite Hf. cbn [mbind option_bind].
  rewrite Hi, Hj, getitem_nat, Hq. done.
Qed.

Lemma navigate_off direction a :
  nav_list a ≠ [] →
  (focus_image_path a ≫= λ p, index p (nav_list a)) = None →
  ∃ q, (if bool_decide (0 ≤ direction) then head (nav_list a)
        else last (nav_list a)) = Some q
       ∧ navigate_focus_image direction a = update_focus_window q a.
Proof.
  intros Hne Hf. rewrite navigate_unfold by done. cbn zeta. rewrite Hf.
  case_bool_decide.
  - change 0 with (Z.of_nat 0). rewrite getitem_nat.
    destruct (nav_list a) as [|q l]; [done|]. by exists q.
  - rewrite getitem_last. destruct (last (nav_list a)) as [q|] eqn:Hl.
    + by exists q.
    + by apply last_None in Hl.
Qed.

Lemma navigate_in_list direction a :
  nav_list a ≠ [] →
  ∃ q, q ∈ nav_list a ∧ navigate_focus_image direction a = update_focus_window q a.
Proof.
  intros Hne.
  destruct (focus_image_path a ≫= λ p, index p (nav_list a)) as [i|] eqn:Hf.
  - destruct (focus_image_path a) as [p|] eqn:Hp; [|done]. cbn in Hf.
    destruct (navigate_at direction a p i Hp Hf) as (j & _ & q & Hq & ->).
    exists q. split; [|done]. by eapply list_elem_of_lookup_2.
  - destruct (navigate_off direction a Hne Hf) as (q & Hq & ->).
    exists q. split; [|done]. case_bool_decide.
    + destruct (nav_list a); [done|]. injection Hq as ->. by left.
    + by apply last_Some_elem_of.
Qed.

(** X18.  What the arrow keys do in the focus window.  The images in
    question are the selected ones in ascending order, or the whole
    catalog when nothing is selected.  From the focused image the
    navigation leads [direction] places further, around the ends; when
    nothing is focused, or an image that is not in the list, it leads to
    the first image for a [direction] that is not negative and to the
    last one otherwise.  The list is never indexed out
    of range, and only the focus window changes. *)
Theorem navigate_focus_image_spec direction a :
  let l := nav_list a in
  let a' := navigate_focus_image direction a in
  (l = [] → a' = a)
  ∧ (l ≠ [] → ∃ q, q ∈ l ∧ a' = update_focus_window q a)
  ∧ (∀ p i, focus_image_path a = Some p → index p l = Some i →
            ∃ q, l !! Z.to_nat ((Z.of_nat i + direction)
                                  `mod` Z.of_nat (length l)) = Some q
                 ∧ a' = update_focus_window q a)
  ∧ ((∀ p, focus_image_path a = Some p → p ∉ l) → l ≠ [] →
     ∃ q, (if bool_decide (0 ≤ direction) then head l else last l) = Some q
          ∧ a' = update_focus_window q a).
Proof.
  intros l a'. subst l a'. split_and!; try done.
  - intros He. unfold navigate_focus_image. by rewrite He.
  - apply navigate_in_list.
  - intros p i Hp Hi.
    destruct (navigate_at direction a p i Hp Hi) as (j & -> & q & Hq & ->).
    exists q. by rewrite Nat2Z.id.
  - intros Hoff Hne. apply navigate_off; [done|].
    destruct (focus_image_path a) as [p|]; [|done]. cbn.
    apply index_None. by apply Hoff.
Qed.

(** X19.  Going [direction] places and then as many places back leads
    to the image the navigation started from, provided that image is in
    the list and the catalog lists no image twice. *)
Theorem navigate_back_and_forth direction a p :
  focus_image_path a = Some p → p ∈ nav_list a → NoDup (images a) →
  navigate_focus_image (- direction) (navigate_focus_image direction a) = a.
Proof.
  intros Hf Hp Hnd%nav_list_nodup.
  destruct (index p (nav_list a)) as [i|] eqn:Hi;
    [|by apply index_None in Hi].
  pose proof (index_Some _ _ _ Hi) as [Hpi Hlt].
  destruct (navigate_at direction a p i Hf Hi) as (j & Hj & q & Hq & ->).
  destruct (navigate_at (- direction) (update_focus_window q a) q j)
    as (k & Hk & r & Hr & ->); [done|by apply index_lookup|].
  rewrite nav_list_focus in Hk, Hr.
  assert (k = i) as ->.
  { apply Nat2Z.inj. rewrite <- Hk, <- Hj.
    rewrite Zplus_mod_idemp_l.
    replace (Z.of_nat i + direction + - direction) with (Z.of_nat i) by lia.
    apply Z.mod_small. lia. }
  assert (r = p) as -> by congruence.
  unfold update_focus_window. destruct a. cbn in *. by subst.
Qed.

Lemma navigate_back_and_forth_witness :
  navigate_focus_image (- 1) (navigate_focus_image 1 MoreSamples.focused_pets)
  = MoreSamples.focused_pets.
Proof.
  apply (navigate_back_and_forth 1 MoreSamples.focused_pets "/d/x.png").
  - reflexivity.
  - by_evaluation.
  - by_evaluation.
Defined.

Lemma right_key_step a j x :
  NoDup (nav_list a) → nav_list a !! j = Some x →
  focus_image_path a = Some x →
  focus_image_path (keyPressEvent Key_Right a)
  = nav_list a !! ((j + 1) `mod` length (nav_list a))%nat
  ∧ nav_list (keyPressEvent Key_Right a) = nav_list a.
Proof.
  intros Hnd Hj Hf. cbn [keyPressEvent].
  destruct (navigate_at 1 a x j Hf (index_lookup _ _ _ Hnd Hj))
    as (k & Hk & q & Hq & ->).
  split; [|done]. cbn. rewrite <- Hq. f_equal. f_equal.
  apply Nat2Z.inj. rewrite <- Hk.
  rewrite Nat2Z.inj_mod, Nat2Z.inj_add. done.
Qed.

Lemma right_key_steps a j x m :
  NoDup (nav_list a) → nav_list a !! j = Some x →
  focus_image_path a = Some x →
  focus_image_path (Nat.iter m (keyPressEvent Key_Right) a)
  = nav_list a !! ((j + m) `mod` length (nav_list a))%nat
  ∧ nav_list (Nat.iter m (keyPressEvent Key_Right) a) = nav_list a.
Proof.
  intros Hnd Hj Hf.
  assert (j < length (nav_list a))%nat as Hlt by by eapply lookup_lt_Some.
  induction m as [|m [IHf IHl]].
  - change (Nat.iter 0 (keyPressEvent Key_Right) a) with a.
    rewrite Nat.add_0_r, Nat.mod_small by done. by rewrite Hf, Hj.
  - change (Nat.iter (S m) (keyPressEvent Key_Right) a)
      with (keyPressEvent Key_Right (Nat.iter m (keyPressEvent Key_Right) a)).
    set (b := Nat.iter m (keyPressEvent Key_Right) a) in *.
    assert ((j + m) `mod` length (nav_list a) < length (nav_list a))%nat
      as Hlt' by (apply Nat.mod_upper_bound; lia).
    destruct (lookup_lt_is_Some_2 _ _ Hlt') as [y Hy].
    destruct (right_key_step b ((j + m) `mod` length (nav_list a))%nat y)
      as [Hf' Hl']; rewrite ?IHl; try done.
    { by rewrite IHf. }
    rewrite IHl in Hf', Hl'. split; [|done]. rewrite Hf'. f_equal.
    rewrite Nat.Div0.add_mod_idemp_l. f_equal. lia.
Qed.

(** X20.  The right arrow key alone reaches every image of the list,
    from any state, within as many presses as the list is long, provided
    the catalog lists no image twice. *)
Theorem right_key_reaches_every_image a q :
  NoDup (images a) → q ∈ nav_list a →
  ∃ k, (1 ≤ k ≤ length (nav_list a))%nat
       ∧ focus_image_path (Nat.iter k (keyPressEvent Key_Right) a) = Some q.
Proof.
  intros Hnd%nav_list_nodup Hq.
  set (n := length (nav_list a)).
  apply list_elem_of_lookup in Hq as [jq Hjq].
  assert (jq < n)%nat as Hjqn by by eapply lookup_lt_Some.
  assert (nav_list a ≠ []) as Hne by (intros He; by rewrite He in Hjq).
  destruct (navigate_in_list 1 a Hne) as (x & Hx & Ha1).
  apply list_elem_of_lookup in Hx as [j0 Hj0].
  assert (j0 < n)%nat as Hj0n by by eapply lookup_lt_Some.
  set (a1 := keyPressEvent Key_Right a).
  assert (nav_list a1 = nav_list a) as Hl1 by (unfold a1; cbn; by rewrite Ha1).
  assert (focus_image_path a1 = Some x) as Hf1
    by (unfold a1; cbn; by rewrite Ha1).
  set (m := ((jq + n - j0) `mod` n)%nat).
  exists (S m). split.
  { pose proof (Nat.mod_upper_bound (jq + n - j0) n). lia. }
  replace (S m) with (m + 1)%nat by lia. rewrite Nat.iter_add.
  change (Nat.iter 1 (keyPressEvent Key_Right) a) with a1.
  destruct (right_key_steps a1 j0 x m) as [-> _]; rewrite ?Hl1; try done.
  rewrite <- Hjq. f_equal. subst m. fold n.
  rewrite Nat.Div0.add_mod_idemp_r.
  replace (j0 + (jq + n - j0))%nat with (jq + 1 * n)%nat by lia.
  rewrite Nat.Div0.mod_add. apply Nat.mod_small. lia.
Qed.

Lemma right_key_reaches_every_image_witness :
  ∃ k, (1 ≤ k ≤ length (nav_list MoreSamples.shown_pets))%nat
       ∧ focus_image_path
           (Nat.iter k (keyPressEvent Key_Right) MoreSamples.shown_pets)
         = Some "/d/y.png".
Proof.
  apply (right_key_reaches_every_image MoreSamples.shown_pets "/d/y.png").
  - by_evaluation.
  - by_evaluation.
Defined.

End Navigation.

(** ** The rows of the gallery *)

Module Layout.
Import DatCure Widgets.

Lemma closes_row (n : Z) (full : nat) (r : nat) :
  1 ≤ n → Z.of_nat r < n →
  (n * Z.of_nat full + Z.of_nat r + 1) `mod` n = 0 ↔ Z.of_nat r + 1 = n.
Proof.
  intros Hn Hr.
  replace (n * Z.of_nat full + Z.of_nat r + 1)
    with (Z.of_nat r + 1 + Z.of_nat full * n) by lia.
  rewrite Z_mod_plus_full. split.
  - intros Hm. destruct (decide (Z.of_nat r + 1 = n)); [done|].
    rewrite Z.mod_small in Hm by lia. lia.
  - intros ->. apply Z_mod_same_full.
Qed.

Lemma add_thumbnails (n : Z) imgs : ∀ rows row idx,
  1 ≤ n →
  Forall (λ r, Z.of_nat (length r) = n) rows →
  Z.of_nat (length row) < n →
  Z.of_nat idx = n * Z.of_nat (length rows) + Z.of_nat (length row) →
  ∃ rows' row',
    foldl (add_thumbnail n) (rows, row, idx) imgs
    = (rows', row', (idx + length imgs)%nat)
    ∧ Forall (λ r, Z.of_nat (length r) = n) rows'
    ∧ Z.of_nat (length row') < n
    ∧ Z.of_nat (idx + length imgs)
      = n * Z.of_nat (length rows') + Z.of_nat (length row')
    ∧ concat rows' ++ row' = concat rows ++ row ++ imgs.
Proof.
  induction imgs as [|x imgs IH]; intros rows row idx Hn Hrows Hrow Hidx.
  - exists rows, row. cbn [foldl length]. rewrite Nat.add_0_r, app_nil_r.
    by split_and!.
  - cbn [foldl]. unfold add_thumbnail at 2. rewrite Hidx.
    case_bool_decide as Hm; rewrite closes_row in Hm by done.
    + destruct (IH (rows ++ [row ++ [x]]) [] (S idx)) as (rows' & row' & IHr);
        try done.
      * apply Forall_app. split; [done|]. constructor; [|done].
        rewrite length_app. cbn. lia.
      * cbn. lia.
      * rewrite length_app. cbn. lia.
      * exists rows', row'. destruct IHr as (-> & ? & ? & Hi & Hc).
        cbn [length]. replace (idx + S (length imgs))%nat
          with (S idx + length imgs)%nat by lia.
        split_and!; try done.
        rewrite Hc, concat_app. cbn. by rewrite app_nil_r, <- !(assoc_L (++)).
    + destruct (IH rows (row ++ [x]) (S idx)) as (rows' & row' & IHr);
        try done.
      * rewrite length_app. cbn. lia.
      * rewrite length_app. cbn. lia.
      * exists rows', row'. destruct IHr as (-> & ? & ? & Hi & Hc).
        cbn [length]. replace (idx + S (length imgs))%nat
          with (S idx + length imgs)%nat by lia.
        split_and!; try done. rewrite Hc. by rewrite <- !(assoc_L (++)).
Qed.

Lemma gallery_rows_total (n : Z) imgs :
  1 ≤ n → ∃ rows, gallery_rows n imgs = Some rows ∧ concat rows = imgs.
Proof.
  intros Hn. destruct imgs as [|x imgs]; [by exists []|].
  unfold gallery_rows. rewrite bool_decide_eq_false_2 by lia.
  destruct (add_thumbnails n (x :: imgs) [] [] 0%nat) as (rows & row & Hf);
    try done; [cbn; lia..|].
  destruct Hf as (-> & _ & _ & _ & Hc).
  cbn [concat] in Hc. rewrite !app_nil_l in Hc.
  case_bool_decide as Hlen.
  - exists (rows ++ [row]). split; [done|].
    by rewrite concat_app; cbn; rewrite app_nil_r.
  - exists rows. split; [done|]. destruct row; [|cbn in Hlen; lia].
    by rewrite app_nil_r in Hc.
Qed.

(** X21.  The layout of the gallery.  With at least one thumbnail per
    row, [populate_gallery] lays the images out in their order, each
    exactly once; every row but the last holds [images_per_row]
    thumbnails, the last one at least one and at most that many, and no
    row is empty; there are as many rows as the images need. *)
Theorem gallery_rows_shape (n : Z) imgs :
  1 ≤ n →
  ∃ rows,
    gallery_rows n imgs = Some rows
    ∧ concat rows = imgs
    ∧ (∀ i r, rows !! i = Some r →
              1 ≤ Z.of_nat (length r) ≤ n
              ∧ ((S i < length rows)%nat → Z.of_nat (length r) = n))
    ∧ Z.of_nat (length rows) = (Z.of_nat (length imgs) + n - 1) `div` n.
Proof.
  intros Hn. destruct imgs as [|x imgs].
  { exists []. split_and!; try done. cbn. symmetry. apply Z.div_small. lia. }
  unfold gallery_rows. rewrite bool_decide_eq_false_2 by lia.
  destruct (add_thumbnails n (x :: imgs) [] [] 0%nat) as (rows & row & Hf);
    try done; [cbn; lia..|].
  destruct Hf as (-> & Hrows & Hrow & Hidx & Hc).
  cbn [concat] in Hc. rewrite !app_nil_l in Hc.
  rewrite Nat.add_0_l in Hidx. rewrite Forall_forall in Hrows.
  cbn [length] in *.
  case_bool_decide as Hlen.
  - exists (rows ++ [row]). split_and!; [done| |..].
    + by rewrite concat_app; cbn; rewrite app_nil_r.
    + intros i r Hi. apply lookup_app_Some in Hi as [Hi|[Hge Hi]].
      * apply list_elem_of_lookup_2, Hrows in Hi. split; [lia|done].
      * apply list_lookup_singleton_Some in Hi as [Hi <-].
        split; [lia|]. rewrite length_app. cbn. lia.
    + rewrite length_app. cbn [length].
      apply (Z.div_unique_pos _ _ _ (Z.of_nat (length row) - 1)); lia.
  - exists rows. assert (length row = 0%nat) as Hz by lia.
    split_and!; [done| |..].
    + destruct row; [|done]. by rewrite app_nil_r in Hc.
    + intros i r Hi. apply list_elem_of_lookup_2, Hrows in Hi. lia.
    + apply (Z.div_unique_pos _ _ _ (n - 1)); lia.
Qed.

Lemma gallery_rows_shape_witness :
  ∃ rows,
    gallery_rows 2 ["a.png"; "b.png"; "c.png"] = Some rows
    ∧ concat rows = ["a.png"; "b.png"; "c.png"]
    ∧ (∀ i r, rows !! i = Some r →
              1 ≤ Z.of_nat (length r) ≤ 2
              ∧ ((S i < length rows)%nat → Z.of_nat (length r) = 2))
    ∧ Z.of_nat (length rows)
      = (Z.of_nat (length ["a.png"; "b.png"; "c.png"]) + 2 - 1) `div` 2.
Proof. apply (gallery_rows_shape 2 ["a.png"; "b.png"; "c.png"]). lia. Defined.

Lemma pressed_positive set_iter p w d :
  1 ≤ images_per_row w → 1 ≤ images_per_row (pressed set_iter p w d).1.
Proof.
  intros Hw. destruct p as [| |act]; cbn [pressed fst].
  - unfold change_images_per_row. by case_bool_decide.
  - unfold change_images_per_row. by case_bool_decide.
  - by destruct (perform _ _ _).
Qed.

Lemma presses_positive set_iter presses : ∀ wd,
  1 ≤ images_per_row wd.1 →
  1 ≤ images_per_row
        (foldl (λ wd p, pressed set_iter p wd.1 wd.2) wd presses).1.
Proof.
  induction presses as [|p presses IH]; intros [w0 d0] Hw; [done|].
  cbn [foldl]. apply IH. cbn [fst snd]. by apply pressed_positive.
Qed.

(** X22.  The number of thumbnails per row starts at 5 and, from
    whatever state the window is in, never drops below 1, whatever is
    pressed: "<" changes nothing at 1.  So every list of images can be
    laid out, and [populate_gallery] never divides by zero.  The two
    buttons leave the catalog, the captions, the selection and the view
    as they are. *)
Theorem images_per_row_stays_positive set_iter presses w0 d :
  1 ≤ images_per_row w0 →
  let w := (foldl (λ wd p, pressed set_iter p wd.1 wd.2) (w0, d) presses).1 in
  images_per_row init_window = 5
  ∧ 1 ≤ images_per_row w
  ∧ (∀ imgs, ∃ rows, gallery_rows (images_per_row w) imgs = Some rows
                     ∧ concat rows = imgs)
  ∧ (∀ delta,
       let a' := app_state (change_images_per_row delta w) in
       images a' = images (app_state w)
       ∧ captions a' = captions (app_state w)
       ∧ selected_images a' = selected_images (app_state w)
       ∧ active_view a' = active_view (app_state w))
  ∧ change_images_per_row (-1) (Window (app_state w) 1)
    = Window (app_state w) 1.
Proof.
  intros Hw0 w.
  assert (1 ≤ images_per_row w) as Hpos by (by apply presses_positive).
  split_and!; [done|done| | |done].
  - intros imgs. by apply gallery_rows_total.
  - intros delta a'. subst a'. unfold change_images_per_row.
    case_bool_decide; [|done]. cbn [app_state].
    split_and!.
    + unfold update_gallery. destruct (filter_active _);
        apply Relocation.populate_gallery_images.
    + apply TagIndex.update_gallery_captions.
    + apply Selection.update_gallery_selected.
    + apply Selection.update_gallery_active_view.
Qed.

Lemma images_per_row_stays_positive_witness :
  let presses := [Fewer; Fewer; Fewer; Fewer; Fewer; Act SelectAll; More] in
  let w := (foldl (λ wd p, pressed Samples.iter p wd.1 wd.2)
                  (Window MoreSamples.shown_pets 5, Samples.disk_pets)
                  presses).1 in
  images_per_row init_window = 5
  ∧ 1 ≤ images_per_row w
  ∧ (∀ imgs, ∃ rows, gallery_rows (images_per_row w) imgs = Some rows
                     ∧ concat rows = imgs)
  ∧ (∀ delta,
       let a' := app_state (change_images_per_row delta w) in
       images a' = images (app_state w)
       ∧ captions a' = captions (app_state w)
       ∧ selected_images a' = selected_images (app_state w)
       ∧ active_view a' = active_view (app_state w))
  ∧ change_images_per_row (-1) (Window (app_state w) 1)
    = Window (app_state w) 1.
Proof.
  apply (images_per_row_stays_positive Samples.iter
           [Fewer; Fewer; Fewer; Fewer; Fewer; Act SelectAll; More]
           (Window MoreSamples.shown_pets 5) Samples.disk_pets).
  cbn. lia.
Defined.

End Layout.

(** ** The folder tree *)

Module Folders.
Import DatCure Widgets.

(** Induction on a directory tree, with the property at hand for the
    sub-directories. *)
Lemma tree_induction (P : Disk.tree → Prop) :
  (∀ fnames subdirs,
     Forall (λ ns, P ns.2) subdirs → P (Disk.Dir fnames subdirs)) →
  (∀ target, P target → P (Disk.Link target)) →
  P Disk.Denied →
  ∀ t, P t.
Proof.
  intros Hdir Hlink Hdenied. fix IH 1. intros [fnames subdirs|target|].
  - apply Hdir.
    induction subdirs as [|[name sub] l IHl]; constructor; [apply IH|apply IHl].
  - apply Hlink, IH.
  - apply Hdenied.
Qed.

Lemma strongly_sorted_sublist {A} (R : relation A) (l1 l2 : list A) :
  l1 `sublist_of` l2 → StronglySorted R l2 → StronglySorted R l1.
Proof.
  induction 1 as [|x l1 l2 Hs IH|x l1 l2 Hs IH]; intros Hl2; [done|..].
  - apply StronglySorted_inv in Hl2 as [Hl2 Hx]. constructor; [by apply IH|].
    rewrite Forall_forall in *. intros y Hy. apply Hx.
    by eapply elem_of_sublist.
  - apply StronglySorted_inv in Hl2 as [Hl2 _]. by apply IH.
Qed.

(** The item that [add_folder_items] makes for a sub-directory. *)
Lemma add_folder_items_unfold parent fnames subdirs :
  add_folder_items parent (Disk.Dir fnames subdirs)
  = omap (λ item,
            (list_to_map
               ((λ ns, (ns.1, FolderItem ns.1 (OsPath.join parent ns.1)
                                (add_folder_items (OsPath.join parent ns.1)
                                   ns.2)))
                <$> subdirs) : gmap string folder_item) !! item)
         (merge_sort String.le (fnames ++ subdirs.*1)).
Proof.
  cbn [add_folder_items].
  match goal with
  | |- context [ list_to_map (?F subdirs) ] =>
      assert (∀ l, F l
                   = (λ ns, (ns.1, FolderItem ns.1 (OsPath.join parent ns.1)
                                     (add_folder_items
                                        (OsPath.join parent ns.1) ns.2)))
                     <$> l) as Hfix
  end.
  { induction l as [|[name sub] l IHl]; [done|]. cbn. by rewrite <- IHl. }
  by rewrite Hfix.
Qed.

Lemma folder_paths_unfold text data children :
  folder_paths (FolderItem text data children)
  = data :: (children ≫= folder_paths).
Proof.
  cbn [folder_paths]. done.
Qed.

Lemma children_sorted_unfold text data children :
  children_sorted (FolderItem text data children)
  ↔ Sorted String.le
      ((λ c, match c with FolderItem text _ _ => text end) <$> children)
    ∧ Forall children_sorted children.
Proof.
  cbn [children_sorted]. apply and_iff_compat_l.
  induction children as [|c l IHl]; [by split; [constructor|]|].
  rewrite Forall_cons, <- IHl. done.
Qed.

Lemma listing_nodup_unfold fnames subdirs :
  listing_nodup (Disk.Dir fnames subdirs)
  ↔ NoDup (fnames ++ subdirs.*1) ∧ Forall (λ ns, listing_nodup ns.2) subdirs.
Proof.
  cbn [listing_nodup]. apply and_iff_compat_l.
  induction subdirs as [|[name sub] l IHl]; [by split; [constructor|]|].
  rewrite Forall_cons, <- IHl. done.
Qed.

Lemma plain_unfold fnames subdirs :
  plain (Disk.Dir fnames subdirs) ↔ Forall (λ ns, plain ns.2) subdirs.
Proof.
  cbn [plain].
  induction subdirs as [|[name sub] l IHl]; [by split; [constructor|]|].
  rewrite Forall_cons, <- IHl. done.
Qed.

(** The roots of a walk: the directory itself, then those of the walks
    of its sub-directories, links left out. *)
Lemma walk_roots top fnames subdirs :
  (Disk.walk top (Disk.Dir fnames subdirs)).*1.*1
  = top :: (subdirs ≫= λ ns,
              match ns.2 with
              | Disk.Link _ => []
              | _ => (Disk.walk (OsPath.join top ns.1) ns.2).*1.*1
              end).
Proof.
  cbn [Disk.walk fmap list_fmap fst]. f_equal.
  induction subdirs as [|[name sub] l IHl]; [done|].
  cbn [mbind list_bind fst snd]. rewrite <- IHl.
  rewrite !fmap_app. by destruct sub.
Qed.

Lemma omap_keys {A B} (f : string → option B) (g : A → B) (k : A → string)
    (l : list A) :
  (∀ x, x ∈ l → f (k x) = Some (g x)) → omap f (k <$> l) = g <$> l.
Proof.
  induction l as [|x l IH]; intros Hf; [done|]. cbn.
  rewrite Hf by by left. f_equal. apply IH. intros y Hy. apply Hf. by right.
Qed.

Lemma omap_none {A B} (f : A → option B) (l : list A) :
  (∀ x, x ∈ l → f x = None) → omap f l = [].
Proof.
  induction l as [|x l IH]; intros Hf; [done|]. cbn.
  rewrite Hf by by left. apply IH. intros y Hy. apply Hf. by right.
Qed.

Lemma omap_texts (f : string → option folder_item) (l : list string) :
  (∀ x i, f x = Some i → match i with FolderItem text _ _ => text end = x) →
  (λ c, match c with FolderItem text _ _ => text end) <$> omap f l
  `sublist_of` l.
Proof.
  intros Hf. induction l as [|x l IH]; [done|]. cbn.
  destruct (f x) as [i|] eqn:Hx.
  - cbn. rewrite (Hf x i Hx). by constructor.
  - by constructor.
Qed.

(** What [add_folder_items] puts below the item of a directory. *)
Lemma add_folder_items_spec : ∀ t parent,
  listing_nodup t →
  (∀ p, p ∈ (Disk.walk parent t).*1.*1 →
        p = parent ∨ p ∈ add_folder_items parent t ≫= folder_paths)
  ∧ (plain t →
     (add_folder_items parent t ≫= folder_paths)
     ≡ₚ tail (Disk.walk parent t).*1.*1)
  ∧ Sorted String.le
      ((λ c, match c with FolderItem text _ _ => text end)
       <$> add_folder_items parent t)
  ∧ Forall children_sorted (add_folder_items parent t).
Proof.
  induction t as [fnames subdirs IH|target IH|] using tree_induction;
    [|intros parent Hnd; destruct (IH parent Hnd) as (? & _ & ? & ?);
      by split_and!
     |intros parent _; split_and!; [by intros p []%elem_of_nil|done|constructor..]].
  intros parent [Hnd Hsub]%listing_nodup_unfold.
  rewrite add_folder_items_unfold, walk_roots. cbn [tail].
  pose (child := λ ns : string * Disk.tree,
          FolderItem ns.1 (OsPath.join parent ns.1)
            (add_folder_items (OsPath.join parent ns.1) ns.2)).
  pose (folders := list_to_map ((λ ns, (ns.1, child ns)) <$> subdirs)
                   : gmap string folder_item).
  change (omap _ (merge_sort String.le (fnames ++ subdirs.*1)))
    with (omap (λ item, folders !! item)
            (merge_sort String.le (fnames ++ subdirs.*1))).
  assert (Hkeys : ((λ ns, (ns.1, child ns)) <$> subdirs).*1 = subdirs.*1).
  { rewrite <- list_fmap_compose. by apply list_fmap_ext. }
  apply NoDup_app in Hnd as (Hf & Hdisj & Hs).
  assert (Hin : ∀ name i, folders !! name = Some i →
                          ∃ ns, ns ∈ subdirs ∧ ns.1 = name ∧ i = child ns).
  { intros name i Hi. apply elem_of_list_to_map_2 in Hi.
    apply list_elem_of_fmap in Hi as (ns & [= -> ->] & Hns). by exists ns. }
  assert (Hall : omap (λ item, folders !! item) (fnames ++ subdirs.*1)
                 = child <$> subdirs).
  { rewrite omap_app, (omap_none _ fnames), app_nil_l.
    - apply omap_keys. intros ns Hns. apply elem_of_list_to_map_1.
      + by rewrite Hkeys.
      + apply list_elem_of_fmap. by exists ns.
    - intros name Hname. apply not_elem_of_list_to_map_1.
      rewrite Hkeys. by apply Hdisj. }
  rewrite Forall_forall in IH, Hsub.
  split_and!.
  - intros p [->|Hp]%elem_of_cons; [by left|]. right.
    rewrite merge_sort_Permutation, Hall.
    apply list_elem_of_bind in Hp as (ns & Hp & Hns).
    apply list_elem_of_bind. exists (child ns).
    split; [|apply list_elem_of_fmap; by exists ns].
    unfold child. rewrite folder_paths_unfold.
    destruct (IH ns Hns (OsPath.join parent ns.1) (Hsub ns Hns)) as (Hsubset & _).
    assert (p ∈ (Disk.walk (OsPath.join parent ns.1) ns.2).*1.*1) as Hp'.
    { destruct ns as [name sub]. cbn [fst snd] in *.
      destruct sub; [done|by apply elem_of_nil in Hp|done]. }
    destruct (Hsubset p Hp') as [->|?]; [by left|by right].
  - intros Hplain%plain_unfold. rewrite Forall_forall in Hplain.
    rewrite merge_sort_Permutation, Hall.
    clear Hall Hin Hkeys Hs Hdisj folders.
    induction subdirs as [|ns l IHl]; [done|].
    cbn [fmap list_fmap mbind list_bind].
    rewrite IHl.
    + apply Permutation_app; [|done]. unfold child at 1.
      rewrite folder_paths_unfold.
      destruct (IH ns ltac:(by left) (OsPath.join parent ns.1)
                  (Hsub ns ltac:(by left))) as (_ & Hp & _).
      rewrite Hp by (apply Hplain; by left).
      pose proof (Hplain ns ltac:(by left)) as Hns.
      destruct ns as [name [f s| |]]; [|done..]. cbn [fst snd].
      by rewrite walk_roots.
    + intros x Hx. apply IH. by right.
    + intros x Hx. apply Hsub. by right.
    + intros x Hx. apply Hplain. by right.
  - apply StronglySorted_Sorted.
    apply (strongly_sorted_sublist _ _
             (merge_sort String.le (fnames ++ subdirs.*1))).
    + apply omap_texts. intros name i Hi.
      by destruct (Hin name i Hi) as (ns & _ & <- & ->).
    + apply StronglySorted_merge_sort; apply _.
  - apply Forall_forall. intros i Hi.
    apply list_elem_of_omap in Hi as (name & _ & Hi).
    destruct (Hin name i Hi) as (ns & Hns & _ & ->).
    unfold child. apply children_sorted_unfold.
    destruct (IH ns Hns (OsPath.join parent ns.1) (Hsub ns Hns))
      as (_ & _ & ? & ?).
    done.
Qed.

(** X23.  The folder tree shows every folder that the loader sees.  With
    the "Include Subdirectories" box checked, the tree for the opened
    directory has an item for every directory that a load of it walks
    through, the opened directory at the top, and the children of every
    item are in ascending order of their names.  When no directory below
    is a link or refuses to be listed, these are all its items; a link to
    a directory and a directory that cannot be listed have an item too,
    though the loader does not walk them.  With the box unchecked the
    tree shows the opened directory alone. *)
Theorem folder_tree_matches_walk image_dir found a :
  image_dir ≠ "" → listing_nodup found →
  (include_subdirs a = true →
   ∃ root, populate_folder_tree image_dir found a = [root]
           ∧ (∀ p, p ∈ (Disk.walk image_dir found).*1.*1 → p ∈ folder_paths root)
           ∧ (plain found →
              folder_paths root ≡ₚ (Disk.walk image_dir found).*1.*1)
           ∧ children_sorted root)
  ∧ (include_subdirs a = false →
     populate_folder_tree image_dir found a
     = [FolderItem (OsPath.basename image_dir) image_dir []])
  ∧ (∀ name fnames,
       let linked := Disk.Dir [] [(name, Disk.Link (Disk.Dir fnames []))] in
       let denied := Disk.Dir [] [(name, Disk.Denied)] in
       (Disk.walk image_dir linked).*1.*1 = [image_dir]
       ∧ (Disk.walk image_dir denied).*1.*1 = [image_dir]
       ∧ add_folder_items image_dir linked ≫= folder_paths
         = [OsPath.join image_dir name]
       ∧ add_folder_items image_dir denied ≫= folder_paths
         = [OsPath.join image_dir name]).
Proof.
  intros Hdir Hnd. unfold populate_folder_tree.
  rewrite bool_decide_eq_false_2 by done. split_and!.
  - intros ->. eexists. split; [done|].
    destruct (add_folder_items_spec found image_dir Hnd) as (Hsub & Hp & Hs & Hc).
    split_and!.
    + intros p Hp'. rewrite folder_paths_unfold.
      destruct (Hsub p Hp') as [->|?]; [by left|by right].
    + intros Hplain. rewrite folder_paths_unfold, Hp by done.
      by destruct found.
    + by apply children_sorted_unfold.
  - by intros ->.
  - intros name fnames. cbn zeta.
    rewrite !add_folder_items_unfold. cbn [fmap list_fmap fst snd List.app].
    assert (merge_sort String.le [name] = [name]) as -> by done.
    assert (∀ i : folder_item,
              omap (λ item, (list_to_map [(name, i)] : gmap string folder_item)
                            !! item) [name] = [i]) as Hone.
    { intros i. cbn [omap list_omap list_to_map foldr].
      by rewrite lookup_insert_eq. }
    rewrite !Hone. cbn [mbind list_bind List.app]. rewrite !folder_paths_unfold.
    cbn [add_folder_items fmap list_fmap List.app].
    rewrite omap_none by (intros; apply lookup_empty).
    split_and!; by rewrite ?app_nil_r.
Qed.

Lemma folder_tree_matches_walk_witness :
  (include_subdirs init = true →
   ∃ root, populate_folder_tree "/d" Samples.tree_nested init = [root]
           ∧ (∀ p, p ∈ (Disk.walk "/d" Samples.tree_nested).*1.*1 →
                   p ∈ folder_paths root)
           ∧ (plain Samples.tree_nested →
              folder_paths root ≡ₚ (Disk.walk "/d" Samples.tree_nested).*1.*1)
           ∧ children_sorted root)
  ∧ (include_subdirs init = false →
     populate_folder_tree "/d" Samples.tree_nested init
     = [FolderItem (OsPath.basename "/d") "/d" []])
  ∧ (∀ name fnames,
       let linked := Disk.Dir [] [(name, Disk.Link (Disk.Dir fnames []))] in
       let denied := Disk.Dir [] [(name, Disk.Denied)] in
       (Disk.walk "/d" linked).*1.*1 = ["/d"]
       ∧ (Disk.walk "/d" denied).*1.*1 = ["/d"]
       ∧ add_folder_items "/d" linked ≫= folder_paths = [OsPath.join "/d" name]
       ∧ add_folder_items "/d" denied ≫= folder_paths = [OsPath.join "/d" name]).
Proof.
  apply (folder_tree_matches_walk "/d" Samples.tree_nested init).
  - discriminate.
  - cbn [listing_nodup Samples.tree_nested]. split_and!; try done; by_evaluation.
Defined.

End Folders.

(** ** Which files are images, and which caption file belongs to them *)

Module FileNames.
Import PyStr OsPath DatCure StringFacts PathFacts CaptionFile Relocation OtherFiles.

Lemma dot_ext e : "." +:+ e = String "." e.
Proof. by rewrite str_app_cons, str_app_nil_l. Qed.

Lemma splitext_stem stem e :
  all_dots (basename stem) = false →
  has_char "." e = false → has_char "/" e = false →
  splitext (stem +:+ "." +:+ e) = (stem, "." +:+ e).
Proof.
  intros Hdots He Hs. rewrite dot_ext. unfold splitext, basename in *.
  destruct (rsplit1 "/" stem) as [[dir base]|] eqn:Hstem.
  - apply rsplit1_char_Some in Hstem as [-> Hbase].
    rewrite str_app_assoc, str_app_cons.
    rewrite rsplit1_char_intro.
    2:{ rewrite has_char_app, Hbase. cbn. by rewrite Hs. }
    rewrite rsplit1_char_intro by done. rewrite Hdots.
    by rewrite dot_ext, str_app_assoc, str_app_cons, str_app_nil_l.
  - apply rsplit1_char_None in Hstem.
    rewrite (proj2 (rsplit1_char_None "/" _)).
    2:{ rewrite has_char_app, Hstem. cbn. by rewrite Hs. }
    rewrite rsplit1_char_intro by done. rewrite Hdots.
    by rewrite str_app_nil_l, dot_ext.
Qed.

(** X24.  Images that differ in their extension only share one caption
    file.  For a path [stem] whose last component does not consist of
    dots, the caption file of [stem.e] is [stem.txt] whatever the
    extension [e] is; so a load reads the same caption for [stem.e1] and
    [stem.e2], and when [save_caption_file] saves the caption of the one,
    the next load reads that caption for the other as well. *)
Theorem images_share_caption_file stem e1 e2 :
  all_dots (basename stem) = false →
  has_char "." e1 = false → has_char "/" e1 = false →
  has_char "." e2 = false → has_char "/" e2 = false →
  let p1 := stem +:+ "." +:+ e1 in
  let p2 := stem +:+ "." +:+ e2 in
  caption_path p1 = stem +:+ ".txt"
  ∧ caption_path p2 = stem +:+ ".txt"
  ∧ (∀ d, read_caption d p1 = read_caption d p2)
  ∧ (∀ a d, stem +:+ ".txt" ∉ Disk.locked d →
            Forall clean_tag (get_tags (captions a) p1) →
            read_caption (save_caption_file p1 a d) p2
            = get_tags (captions a) p1).
Proof.
  intros Hdots H1 H1' H2 H2' p1 p2.
  assert (caption_path p1 = stem +:+ ".txt") as Hp1
    by (unfold caption_path, p1; by rewrite splitext_stem).
  assert (caption_path p2 = stem +:+ ".txt") as Hp2
    by (unfold caption_path, p2; by rewrite splitext_stem).
  split_and!; [done|done|..].
  - intros d. unfold read_caption. by rewrite Hp1, Hp2.
  - intros a d Hfree Hclean. unfold read_caption, Disk.read.
    rewrite Hp2, <- Hp1.
    rewrite save_caption_file_written by by rewrite Hp1.
    cbn [fmap option_fmap option_map]. by apply read_join.
Qed.

Lemma images_share_caption_file_witness :
  let p1 := "/d/cat" +:+ "." +:+ "png" in
  let p2 := "/d/cat" +:+ "." +:+ "jpg" in
  caption_path p1 = "/d/cat" +:+ ".txt"
  ∧ caption_path p2 = "/d/cat" +:+ ".txt"
  ∧ (∀ d, read_caption d p1 = read_caption d p2)
  ∧ (∀ a d, "/d/cat" +:+ ".txt" ∉ Disk.locked d →
            Forall clean_tag (get_tags (captions a) p1) →
            read_caption (save_caption_file p1 a d) p2
            = get_tags (captions a) p1).
Proof.
  apply (images_share_caption_file "/d/cat" "png" "jpg"); reflexivity.
Defined.

(** *** Image files *)

Lemma endswith_length x s :
  endswith x s = true → (String.length x ≤ String.length s)%nat.
Proof.
  induction s as [|c s IH]; cbn.
  - rewrite orb_false_r. by intros <-%bool_decide_eq_true.
  - intros [<-%bool_decide_eq_true|H]%orb_true_iff; [done|].
    specialize (IH H). lia.
Qed.

Lemma endswith_same_length x y s :
  endswith x s = true → endswith y s = true →
  String.length x = String.length y → x = y.
Proof.
  induction s as [|c s IH]; cbn.
  - rewrite !orb_false_r.
    by intros <-%bool_decide_eq_true <-%bool_decide_eq_true.
  - intros [Hx%bool_decide_eq_true|Hx]%orb_true_iff
           [Hy%bool_decide_eq_true|Hy]%orb_true_iff Hlen.
    + congruence.
    + apply endswith_length in Hy. subst x. cbn in Hlen. lia.
    + apply endswith_length in Hx. subst y. cbn in Hlen. lia.
    + by apply IH.
Qed.

Lemma endswith_tail c x s :
  endswith (String c x) s = true → endswith x s = true.
Proof.
  induction s as [|b s IH]; cbn.
  - by rewrite orb_false_r; intros ?%bool_decide_eq_true.
  - intros [[= -> ->]%bool_decide_eq_true|H]%orb_true_iff.
    + rewrite endswith_refl. apply orb_true_r.
    + rewrite (IH H). apply orb_true_r.
Qed.

Lemma lower_app s1 s2 : lower (s1 +:+ s2) = lower s1 +:+ lower s2.
Proof.
  induction s1 as [|c s1 IH]; [by rewrite !str_app_nil_l|].
  rewrite str_app_cons. cbn. by rewrite IH, str_app_cons.
Qed.

Lemma lower_char_idem c : lower_char (lower_char c) = lower_char c.
Proof. by destruct c as [[] [] [] [] [] [] [] []]. Qed.

Lemma lower_idem s : lower (lower s) = lower s.
Proof.
  induction s as [|c s IH]; [done|]. cbn. by rewrite lower_char_idem, IH.
Qed.

Lemma endswith_lower x s :
  endswith x s = true → endswith (lower x) (lower s) = true.
Proof.
  intros [pre ->]%endswith_spec. rewrite lower_app.
  apply endswith_app_l, endswith_refl.
Qed.

(** X25.  Which files a load takes for images.  The test does not
    depend on the case of the letters of the name; and a file whose name
    ends in [.txt], in whatever case, is never taken for an image, so a
    caption file never shows up in the catalog. *)
Theorem caption_files_are_no_images file :
  is_image (lower file) = is_image file
  ∧ (endswith ".txt" (lower file) = true → is_image file = false)
  ∧ (endswith ".txt" file = true → is_image file = false)
  ∧ (∀ image_path, is_image (caption_path image_path) = false).
Proof.
  assert (Hno : ∀ s, endswith ".txt" (lower s) = true → is_image s = false).
  { intros s Htxt. unfold is_image, image_extensions. cbn [existsb].
    rewrite !orb_false_iff.
    split_and!; try done; apply not_true_is_false; intros H;
      first [ by pose proof (endswith_same_length _ _ _ H Htxt eq_refl)
            | apply endswith_tail in H;
              by pose proof (endswith_same_length _ _ _ H Htxt eq_refl) ]. }
  assert (Htxt : ∀ s, endswith ".txt" s = true → is_image s = false).
  { intros s Hs. apply Hno. by apply (endswith_lower ".txt"). }
  split_and!; [|apply Hno|apply Htxt|].
  - unfold is_image. by rewrite lower_idem.
  - intros p. apply Htxt, caption_path_txt.
Qed.

End FileNames.

(** ** How long a filtered view stays *)

Module StaleView.
Import DatCure Notions TagIndex TagEdits Redraw Catalog Reloading.

Section WithIteration.

Variable set_iter : gset string → list string.

Lemma perform_leaves_filter act a d :
  ¬ sets_filter act →
  filter_active (perform set_iter act (a, d)).1 = filter_active a
  ∧ filtered_images (perform set_iter act (a, d)).1 = filtered_images a.
Proof.
  intros Hact. destruct act as
    [p| | | |text|text|checked|items|items| | | |dest_dir|dest_dir|checked];
    cbn [perform fst]; try (by destruct Hact).
  - unfold image_clicked. by case_bool_decide.
  - unfold select_all_images. destruct (update_gallery_fields
      (set_selected_images (list_to_set (active_view a)) a)) as (_ & _ & Hf & _).
    split; [|done]. unfold update_gallery.
    cbn [filter_active set_selected_images].
    by destruct (filter_active a) eqn:Ha; unfold populate_gallery; fields.
  - unfold deselect_all_images. destruct (update_gallery_fields
      (set_selected_images ∅ a)) as (_ & _ & Hf & _).
    split; [|done]. unfold update_gallery.
    cbn [filter_active set_selected_images].
    by destruct (filter_active a) eqn:Ha; unfold populate_gallery; fields.
  - unfold invert_selection. destruct (update_gallery_fields
      (set_selected_images (symmetric_difference (list_to_set (active_view a)) (selected_images a)) a)) as (_ & _ & Hf & _).
    split; [|done]. unfold update_gallery.
    cbn [filter_active set_selected_images].
    by destruct (filter_active a) eqn:Ha; unfold populate_gallery; fields.
  - by destruct (view_eq _ _ (add_tag_to_selected_view set_iter text a d))
      as (? & ? & _).
  - by destruct (view_eq _ _ (remove_tag_from_selected_view set_iter text a d))
      as (? & ? & _).
  - by destruct checked.
  - unfold sort_tags_high, sort_tags. destruct (focus_image_path a); [|done].
    by destruct (_ && _).
  - unfold sort_tags_low, sort_tags. destruct (focus_image_path a); [|done].
    by destruct (_ && _).
  - by rewrite copy_selection_state.
  - done.
Qed.

Lemma beside_filter a b :
  beside_catalog a = beside_catalog b →
  filter_active a = filter_active b ∧ filtered_images a = filtered_images b.
Proof. unfold beside_catalog. by intros [= -> -> _ _ _]. Qed.

Lemma handle_leaves_filter e s :
  leaves_filter e →
  filter_active (state (handle set_iter e s)) = filter_active (state s)
  ∧ filtered_images (state (handle set_iter e s)) = filtered_images (state s).
Proof.
  intros He. destruct e as [act|dir_path|i found|].
  - cbn [handle].
    pose proof (perform_leaves_filter act (state s) (disk s) He) as H.
    by destruct (perform set_iter act (state s, disk s)).
  - by apply beside_filter, (handle_loading set_iter (OpenDirectory dir_path)).
  - by apply beside_filter, (handle_loading set_iter (WorkerRuns i found)).
  - by apply beside_filter, (handle_loading set_iter ResultArrives).
Qed.

Lemma run_leaves_filter es : ∀ s,
  Forall leaves_filter es →
  filter_active (state (run set_iter es s)) = filter_active (state s)
  ∧ filtered_images (state (run set_iter es s)) = filtered_images (state s).
Proof.
  induction es as [|e es IH]; intros s Hes; [done|].
  apply Forall_cons in Hes as [He Hes]. rewrite run_cons.
  destruct (IH (handle set_iter e s) Hes) as [-> ->].
  by apply handle_leaves_filter.
Qed.

(** C10, amended.  Adding or removing a tag leaves [filter_active] and
    [filtered_images] as they were, and with them the active view and the
    thumbnails in the gallery: the filtered view is not recomputed.  It
    stays as it is through whatever happens next, the loading of a
    directory included, until the user filters, ignores tags, clears the
    filter or moves the selection: a move that has a selection and a
    destination drops the filter. *)
Theorem tag_edits_keep_filtered_view text a d es s :
  let added := (add_tag_to_selected set_iter text a d).1 in
  let removed := (remove_tag_from_selected set_iter text a d).1 in
  (filter_active added = filter_active a
   ∧ filtered_images added = filtered_images a
   ∧ active_view added = active_view a
   ∧ gallery added = gallery a)
  ∧ (filter_active removed = filter_active a
     ∧ filtered_images removed = filtered_images a
     ∧ active_view removed = active_view a
     ∧ gallery removed = gallery a)
  ∧ (Forall leaves_filter es →
     filter_active (state (run set_iter es s)) = filter_active (state s)
     ∧ filtered_images (state (run set_iter es s)) = filtered_images (state s))
  ∧ (∀ dest_dir,
       selected_images a ≠ ∅ → dest_dir ≠ "" →
       filter_active (move_selection set_iter dest_dir a d).1 = false
       ∧ filtered_images (move_selection set_iter dest_dir a d).1 = []).
Proof.
  intros added removed.
  destruct (tag_edits_frame set_iter text a d) as [Hadd Hrem].
  split; [exact Hadd|]. split; [exact Hrem|]. split.
  - by apply run_leaves_filter.
  - intros dest_dir Hsel Hdest. unfold move_selection.
    rewrite !bool_decide_eq_false_2 by done.
    destruct (foldl _ _ _) as [d' moved]. cbn [fst].
    unfold populate_gallery. by fields.
Qed.

End WithIteration.

(** C10 as stated fails: with a filter on [cat] active, the user selects
    the image in view, removes its tag and moves it away.  No filter,
    ignore or clear-filter operation has run, and the filtered view is
    gone. *)
Lemma filtered_view_counterexample :
  let s := MoreSamples.filtered_pets in
  let s' := run Samples.iter
              [User SelectAll; User (RemoveTag "cat");
               User (MoveSelection "/dest")] s in
  ¬ (filter_active (state s') = filter_active (state s)
     ∧ filtered_images (state s') = filtered_images (state s)).
Proof. vm_compute. by intros [[=] _]. Qed.

End StaleView.
